(** * Particle Swarm Optimization (pso.c / pso.h): a shallow embedding

    C [double] is IEEE 754 binary64 and is modelled by Rocq's primitive
    [float]; the C comparisons [<], [<=], [>] are [ltb], [leb] and the
    swapped [ltb], so NaN, the infinities and signed zeros behave as they do
    in the compiled program.  C [int] is modelled by [Z]; the results are
    meaningful while the values stay inside the range of [int] (signed
    overflow is undefined in C).  Arrays are lists, read with a default
    and written by index.

    [pso_solve] is modelled by explicit state passing over a record of its
    locals and of the objects behind its pointer arguments.  The values of
    [rand()] and the function [fmod] come from a record standing for libc;
    the objective is a pure function of the position; [malloc] succeeds;
    [printf] leaves the state alone and is left out.

    The functions that allocate and release memory are modelled a second
    time in the module [Mem], over a heap in which [malloc] can fail, and
    [init_comm_ring] in the module [Checked], with every write checked
    against the bounds of the array. *)

From Stdlib Require Import ZArith List Bool Lia Floats Uint63 Sorted.
Import ListNotations.

Local Open Scope Z_scope.

#[local] Set Warnings "-inexact-float".

(** ** Doubles and ints *)

(** <float.h>: the largest finite double. *)
Definition DBL_MAX : float := 0x1.fffffffffffffp+1023%float.

Definition INT_MAX : Z := 2147483647.

(** The conversion [(double) z] of an [int]. *)
Definition double_of_int (z : Z) : float :=
  if z <? 0 then PrimFloat.opp (PrimFloat.of_uint63 (Uint63.of_Z (- z)))
  else PrimFloat.of_uint63 (Uint63.of_Z z).

(** The conversion of a double to [int]: the fractional part is discarded
    (truncation toward zero). NaN and the infinities, for which C leaves the
    conversion undefined, give 0 here. *)
Definition int_of_double (x : float) : Z :=
  match Prim2SF x with
  | S754_finite s m e =>
      let a := if 0 <=? e then Z.pos m * 2 ^ e else Z.pos m / 2 ^ (- e) in
      if s then - a else a
  | _ => 0
  end.

(** C truth value of an [int]. *)
Definition truthy (z : Z) : bool := negb (z =? 0).

(** ** pso.h *)

Definition PSO_MAX_SIZE : Z := 100.
Definition PSO_INERTIA : float := 0.7298%float.

Definition PSO_NHOOD_GLOBAL : Z := 0.
Definition PSO_NHOOD_RING : Z := 1.
Definition PSO_NHOOD_RANDOM : Z := 2.

Definition PSO_W_CONST : Z := 0.
Definition PSO_W_LIN_DEC : Z := 1.

(** [pso_result_t]; [gbest] is the caller's buffer. *)
Record pso_result_t := mk_result {
  error : float;
  gbest : list float
}.

(** [pso_settings_t]. *)
Record pso_settings_t := mk_settings {
  dim : Z;
  range_lo : list float;
  range_hi : list float;
  goal : float;
  size : Z;
  print_every : Z;
  steps : Z;
  step : Z;
  c1 : float;
  c2 : float;
  w_max : float;
  w_min : float;
  clamp_pos : Z;
  nhood_strategy : Z;
  nhood_size : Z;
  w_strategy : Z
}.

(** [settings->step = k]. *)
Definition set_step (k : Z) (s : pso_settings_t) : pso_settings_t :=
  mk_settings (dim s) (range_lo s) (range_hi s) (goal s) (size s)
    (print_every s) (steps s) k (c1 s) (c2 s) (w_max s) (w_min s)
    (clamp_pos s) (nhood_strategy s) (nhood_size s) (w_strategy s).

(** The type of objective functions, [pso_obj_fun_t]: position vector and
    dimension; the opaque parameter pointer is part of the closure. *)
Definition pso_obj_fun_t : Type := list float -> Z -> float.

(** ** pso.c: swarm size and inertia *)

(** [int size = 10. + 2. * sqrt(dim);] then the cap. *)
Definition pso_calc_swarm_size (dim : Z) : Z :=
  let size := int_of_double (10 + 2 * PrimFloat.sqrt (double_of_int dim))%float in
  if PSO_MAX_SIZE <? size then PSO_MAX_SIZE else size.

(** [calc_inertia_lin_dec]: [dec_stage] is an [int] division, the quotient
    by [dec_stage] a division of doubles. *)
Definition calc_inertia_lin_dec (step : Z) (settings : pso_settings_t) : float :=
  let dec_stage := Z.quot (3 * steps settings) 4 in
  if step <=? dec_stage then
    (w_min settings
     + (w_max settings - w_min settings) * double_of_int (dec_stage - step)
       / double_of_int dec_stage)%float
  else w_min settings.

(** ** Arrays *)

Section Arrays.
Context {A : Type}.

(** [a[i]]; outside the array (undefined in C) the default [d]. *)
Definition get (d : A) (a : list A) (i : Z) : A :=
  if i <? 0 then d else nth (Z.to_nat i) a d.

Fixpoint upd_nat (a : list A) (n : nat) (v : A) : list A :=
  match a, n with
  | [], _ => []
  | _ :: t, O => v :: t
  | h :: t, S n' => h :: upd_nat t n' v
  end.

(** [a[i] = v]; a write outside the array (undefined in C) is dropped. *)
Definition upd (a : list A) (i : Z) (v : A) : list A :=
  if i <? 0 then a else upd_nat a (Z.to_nat i) v.

(** [memmove(dst, src, n * sizeof(A))]. *)
Definition memmove (dst src : list A) (n : Z) : list A :=
  firstn (Z.to_nat n) src ++ skipn (Z.to_nat n) dst.

(** [for (i = 0; i < n; i++) body], with [n] fixed during the loop. *)
Definition for_loop {St : Type} (n : Z) (body : Z -> St -> St) (s : St) : St :=
  fold_left (fun s i => body (Z.of_nat i) s) (seq 0 (Z.to_nat n)) s.
End Arrays.

Definition matrix : Type := list (list float).

(** [m[i][d]] and [m[i][d] = v]. *)
Definition get2 (m : matrix) (i d : Z) : float := get 0%float (get [] m i) d.
Definition set2 (m : matrix) (i d : Z) (v : float) : matrix :=
  upd m i (upd (get [] m i) d v).

(** [pso_matrix_new]: the cells are written before they are read, so the
    indeterminate content of the fresh block is taken to be zero. *)
Definition pso_matrix_new (size dim : Z) : matrix :=
  repeat (repeat 0%float (Z.to_nat dim)) (Z.to_nat size).

(** ** The C library *)

(** What the solver takes from libc: the values [rand()] returns after
    [srand(time(NULL))], call by call, [RAND_MAX], and [fmod]. *)
Record libc := mk_libc {
  rand_seq : nat -> Z;
  RAND_MAX : Z;
  fmod : float -> float -> float
}.

(** ** The state of a run *)

(** Observations of a run, kept in a ghost trace (newest first) that no
    branch of the solver reads. *)
Inductive event :=
| Evaluated (i : Z) (f : float)   (* [obj_fun] returned [f] for particle [i] *)
| Improved (e : float)            (* [solution->error = e], [gbest] written *)
| Rewired (k : Z).                (* [inform_random] rebuilt [comm], step [k] *)

(** The locals of [pso_solve], the two objects it reaches through its
    pointer arguments ([solution], [settings]), and the hidden state of
    [rand()]. *)
Record swarm := mk_swarm {
  pos : matrix;
  vel : matrix;
  pos_b : matrix;
  fit : list float;
  fit_b : list float;
  pos_nb : matrix;
  comm : list Z;
  improved : Z;
  w : float;
  solution : pso_result_t;
  settings : pso_settings_t;
  rng : nat;
  trace : list event
}.

Definition set_pos v s := mk_swarm v (vel s) (pos_b s) (fit s) (fit_b s) (pos_nb s) (comm s) (improved s) (w s) (solution s) (settings s) (rng s) (trace s).
Definition set_vel v s := mk_swarm (pos s) v (pos_b s) (fit s) (fit_b s) (pos_nb s) (comm s) (improved s) (w s) (solution s) (settings s) (rng s) (trace s).
Definition set_pos_b v s := mk_swarm (pos s) (vel s) v (fit s) (fit_b s) (pos_nb s) (comm s) (improved s) (w s) (solution s) (settings s) (rng s) (trace s).
Definition set_fit v s := mk_swarm (pos s) (vel s) (pos_b s) v (fit_b s) (pos_nb s) (comm s) (improved s) (w s) (solution s) (settings s) (rng s) (trace s).
Definition set_fit_b v s := mk_swarm (pos s) (vel s) (pos_b s) (fit s) v (pos_nb s) (comm s) (improved s) (w s) (solution s) (settings s) (rng s) (trace s).
Definition set_pos_nb v s := mk_swarm (pos s) (vel s) (pos_b s) (fit s) (fit_b s) v (comm s) (improved s) (w s) (solution s) (settings s) (rng s) (trace s).
Definition set_comm v s := mk_swarm (pos s) (vel s) (pos_b s) (fit s) (fit_b s) (pos_nb s) v (improved s) (w s) (solution s) (settings s) (rng s) (trace s).
Definition set_improved v s := mk_swarm (pos s) (vel s) (pos_b s) (fit s) (fit_b s) (pos_nb s) (comm s) v (w s) (solution s) (settings s) (rng s) (trace s).
Definition set_w v s := mk_swarm (pos s) (vel s) (pos_b s) (fit s) (fit_b s) (pos_nb s) (comm s) (improved s) v (solution s) (settings s) (rng s) (trace s).
Definition set_solution v s := mk_swarm (pos s) (vel s) (pos_b s) (fit s) (fit_b s) (pos_nb s) (comm s) (improved s) (w s) v (settings s) (rng s) (trace s).
Definition set_settings v s := mk_swarm (pos s) (vel s) (pos_b s) (fit s) (fit_b s) (pos_nb s) (comm s) (improved s) (w s) (solution s) v (rng s) (trace s).
Definition set_rng v s := mk_swarm (pos s) (vel s) (pos_b s) (fit s) (fit_b s) (pos_nb s) (comm s) (improved s) (w s) (solution s) (settings s) v (trace s).
Definition log (e : event) s := mk_swarm (pos s) (vel s) (pos_b s) (fit s) (fit_b s) (pos_nb s) (comm s) (improved s) (w s) (solution s) (settings s) (rng s) (e :: trace s).

(** ** Random numbers *)

Definition rand (L : libc) (s : swarm) : Z * swarm :=
  (rand_seq L (rng s), set_rng (S (rng s)) s).

(** [#define RNG_UNIFORM() (rand()/(double)RAND_MAX)] *)
Definition RNG_UNIFORM (L : libc) (s : swarm) : float * swarm :=
  let (r, s) := rand L s in
  ((double_of_int r / double_of_int (RAND_MAX L))%float, s).

(** [#define RNG_UNIFORM_INT(s) (rand()%s)] *)
Definition RNG_UNIFORM_INT (L : libc) (n : Z) (s : swarm) : Z * swarm :=
  let (r, s) := rand L s in (Z.rem r n, s).

(** ** Neighbourhood strategies *)

(** [inform_fun_t]: the arrays a strategy works on are fields of the state. *)
Definition inform_fun_t : Type := swarm -> swarm.

(** [inertia_fun_t] *)
Definition inertia_fun_t : Type := Z -> pso_settings_t -> float.

(** [inform_global]: every [pos_nb[i]] receives [gbest]. *)
Definition inform_global (st : swarm) : swarm :=
  let s := settings st in
  for_loop (size s)
    (fun i st =>
       set_pos_nb (upd (pos_nb st) i
                     (memmove (get [] (pos_nb st) i) (gbest (solution st)) (dim s))) st)
    st.

(** [comm[i*size + j]] as a truth value: particle [i] informs particle [j]. *)
Definition informs (comm : list Z) (size i j : Z) : bool :=
  truthy (get 0 comm (i * size + j)).

(** The inner loop of [inform]: [b_n] starts at [j] and moves to [i] when
    [i] informs [j] and [fit_b[i] < fit_b[b_n]]. *)
Definition best_informer (comm : list Z) (fit_b : list float) (size j : Z) : Z :=
  for_loop size
    (fun i b_n =>
       if informs comm size i j && (get 0 fit_b i <? get 0 fit_b b_n)%float
       then i else b_n)
    j.

(** [inform]: the new [pos_nb]. *)
Definition inform (comm : list Z) (pos_nb pos_b : matrix) (fit_b : list float)
    (s : pso_settings_t) : matrix :=
  for_loop (size s)
    (fun j pos_nb =>
       let b_n := best_informer comm fit_b (size s) j in
       upd pos_nb j (memmove (get [] pos_nb j) (get [] pos_b b_n) (dim s)))
    pos_nb.

(** [memset((void * )comm, 0, sizeof(int)*size*size)] *)
Definition clear_comm (s : pso_settings_t) : list Z :=
  repeat 0 (Z.to_nat (size s * size s)).

(** [init_comm_ring] *)
Definition init_comm_ring (s : pso_settings_t) : list Z :=
  let n := size s in
  for_loop n
    (fun i comm =>
       let comm := upd comm (i * n + i) 1 in
       if i =? 0 then
         let comm := upd comm (i * n + i + 1) 1 in
         upd comm ((i + 1) * n - 1) 1
       else if i =? n - 1 then
         let comm := upd comm (i * n) 1 in
         upd comm (i * n + i - 1) 1
       else
         let comm := upd comm (i * n + i + 1) 1 in
         upd comm (i * n + i - 1) 1)
    (clear_comm s).

Definition inform_ring (st : swarm) : swarm :=
  set_pos_nb (inform (comm st) (pos_nb st) (pos_b st) (fit_b st) (settings st)) st.

(** [init_comm_random] *)
Definition init_comm_random (L : libc) (st : swarm) : swarm :=
  let s := settings st in
  let n := size s in
  for_loop n
    (fun i st =>
       let st := set_comm (upd (comm st) (i * n + i) 1) st in
       for_loop (nhood_size s)
         (fun _ st =>
            let (j, st) := RNG_UNIFORM_INT L n st in
            set_comm (upd (comm st) (i * n + j) 1) st)
         st)
    (set_comm (clear_comm s) st).

(** [inform_random]: the graph is rebuilt when [improved] is 0. *)
Definition inform_random (L : libc) (st : swarm) : swarm :=
  let st :=
    if negb (truthy (improved st))
    then log (Rewired (step (settings st))) (init_comm_random L st)
    else st in
  set_pos_nb (inform (comm st) (pos_nb st) (pos_b st) (fit_b st) (settings st)) st.

(** [pso_settings_new]; allocation is taken to succeed, and [step0] is the
    indeterminate content of the field [step], which is not assigned. *)
Definition pso_settings_new (step0 : Z) (dim : Z) (range_lo range_hi : float)
  : pso_settings_t :=
  {| dim := dim;
     goal := 1e-5;
     range_lo := repeat range_lo (Z.to_nat dim);
     range_hi := repeat range_hi (Z.to_nat dim);
     size := pso_calc_swarm_size dim;
     print_every := 1000;
     steps := 100000;
     step := step0;
     c1 := 1.496;
     c2 := 1.496;
     w_max := PSO_INERTIA;
     w_min := 0.3;
     clamp_pos := 1;
     nhood_strategy := PSO_NHOOD_RING;
     nhood_size := 5;
     w_strategy := PSO_W_LIN_DEC |}.

(** ** pso_solve *)

Section Solver.
Variable L : libc.
Variable obj_fun : pso_obj_fun_t.

(** Initialisation of particle [i], dimension [d]: two draws in
    [range_lo[d], range_hi[d]]. *)
Definition init_dim (i d : Z) (st : swarm) : swarm :=
  let s := settings st in
  let lo := get 0%float (range_lo s) d in
  let hi := get 0%float (range_hi s) d in
  let (u1, st) := RNG_UNIFORM L st in
  let a := (lo + (hi - lo) * u1)%float in
  let (u2, st) := RNG_UNIFORM L st in
  let b := (lo + (hi - lo) * u2)%float in
  let st := set_pos (set2 (pos st) i d a) st in
  let st := set_pos_b (set2 (pos_b st) i d a) st in
  set_vel (set2 (vel st) i d ((a - b) / 2)%float) st.

(** The body of the initialisation loop; [f] is [fit[i]], read back where
    the source reads the cell it has just written. *)
Definition init_particle (i : Z) (st : swarm) : swarm :=
  let s := settings st in
  let st := for_loop (dim s) (init_dim i) st in
  let f := obj_fun (get [] (pos st) i) (dim s) in
  let st := log (Evaluated i f) (set_fit (upd (fit st) i f) st) in
  let st := set_fit_b (upd (fit_b st) i f) st in
  if (f <? error (solution st))%float then
    log (Improved f)
      (set_solution
         (mk_result f (memmove (gbest (solution st)) (get [] (pos st) i) (dim s)))
         st)
  else st.

(** Velocity and position update of particle [i] in dimension [d]. *)
Definition advance_dim (i d : Z) (st : swarm) : swarm :=
  let s := settings st in
  let (u1, st) := RNG_UNIFORM L st in
  let rho1 := (c1 s * u1)%float in
  let (u2, st) := RNG_UNIFORM L st in
  let rho2 := (c2 s * u2)%float in
  let st :=
    set_vel (set2 (vel st) i d
               (w st * get2 (vel st) i d
                + rho1 * (get2 (pos_b st) i d - get2 (pos st) i d)
                + rho2 * (get2 (pos_nb st) i d - get2 (pos st) i d))%float) st in
  set_pos (set2 (pos st) i d (get2 (pos st) i d + get2 (vel st) i d)%float) st.

(** The boundary policy for [pos[i][d]]: clamp, or wrap around. *)
Definition bound_dim (i d : Z) (st : swarm) : swarm :=
  let s := settings st in
  let lo := get 0%float (range_lo s) d in
  let hi := get 0%float (range_hi s) d in
  let p := get2 (pos st) i d in
  if truthy (clamp_pos s) then
    if (p <? lo)%float then
      set_vel (set2 (vel st) i d 0%float) (set_pos (set2 (pos st) i d lo) st)
    else if (hi <? p)%float then
      set_vel (set2 (vel st) i d 0%float) (set_pos (set2 (pos st) i d hi) st)
    else st
  else
    if (p <? lo)%float then
      set_vel (set2 (vel st) i d 0%float)
        (set_pos (set2 (pos st) i d (hi - fmod L (lo - p) (hi - lo))%float) st)
    else if (hi <? p)%float then
      set_vel (set2 (vel st) i d 0%float)
        (set_pos (set2 (pos st) i d (lo + fmod L (p - hi) (hi - lo))%float) st)
    else st.

(** The body of the loop over the dimensions of particle [i]. *)
Definition move_dim (i d : Z) (st : swarm) : swarm :=
  bound_dim i d (advance_dim i d st).

(** Fitness at the new position, then the personal and the global best;
    [f] is [fit[i]]. *)
Definition evaluate_particle (i : Z) (st : swarm) : swarm :=
  let s := settings st in
  let f := obj_fun (get [] (pos st) i) (dim s) in
  let st := log (Evaluated i f) (set_fit (upd (fit st) i f) st) in
  let st :=
    if (f <? get 0%float (fit_b st) i)%float then
      set_pos_b
        (upd (pos_b st) i (memmove (get [] (pos_b st) i) (get [] (pos st) i) (dim s)))
        (set_fit_b (upd (fit_b st) i f) st)
    else st in
  if (f <? error (solution st))%float then
    log (Improved f)
      (set_solution
         (mk_result f (memmove (gbest (solution st)) (get [] (pos st) i) (dim s)))
         (set_improved 1 st))
  else st.

Definition update_particle (i : Z) (st : swarm) : swarm :=
  evaluate_particle i (for_loop (dim (settings st)) (move_dim i) st).

(** One pass through the body of the main loop; [false] is [break].
    Printing does not touch the state and is left out. *)
Definition loop_body (inform_fun : inform_fun_t)
    (calc_inertia_fun : option inertia_fun_t) (k : Z) (st : swarm)
  : swarm * bool :=
  let st := set_settings (set_step k (settings st)) st in
  let st :=
    match calc_inertia_fun with
    | Some f => set_w (f k (settings st)) st
    | None => st
    end in
  if (error (solution st) <=? goal (settings st))%float then (st, false)
  else
    let st := inform_fun st in
    let st := set_improved 0 st in
    (for_loop (size (settings st)) update_particle st, true).

(** [for (step=0; step<settings->steps; step++)]: [n] passes are left. *)
Fixpoint main_loop (inform_fun : inform_fun_t)
    (calc_inertia_fun : option inertia_fun_t) (n : nat) (k : Z) (st : swarm)
  : swarm :=
  match n with
  | O => st
  | S n' =>
      let (st', go) := loop_body inform_fun calc_inertia_fun k st in
      if go then main_loop inform_fun calc_inertia_fun n' (k + 1) st' else st'
  end.

(** The state when the locals are set up: fresh arrays, [improved = 0],
    [w = PSO_INERTIA]; [sol] and [s] are the caller's objects. *)
Definition pso_alloc (sol : pso_result_t) (s : pso_settings_t) : swarm :=
  {| pos := pso_matrix_new (size s) (dim s);
     vel := pso_matrix_new (size s) (dim s);
     pos_b := pso_matrix_new (size s) (dim s);
     fit := repeat 0%float (Z.to_nat (size s));
     fit_b := repeat 0%float (Z.to_nat (size s));
     pos_nb := pso_matrix_new (size s) (dim s);
     comm := repeat 0 (Z.to_nat (size s * size s));
     improved := 0;
     w := PSO_INERTIA;
     solution := sol;
     settings := s;
     rng := 0%nat;
     trace := [] |}.

(** [switch (settings->nhood_strategy)] *)
Definition select_inform (st : swarm) : swarm * inform_fun_t :=
  let k := nhood_strategy (settings st) in
  if k =? PSO_NHOOD_GLOBAL then (st, inform_global)
  else if k =? PSO_NHOOD_RING then
    (set_comm (init_comm_ring (settings st)) st, inform_ring)
  else if k =? PSO_NHOOD_RANDOM then (init_comm_random L st, inform_random L)
  else (st, inform_global).

(** [switch (settings->w_strategy)] *)
Definition select_inertia (s : pso_settings_t) : option inertia_fun_t :=
  if w_strategy s =? PSO_W_LIN_DEC then Some calc_inertia_lin_dec else None.

(** Up to and including [solution->error = DBL_MAX]. *)
Definition pso_setup (sol : pso_result_t) (s : pso_settings_t)
  : swarm * inform_fun_t :=
  let (st, inform_fun) := select_inform (pso_alloc sol s) in
  (set_solution (mk_result DBL_MAX (gbest (solution st))) st, inform_fun).

(** Up to the end of the initialisation loop. *)
Definition pso_init (sol : pso_result_t) (s : pso_settings_t)
  : swarm * inform_fun_t :=
  let (st, inform_fun) := pso_setup sol s in
  (for_loop (size (settings st)) init_particle st, inform_fun).

(** The state when the main loop is left, before the arrays are freed. *)
Definition pso_run (sol : pso_result_t) (s : pso_settings_t) : swarm :=
  let (st, inform_fun) := pso_init sol s in
  main_loop inform_fun (select_inertia s) (Z.to_nat (steps (settings st))) 0 st.

(** [pso_solve]: what the caller finds in [*solution] and [*settings]. *)
Definition pso_solve (sol : pso_result_t) (s : pso_settings_t)
  : pso_result_t * pso_settings_t :=
  let st := pso_run sol s in (solution st, settings st).

(** The state at the head of the loop after [k] complete passes, if the
    run gets there. *)
Fixpoint loop_head (inform_fun : inform_fun_t)
    (calc_inertia_fun : option inertia_fun_t) (st0 : swarm) (k : nat)
  : option swarm :=
  match k with
  | O => Some st0
  | S k' =>
      match loop_head inform_fun calc_inertia_fun st0 k' with
      | Some st =>
          if Z.of_nat k' <? steps (settings st) then
            let (st', go) :=
              loop_body inform_fun calc_inertia_fun (Z.of_nat k') st in
            if go then Some st' else None
          else None
      | None => None
      end
  end.

Definition pso_loop_head (sol : pso_result_t) (s : pso_settings_t) (k : nat)
  : option swarm :=
  let (st, inform_fun) := pso_init sol s in
  loop_head inform_fun (select_inertia s) st k.

End Solver.

(** ** Dynamic memory

    What [malloc] and [free] do to the heap, for the functions that call
    them.  Blocks are numbered in the order of their allocation; a pointer
    is a block or NULL.  Which calls of [malloc] fail is given by [oom], by
    the number of the call.  A function runs on a heap and either returns,
    with a value and the heap it leaves, or meets undefined behaviour: a
    [free] of a block that is not allocated, or a read or a write through
    NULL or through a pointer to a freed block.  The run ends there:
    nothing is said of what the program does from then on.  Accesses are
    modelled where the pointer may be NULL or dangling; where the source
    has checked it, and has not freed the block since, they are left out. *)

Module Mem.

Inductive fault :=
| UseAfterFree (b : nat)   (* an access to a block that was freed *)
| InvalidFree (b : nat)    (* [free] of a block that is not allocated *)
| NullAccess.              (* an access through NULL *)

Record heap := mk_heap {
  live : nat -> bool;      (* the blocks allocated and not freed *)
  next : nat;              (* the next fresh block *)
  calls : nat              (* the calls of [malloc] so far *)
}.

Inductive outcome (A : Type) :=
| Returns (a : A) (h : heap)         (* the value returned, the heap left *)
| Undefined (f : fault) (h : heap).  (* the fault met, the heap it is met in *)

Arguments Returns {A} a h.
Arguments Undefined {A} f h.

(** Code that runs on a heap. *)
Definition run (A : Type) : Type := heap -> outcome A.

Definition ret {A : Type} (a : A) : run A := fun h => Returns a h.

(** [m], then [f] on what [m] returns, unless [m] met a fault. *)
Definition bind {A B : Type} (m : run A) (f : A -> run B) : run B :=
  fun h =>
    match m h with
    | Returns a h' => f a h'
    | Undefined e h' => Undefined e h'
    end.

#[local] Notation "x <- m ;; f" := (bind m (fun x => f))
  (at level 61, m at next level, right associativity).
#[local] Notation "m ;; f" := (bind m (fun _ => f))
  (at level 61, right associativity).

Section Allocator.
Variable oom : nat -> bool.

Definition malloc : run (option nat) :=
  fun h =>
    if oom (calls h) then
      Returns None (mk_heap (live h) (next h) (S (calls h)))
    else
      Returns (Some (next h))
        (mk_heap (fun b => (b =? next h)%nat || live h b) (S (next h))
           (S (calls h))).

(** [free(p)]; [free(NULL)] does nothing. *)
Definition free (p : option nat) : run unit :=
  fun h =>
    match p with
    | None => Returns tt h
    | Some b =>
        if live h b then
          Returns tt
            (mk_heap (fun b' => negb (b' =? b)%nat && live h b') (next h)
               (calls h))
        else Undefined (InvalidFree b) h
    end.

(** A read or a write through [p]. *)
Definition access (p : option nat) : run unit :=
  fun h =>
    match p with
    | None => Undefined NullAccess h
    | Some b => if live h b then Returns tt h else Undefined (UseAfterFree b) h
    end.

(** A read through [p] of a cell in which [v] was stored. *)
Definition load {A : Type} (p : option nat) (v : A) : run A :=
  access p ;; ret v.

(** [pso_settings_new]: the block of the settings and the two arrays of
    bounds it points to.  When the allocation of [range_hi] fails the
    source frees the settings and then reads [settings->range_lo]. *)
Definition pso_settings_new : run (option (nat * nat * nat)) :=
  settings <- malloc ;;
  match settings with
  | None => ret None
  | Some sp =>
      range_lo <- malloc ;;
      match range_lo with
      | None => free (Some sp) ;; ret None
      | Some lo =>
          range_hi <- malloc ;;
          match range_hi with
          | None =>
              free (Some sp) ;;
              p <- load (Some sp) (Some lo) ;;
              free p ;;
              ret None
          | Some hi => ret (Some (sp, lo, hi))
          end
      end
  end.

(** [pso_settings_free], for the settings [sp] whose fields [range_lo] and
    [range_hi] hold [lo] and [hi]. *)
Definition pso_settings_free (settings : nat * nat * nat) : run unit :=
  let '(sp, lo, hi) := settings in
  p <- load (Some sp) (Some lo) ;;
  free p ;;
  p <- load (Some sp) (Some hi) ;;
  free p ;;
  free (Some sp).

(** [pso_matrix_new]: the block of the row pointers, then one block for
    each row, stored through [m]; no result of [malloc] is checked. *)
Definition pso_matrix_new (size : Z) : run (option nat * list (option nat)) :=
  m <- malloc ;;
  rows <-
    for_loop size
      (fun _ (rows : run (list (option nat))) =>
         rows <- rows ;;
         r <- malloc ;;
         access m ;;
         ret (rows ++ [r]))
      (ret []) ;;
  ret (m, rows).

(** [pso_matrix_free], for the matrix [m] whose cells hold [rows]. *)
Definition pso_matrix_free (mat : option nat * list (option nat)) (size : Z)
  : run unit :=
  let (m, rows) := mat in
  for_loop size
    (fun i (done : run unit) =>
       done ;;
       r <- load m (nth (Z.to_nat i) rows None) ;;
       free r)
    (ret tt) ;;
  free m.

(** [pso_solve]: the allocations at its start and the releases at its end,
    in the order of the source.  Between them the source allocates and
    frees nothing.  Its reads and writes there are left out, so this is
    [pso_solve] for the runs in which these allocations succeed: every
    block it reads or writes is allocated then. *)
Definition pso_solve (s : pso_settings_t) : run unit :=
  pos <- pso_matrix_new (size s) ;;
  vel <- pso_matrix_new (size s) ;;
  pos_b <- pso_matrix_new (size s) ;;
  fit <- malloc ;;
  fit_b <- malloc ;;
  pos_nb <- pso_matrix_new (size s) ;;
  comm <- malloc ;;
  pso_matrix_free pos (size s) ;;
  pso_matrix_free vel (size s) ;;
  pso_matrix_free pos_b (size s) ;;
  pso_matrix_free pos_nb (size s) ;;
  free comm ;;
  free fit ;;
  free fit_b.

End Allocator.

(** [b] is one of the blocks from [a] up to [c], [c] excluded. *)
Definition within (a c b : nat) : bool := (a <=? b)%nat && (b <? c)%nat.

(** Since the heap [h0], blocks were allocated and none was freed. *)
Definition grown (h0 h : heap) : Prop :=
  (next h0 <= next h)%nat
  /\ forall b, live h b = within (next h0) (next h) b || live h0 b.

(** No block at or after [next] is allocated. *)
Definition wf (h : heap) : Prop :=
  forall b, (next h <= b)%nat -> live h b = false.

(** The same blocks are allocated. *)
Definition same (h h' : heap) : Prop := forall b, live h' b = live h b.

(** Nothing is allocated yet. *)
Definition empty : heap := mk_heap (fun _ => false) 0 0.

End Mem.

(** ** Writes inside the array

    [upd] drops a write outside the array, where C leaves the behaviour
    undefined.  Here every write is checked instead: [store] gives nothing
    when the index is outside the array, and a function that makes such a
    write gives nothing either. *)

Module Checked.

(** [a[i] = v], for [i] inside [a]. *)
Definition store {A : Type} (a : list A) (i : Z) (v : A) : option (list A) :=
  if (0 <=? i) && (i <? Z.of_nat (length a)) then Some (upd a i v) else None.

Definition bind {A B : Type} (x : option A) (f : A -> option B) : option B :=
  match x with
  | Some a => f a
  | None => None
  end.

#[local] Notation "x <- e ;; f" := (bind e (fun x => f))
  (at level 61, e at next level, right associativity).

(** [init_comm_ring], on the [size * size] cells that [memset] clears. *)
Definition init_comm_ring (s : pso_settings_t) : option (list Z) :=
  let n := size s in
  for_loop n
    (fun i (comm : option (list Z)) =>
       comm <- comm ;;
       comm <- store comm (i * n + i) 1 ;;
       if i =? 0 then
         comm <- store comm (i * n + i + 1) 1 ;;
         store comm ((i + 1) * n - 1) 1
       else if i =? n - 1 then
         comm <- store comm (i * n) 1 ;;
         store comm (i * n + i - 1) 1
       else
         comm <- store comm (i * n + i + 1) 1 ;;
         store comm (i * n + i - 1) 1)
    (Some (clear_comm s)).

End Checked.

(** ** Sample inputs *)

(** [pso_sphere] of the demonstration program: the sum of the squares. *)
Definition sphere : pso_obj_fun_t :=
  fun x dim =>
    fold_left (fun s xi => (s + xi * xi)%float) (firstn (Z.to_nat dim) x)
      0%float.

(** A libc with [RAND_MAX = 2^31 - 1] whose [rand()] returns [2^30] and 0
    in turn; [fmod] is not called by the sample runs, which clamp. *)
Definition libc_half : libc :=
  {| rand_seq := fun k => if Nat.even k then 1073741824 else 0;
     RAND_MAX := 2147483647;
     fmod := fun x _ => x |}.

(** The default settings with a budget of one step. *)
Definition settings_one_step : pso_settings_t :=
  {| dim := 1; range_lo := [(-1)%float]; range_hi := [1%float]; goal := 1e-5;
     size := 2; print_every := 0; steps := 1; step := 7;
     c1 := 1.496; c2 := 1.496; w_max := PSO_INERTIA; w_min := 0.3;
     clamp_pos := 1; nhood_strategy := PSO_NHOOD_GLOBAL; nhood_size := 5;
     w_strategy := PSO_W_LIN_DEC |}.

(** Three particles on a line, three steps, ring topology, constant
    inertia; the caller left 7 in [step]. *)
Definition settings_demo : pso_settings_t :=
  {| dim := 1; range_lo := [(-10)%float]; range_hi := [10%float]; goal := 1e-5;
     size := 3; print_every := 0; steps := 3; step := 7;
     c1 := 1.496; c2 := 1.496; w_max := PSO_INERTIA; w_min := 0.3;
     clamp_pos := 1; nhood_strategy := PSO_NHOOD_RING; nhood_size := 5;
     w_strategy := PSO_W_CONST |}.

(** The caller's result object: any [error], a one-cell buffer holding 42. *)
Definition result_demo : pso_result_t := mk_result 0%float [42%float].

(** An objective with a cliff: 1 up to 6, minus infinity beyond. *)
Definition cliff : pso_obj_fun_t :=
  fun x _ => if (get 0%float x 0 <=? 6)%float then 1%float else neg_infinity.

(** One particle on [0, 10], one step, global topology, constant inertia. *)
Definition settings_cliff : pso_settings_t :=
  {| dim := 1; range_lo := [0%float]; range_hi := [10%float]; goal := 1e-5;
     size := 1; print_every := 0; steps := 1; step := 0;
     c1 := 1.496; c2 := 1.496; w_max := PSO_INERTIA; w_min := 0.3;
     clamp_pos := 1; nhood_strategy := PSO_NHOOD_GLOBAL; nhood_size := 5;
     w_strategy := PSO_W_CONST |}.

(** The state of that run in step 0, when the particles are about to be
    updated: after the initialisation, [inform_global] and [improved = 0]. *)
Definition swarm_cliff : swarm :=
  set_improved 0
    (inform_global (fst (pso_init libc_half cliff result_demo settings_cliff))).

(** An objective that is NaN everywhere. *)
Definition nan_everywhere : pso_obj_fun_t := fun _ _ => nan.

(** One particle between [-DBL_MAX] and [DBL_MAX], one step, global
    topology, constant inertia, clamping. *)
Definition settings_wide : pso_settings_t :=
  {| dim := 1; range_lo := [(- DBL_MAX)%float]; range_hi := [DBL_MAX];
     goal := 1e-5; size := 1; print_every := 0; steps := 1; step := 0;
     c1 := 1.496; c2 := 1.496; w_max := PSO_INERTIA; w_min := 0.3;
     clamp_pos := 1; nhood_strategy := PSO_NHOOD_GLOBAL; nhood_size := 5;
     w_strategy := PSO_W_CONST |}.

(** The state of that run in step 0, when the particles are about to be
    updated. *)
Definition swarm_wide : swarm :=
  set_improved 0
    (inform_global (fst (pso_init libc_half sphere result_demo settings_wide))).

(** A libc with [RAND_MAX = 32767] whose [rand()] is a linear congruential
    sequence. *)
Definition libc_lcg : libc :=
  {| rand_seq := fun k => (Z.of_nat k * 7919 + 12345) mod 32768;
     RAND_MAX := 32767;
     fmod := fun x _ => x |}.

(** Three particles in the plane, random topology, four steps. *)
Definition settings_random : pso_settings_t :=
  {| dim := 2; range_lo := [(-10)%float; (-10)%float];
     range_hi := [10%float; 10%float]; goal := 1e-5;
     size := 3; print_every := 0; steps := 4; step := 0;
     c1 := 1.496; c2 := 1.496; w_max := PSO_INERTIA; w_min := 0.3;
     clamp_pos := 1; nhood_strategy := PSO_NHOOD_RANDOM; nhood_size := 2;
     w_strategy := PSO_W_CONST |}.

(** An objective that is [DBL_MAX] everywhere. *)
Definition dbl_max_everywhere : pso_obj_fun_t := fun _ _ => DBL_MAX.

(** Three personal bests on a ring of three: particles 0 and 2 tie. *)
Definition fit_b_tie : list float := [1%float; 5%float; 1%float].
Definition pos_b_tie : matrix := [[10%float]; [20%float]; [30%float]].

(** The sum of the squares up to 7 in the first coordinate, NaN beyond. *)
Definition nan_beyond_7 : pso_obj_fun_t :=
  fun x dim => if (get 0%float x 0 <=? 7)%float then sphere x dim else nan.

(** No particle at all, three steps. *)
Definition settings_empty : pso_settings_t :=
  {| dim := 1; range_lo := [(-1)%float]; range_hi := [1%float]; goal := 1e-5;
     size := 0; print_every := 0; steps := 3; step := 0;
     c1 := 1.496; c2 := 1.496; w_max := PSO_INERTIA; w_min := 0.3;
     clamp_pos := 1; nhood_strategy := PSO_NHOOD_RING; nhood_size := 5;
     w_strategy := PSO_W_CONST |}.

(** Four particles on a line, two steps, ring topology, constant inertia. *)
Definition settings_four : pso_settings_t :=
  {| dim := 1; range_lo := [(-10)%float]; range_hi := [10%float]; goal := 1e-5;
     size := 4; print_every := 0; steps := 2; step := 0;
     c1 := 1.496; c2 := 1.496; w_max := PSO_INERTIA; w_min := 0.3;
     clamp_pos := 1; nhood_strategy := PSO_NHOOD_RING; nhood_size := 5;
     w_strategy := PSO_W_CONST |}.

(** The state of the run of [settings_random] in step 0, when the particles
    are about to be updated: after the initialisation, [settings->step = 0],
    [inform_random] and [improved = 0]. *)
Definition swarm_random : swarm :=
  let (st, inform_fun) := pso_init libc_lcg sphere result_demo settings_random in
  set_improved 0 (inform_fun (set_settings (set_step 0 (settings st)) st)).

(** The state of the run of [settings_four] in step 1, when particle 0 has
    been updated and particle 1 is about to be. *)
Definition swarm_four : swarm :=
  match pso_loop_head libc_lcg sphere result_demo settings_four 1 with
  | Some st =>
      update_particle libc_lcg sphere 0
        (set_improved 0
           (inform_ring (set_settings (set_step 1 (settings st)) st)))
  | None => pso_alloc result_demo settings_four
  end.

(** ** Definitions that follow the words of the specification *)

(** "min(100, round(10 + 2*sqrt(dim)))", with round the nearest integer,
    in exact integer arithmetic: the integer nearest to [2*sqrt(dim)] is
    [floor (sqrt(4*dim) + 1/2) = floor ((floor (sqrt(16*dim)) + 1) / 2)]. *)
Definition spec_swarm_size (dim : Z) : Z :=
  Z.min 100 (10 + (Z.sqrt (16 * dim) + 1) / 2).

(** "If the objective function returns NaN or an infinite value for some
    particle at some step, ... it never updates that particle's personal
    best fitness/position and never updates the global best." *)
Definition spec_anomaly_never_improves (L : libc) (obj_fun : pso_obj_fun_t)
  : Prop :=
  forall (i : Z) (st : swarm),
    let moved := for_loop (dim (settings st)) (move_dim L i) st in
    let f := obj_fun (get [] (pos moved) i) (dim (settings st)) in
    (is_nan f || is_infinity f) = true ->
    let st' := update_particle L obj_fun i st in
    fit_b st' = fit_b st /\ pos_b st' = pos_b st /\ solution st' = solution st.

(** "whichever informer (including itself) currently has the lowest
    personalBestFitness; ties resolved by first-scanned (ascending) index
    -- scan informer indices in ascending order and replace the candidate
    only on a strictly smaller fitness": the candidate is the first informer
    met, [j] counting as one of its informers. *)
Definition spec_best_informer (comm : list Z) (fit_b : list float)
    (size j : Z) : Z :=
  let candidate :=
    for_loop size
      (fun i (c : option Z) =>
         if (i =? j) || informs comm size i j then
           match c with
           | None => Some i
           | Some b =>
               if (get 0 fit_b i <? get 0 fit_b b)%float then Some i else c
           end
         else c)
      None in
  match candidate with
  | Some b => b
  | None => j
  end.

(** ** Definitions used in the statements *)

(** [test d], [test (d+1)], ... for [fuel] consecutive integers. *)
Fixpoint check_from (test : Z -> bool) (fuel : nat) (d : Z) : bool :=
  match fuel with
  | O => true
  | S fuel' => test d && check_from test fuel' (d + 1)
  end.

(** The integer part of [10 + 2*sqrt(dim)], capped at 100. *)
Definition floor_swarm_size (dim : Z) : Z := Z.min 100 (10 + Z.sqrt (4 * dim)).

(** The values assigned to [solution->error] by an improvement, newest
    first. *)
Fixpoint errors (tr : list event) : list float :=
  match tr with
  | [] => []
  | Improved e :: tr' => e :: errors tr'
  | _ :: tr' => errors tr'
  end.

(** The steps at which [inform_random] rebuilt the graph, newest first. *)
Fixpoint rewires (tr : list event) : list Z :=
  match tr with
  | [] => []
  | Rewired k :: tr' => k :: rewires tr'
  | _ :: tr' => rewires tr'
  end.

(** The values [solution->error] takes in a run, in the order it takes them:
    [DBL_MAX], then the value of every improvement. *)
Definition error_history (tr : list event) : list float :=
  DBL_MAX :: rev (errors tr).

(** [m[i][d]] is a cell of the matrix. *)
Definition cell_in (m : matrix) (i d : Z) : Prop :=
  0 <= i < Z.of_nat (length m) /\ 0 <= d < Z.of_nat (length (get [] m i)).

(** "Under the Clamp boundary policy, for every particle i and dimension d,
    immediately after each per-step position update the position satisfies
    lowerBound[d] <= position[i][d] <= upperBound[d]", for settings with
    [lowerBound[d] <= upperBound[d]]. *)
Definition spec_clamp_in_bounds (L : libc) : Prop :=
  forall (i d : Z) (st : swarm),
    let lo := get 0%float (range_lo (settings st)) d in
    let hi := get 0%float (range_hi (settings st)) d in
    truthy (clamp_pos (settings st)) = true ->
    cell_in (pos st) i d -> cell_in (vel st) i d ->
    (lo <=? hi)%float = true ->
    let p' := get2 (pos (move_dim L i d st)) i d in
    (lo <=? p')%float = true /\ (p' <=? hi)%float = true.


(** "Immediately after swarm initialization completes, Result.bestError
    equals the minimum over all particles i of objective(initial position of
    particle i), and Result.bestPosition holds a position achieving that
    minimum." *)
Definition spec_init_best (L : libc) (obj_fun : pso_obj_fun_t)
    (sol : pso_result_t) (s : pso_settings_t) : Prop :=
  let st := fst (pso_init L obj_fun sol s) in
  let fitness i := obj_fun (get [] (pos st) i) (dim s) in
  (forall i, 0 <= i < size s ->
             (error (solution st) <=? fitness i)%float = true)
  /\ (exists b, 0 <= b < size s /\ fitness b = error (solution st)
                /\ gbest (solution st) = get [] (pos st) b).

(** The invariant of the initialisation loop when the particles below [k]
    are done, for the settings [s] and the caller's buffer [g0]: the shapes
    of the arrays, [fit[i]] the objective at [pos[i]], and the result either
    still [DBL_MAX] with the buffer untouched, or the fitness and position
    of a particle [b] that none of the others beats, the first of its
    fitness. *)
Definition init_invariant (obj_fun : pso_obj_fun_t) (s : pso_settings_t)
    (g0 : list float) (k : Z) (st : swarm) : Prop :=
  let fitness i := get 0%float (fit st) i in
  settings st = s
  /\ length (pos st) = Z.to_nat (size s)
  /\ length (fit st) = Z.to_nat (size s)
  /\ (forall j, 0 <= j < size s ->
                length (get [] (pos st) j) = Z.to_nat (dim s))
  /\ (forall i, 0 <= i < k ->
                fitness i = obj_fun (get [] (pos st) i) (dim s))
  /\ ((solution st = mk_result DBL_MAX g0
       /\ forall i, 0 <= i < k -> (fitness i <? DBL_MAX)%float = false)
      \/ exists b,
           0 <= b < k
           /\ solution st
              = mk_result (fitness b) (memmove g0 (get [] (pos st) b) (dim s))
           /\ (fitness b <? DBL_MAX)%float = true
           /\ (forall i, 0 <= i < k -> (fitness i <? fitness b)%float = false)
           /\ (forall i, 0 <= i < b -> (fitness i =? fitness b)%float = false)).

(** A strategy that does not write to the settings. *)
Definition keeps_settings (f : inform_fun_t) : Prop :=
  forall st, settings (f st) = settings st.

(** The number of calls of the objective recorded in a trace. *)
Fixpoint evaluations (tr : list event) : Z :=
  match tr with
  | [] => 0
  | Evaluated _ _ :: tr' => 1 + evaluations tr'
  | _ :: tr' => evaluations tr'
  end.

(** A strategy that does not call the objective. *)
Definition keeps_evaluations (f : inform_fun_t) : Prop :=
  forall st, evaluations (trace (f st)) = evaluations (trace st).

(** A strategy that writes neither to the settings and the result nor to
    the positions and the personal bests. *)
Definition keeps_particles (f : inform_fun_t) : Prop :=
  forall st,
    settings (f st) = settings st /\ solution (f st) = solution st
    /\ pos (f st) = pos st /\ pos_b (f st) = pos_b st
    /\ fit_b (f st) = fit_b st.

(** [m'] has the rows of [m], each of the same length. *)
Definition same_shape (m m' : matrix) : Prop :=
  length m' = length m
  /\ forall j, length (get [] m' j) = length (get [] m j).

(** The part of the invariant of the initialisation loop that is about the
    personal bests, when the particles below [k] are done: the shapes of
    [pos_b] and [fit_b], and [pos_b[i]], [fit_b[i]] equal to [pos[i]],
    [fit[i]]. *)
Definition init_pbest_invariant (s : pso_settings_t) (k : Z) (st : swarm)
  : Prop :=
  length (pos_b st) = Z.to_nat (size s)
  /\ length (fit_b st) = Z.to_nat (size s)
  /\ (forall j, 0 <= j < size s ->
        length (get [] (pos_b st) j) = Z.to_nat (dim s))
  /\ (forall i, 0 <= i < k ->
        get [] (pos_b st) i = get [] (pos st) i
        /\ get 0%float (fit_b st) i = get 0%float (fit st) i).

(** What holds of the state from the end of the initialisation to the end
    of the run, for the settings [s] and the caller's buffer [g0]: the
    shapes of the arrays; every personal best fitness is the objective at
    the personal best position and is not strictly below the best error;
    and, when the buffer holds [dim] cells, the result is untouched or its
    error is the objective at its position. *)
Definition run_invariant (obj_fun : pso_obj_fun_t) (s : pso_settings_t)
    (g0 : list float) (st : swarm) : Prop :=
  (size (settings st) = size s /\ dim (settings st) = dim s)
  /\ (length (pos st) = Z.to_nat (size s)
      /\ length (pos_b st) = Z.to_nat (size s)
      /\ length (fit_b st) = Z.to_nat (size s))
  /\ (forall j, 0 <= j < size s ->
        length (get [] (pos st) j) = Z.to_nat (dim s)
        /\ length (get [] (pos_b st) j) = Z.to_nat (dim s))
  /\ (forall j, 0 <= j < size s ->
        get 0%float (fit_b st) j = obj_fun (get [] (pos_b st) j) (dim s))
  /\ (forall j, 0 <= j < size s ->
        (get 0%float (fit_b st) j <? error (solution st))%float = false)
  /\ (length g0 = Z.to_nat (dim s) ->
      length (gbest (solution st)) = Z.to_nat (dim s)
      /\ (solution st = mk_result DBL_MAX g0
          \/ error (solution st) = obj_fun (gbest (solution st)) (dim s))).

(** On a ring of [n] particles, [j] is [i], its successor or its
    predecessor. *)
Definition ring_neighbour (n i j : Z) : bool :=
  (j =? i) || (j =? (i + 1) mod n) || (j =? (i - 1) mod n).

(** The calls of [rand()] so far are two for every dimension of every
    evaluation of the objective, and [nhood_size] for every particle each
    time the random graph was built: once at the start under the random
    topology, and once for every rewiring. *)
Definition draws_accounted (s : pso_settings_t) (st : swarm) : Prop :=
  Z.of_nat (rng st)
  = 2 * Z.max 0 (dim s) * evaluations (trace st)
    + Z.max 0 (nhood_size s) * Z.max 0 (size s)
      * ((if nhood_strategy s =? PSO_NHOOD_RANDOM then 1 else 0)
         + Z.of_nat (length (rewires (trace st)))).

(** Whether [j] is one of the neighbours drawn for particle [i] when the
    graph is built with the calls of [rand()] from call number [r] on:
    particle [i] takes the [nhood_size] calls that follow those of the
    particles before it, each reduced modulo [size]. *)
Definition drawn (L : libc) (s : pso_settings_t) (r : nat) (i j : Z) : bool :=
  existsb
    (fun t =>
       Z.rem (rand_seq L (r + Z.to_nat i * Z.to_nat (nhood_size s) + t)%nat)
         (size s) =? j)
    (seq 0 (Z.to_nat (nhood_size s))).

(** [comm] is the graph built from nothing with the calls of [rand()] from
    number [r] on: [size * size] cells, and [comm[i*size + j]] is 1 when [j]
    is [i] or was drawn for [i], and 0 otherwise. *)
Definition random_graph (L : libc) (s : pso_settings_t) (r : nat)
    (comm : list Z) : Prop :=
  length comm = Z.to_nat (size s * size s)
  /\ forall i j, 0 <= i < size s -> 0 <= j < size s ->
       get 0 comm (i * size s + j)
       = if (j =? i) || drawn L s r i j then 1 else 0.

(** * Properties *)

(** ** The order of doubles *)

Module FloatOrder.

Local Open Scope float_scope.

Lemma SFcompare_lt_trans (x y z : spec_float) :
  SFcompare x y = Some Lt -> SFcompare y z = Some Lt -> SFcompare x z = Some Lt.
Proof.
  destruct x as [sx|sx| |sx mx ex], y as [sy|sy| |sy my ey],
    z as [sz|sz| |sz mz ez]; simpl;
    repeat match goal with s : bool |- _ => destruct s end;
    try congruence; intros H1 H2;
    destruct (Z.compare_spec ex ey), (Z.compare_spec ey ez),
      (Z.compare_spec ex ez); try congruence; try lia; subst;
    change (Pos.compare_cont Eq) with Pos.compare in *;
    destruct (Pos.compare_spec mx my), (Pos.compare_spec my mz),
      (Pos.compare_spec mx mz); simpl in *; try congruence; lia.
Qed.

Lemma SFcompare_eq_lt_trans (x y z : spec_float) :
  SFcompare x y = Some Eq -> SFcompare y z = Some Lt -> SFcompare x z = Some Lt.
Proof.
  destruct x as [sx|sx| |sx mx ex], y as [sy|sy| |sy my ey],
    z as [sz|sz| |sz mz ez]; simpl;
    repeat match goal with s : bool |- _ => destruct s end;
    try congruence; intros H1 H2;
    destruct (Z.compare_spec ex ey), (Z.compare_spec ey ez),
      (Z.compare_spec ex ez); try congruence; try lia; subst;
    change (Pos.compare_cont Eq) with Pos.compare in *;
    destruct (Pos.compare_spec mx my), (Pos.compare_spec my mz),
      (Pos.compare_spec mx mz); simpl in *; try congruence; lia.
Qed.

Lemma SFcompare_lt_irrefl (x : spec_float) : SFcompare x x <> Some Lt.
Proof.
  destruct x as [s|s| |s m e]; simpl; try destruct s; try congruence;
    rewrite Z.compare_refl; change (Pos.compare_cont Eq) with Pos.compare;
    rewrite Pos.compare_refl; simpl; congruence.
Qed.

Lemma ltb_Lt (x y : float) :
  (x <? y) = true <-> SFcompare (Prim2SF x) (Prim2SF y) = Some Lt.
Proof.
  rewrite FloatAxioms.ltb_spec. unfold SFltb.
  destruct (SFcompare (Prim2SF x) (Prim2SF y)) as [[ | | ]|];
    split; congruence.
Qed.

Lemma eqb_Eq (x y : float) :
  (x =? y) = true <-> SFcompare (Prim2SF x) (Prim2SF y) = Some Eq.
Proof.
  rewrite FloatAxioms.eqb_spec. unfold SFeqb.
  destruct (SFcompare (Prim2SF x) (Prim2SF y)) as [[ | | ]|];
    split; congruence.
Qed.

Lemma ltb_trans (x y z : float) :
  (x <? y) = true -> (y <? z) = true -> (x <? z) = true.
Proof. rewrite !ltb_Lt. apply SFcompare_lt_trans. Qed.

Lemma eqb_ltb_trans (x y z : float) :
  (x =? y) = true -> (y <? z) = true -> (x <? z) = true.
Proof. rewrite eqb_Eq, !ltb_Lt. apply SFcompare_eq_lt_trans. Qed.

Lemma ltb_irrefl (x : float) : (x <? x) = false.
Proof.
  destruct (x <? x) eqn:E; [|reflexivity].
  apply ltb_Lt in E. now apply SFcompare_lt_irrefl in E.
Qed.

Lemma ltb_leb (x y : float) : (x <? y) = true -> (x <=? y) = true.
Proof.
  rewrite ltb_Lt, FloatAxioms.leb_spec. unfold SFleb. now intros ->.
Qed.

Lemma ltb_asym (x y : float) : (x <? y) = true -> (y <? x) = false.
Proof.
  intros H. destruct (y <? x) eqn:E; [|reflexivity].
  pose proof (ltb_trans _ _ _ H E) as C. now rewrite ltb_irrefl in C.
Qed.

(** A NaN is on neither side of a true [<]. *)
Lemma ltb_not_nan (x y : float) :
  (x <? y) = true -> is_nan x = false /\ is_nan y = false.
Proof.
  unfold is_nan. rewrite ltb_Lt, !FloatAxioms.eqb_spec. unfold SFeqb.
  destruct (Prim2SF x) as [sx|sx| |sx mx ex], (Prim2SF y) as [sy|sy| |sy my ey];
    simpl; repeat match goal with s : bool |- _ => destruct s end;
    try congruence; intros _;
    rewrite ?Z.compare_refl; change (Pos.compare_cont Eq) with Pos.compare;
    rewrite ?Pos.compare_refl; auto.
Qed.

Lemma is_nan_ltb_l (x y : float) : is_nan x = true -> (x <? y) = false.
Proof.
  intros H. destruct (x <? y) eqn:E; [|reflexivity].
  apply ltb_not_nan in E. destruct E; congruence.
Qed.

Lemma is_nan_ltb_r (x y : float) : is_nan y = true -> (x <? y) = false.
Proof.
  intros H. destruct (x <? y) eqn:E; [|reflexivity].
  apply ltb_not_nan in E. destruct E; congruence.
Qed.

(** Nothing is above [+infinity]. *)
Lemma infinity_ltb (y : float) : (infinity <? y) = false.
Proof.
  rewrite FloatAxioms.ltb_spec. unfold SFltb.
  change (Prim2SF infinity) with (S754_infinity false).
  destruct (Prim2SF y) as [s|s| |s m e]; simpl; try destruct s; reflexivity.
Qed.

(** Without NaN the order is total. *)
Lemma not_ltb_leb (x y : float) :
  is_nan x = false -> is_nan y = false -> (x <? y) = false -> (y <=? x) = true.
Proof.
  unfold is_nan. rewrite FloatAxioms.ltb_spec, FloatAxioms.leb_spec, !FloatAxioms.eqb_spec.
  unfold SFltb, SFleb, SFeqb.
  destruct (Prim2SF x) as [sx|sx| |sx mx ex], (Prim2SF y) as [sy|sy| |sy my ey];
    simpl; repeat match goal with s : bool |- _ => destruct s end;
    try congruence; auto; intros _ _;
    rewrite (Z.compare_antisym ex ey);
    change (Pos.compare_cont Eq) with Pos.compare;
    rewrite (Pos.compare_antisym mx my);
    destruct (ex ?= ey)%Z; simpl; try congruence;
    destruct (mx ?= my)%positive; simpl; congruence.
Qed.

Lemma leb_not_nan (x y : float) :
  (x <=? y) = true -> is_nan x = false /\ is_nan y = false.
Proof.
  unfold is_nan. rewrite FloatAxioms.leb_spec, !FloatAxioms.eqb_spec.
  unfold SFleb, SFeqb.
  destruct (Prim2SF x) as [sx|sx| |sx mx ex], (Prim2SF y) as [sy|sy| |sy my ey];
    simpl; repeat match goal with s : bool |- _ => destruct s end;
    try congruence; intros _;
    rewrite ?Z.compare_refl; change (Pos.compare_cont Eq) with Pos.compare;
    rewrite ?Pos.compare_refl; auto.
Qed.

Lemma leb_refl (x : float) : is_nan x = false -> (x <=? x) = true.
Proof.
  intros H. apply not_ltb_leb; auto using ltb_irrefl.
Qed.

End FloatOrder.

(** ** Arrays and loops *)

Section ArrayFacts.
Context {A : Type}.

Lemma length_upd_nat (a : list A) (n : nat) (v : A) :
  length (upd_nat a n v) = length a.
Proof.
  revert n; induction a as [|h t IH]; intros [|n]; simpl; auto.
Qed.

Lemma length_upd (a : list A) (i : Z) (v : A) : length (upd a i v) = length a.
Proof. unfold upd. destruct (i <? 0); auto using length_upd_nat. Qed.

Lemma nth_upd_nat_same (d : A) (a : list A) (n : nat) (v : A) :
  (n < length a)%nat -> nth n (upd_nat a n v) d = v.
Proof.
  revert n; induction a as [|h t IH]; intros [|n]; simpl; intros H;
    try lia; auto. apply IH. lia.
Qed.

Lemma nth_upd_nat_other (d : A) (a : list A) (n m : nat) (v : A) :
  n <> m -> nth m (upd_nat a n v) d = nth m a d.
Proof.
  revert n m; induction a as [|h t IH]; intros [|n] [|m]; simpl; intros H;
    try congruence; auto.
Qed.

Lemma get_upd_same (d : A) (a : list A) (i : Z) (v : A) :
  0 <= i < Z.of_nat (length a) -> get d (upd a i v) i = v.
Proof.
  intros H. unfold get, upd. destruct (i <? 0) eqn:E; [lia|].
  apply nth_upd_nat_same. lia.
Qed.

Lemma get_upd_other (d : A) (a : list A) (i j : Z) (v : A) :
  i <> j -> get d (upd a i v) j = get d a j.
Proof.
  intros H. unfold get, upd.
  destruct (j <? 0) eqn:Ej; [reflexivity|].
  destruct (i <? 0) eqn:Ei; [reflexivity|].
  apply nth_upd_nat_other. lia.
Qed.

(** A loop invariant that may mention the counter. *)
Lemma for_loop_ind {St : Type} (P : Z -> St -> Prop) (n : Z) (body : Z -> St -> St)
    (s : St) :
  0 <= n -> P 0 s ->
  (forall i s, 0 <= i < n -> P i s -> P (i + 1) (body i s)) ->
  P n (for_loop n body s).
Proof.
  intros Hn H0 Hstep. unfold for_loop.
  assert (G : forall len a s,
             (Z.of_nat (a + len) <= n) -> P (Z.of_nat a) s ->
             P (Z.of_nat (a + len))
               (fold_left (fun s i => body (Z.of_nat i) s) (seq a len) s)).
  { induction len as [|len IH]; intros a s0 Hle Hs; simpl.
    - now rewrite Nat.add_0_r.
    - replace (a + S len)%nat with (S a + len)%nat in * by lia.
      apply IH; [lia|].
      replace (Z.of_nat (S a)) with (Z.of_nat a + 1) by lia.
      apply Hstep; [lia|assumption]. }
  specialize (G (Z.to_nat n) 0%nat s).
  simpl in G. rewrite Z2Nat.id in G by lia. apply G; [lia|assumption].
Qed.

(** A loop invariant that does not. *)
Lemma for_loop_inv {St : Type} (P : St -> Prop) (n : Z) (body : Z -> St -> St)
    (s : St) :
  P s -> (forall i s, 0 <= i < n -> P s -> P (body i s)) ->
  P (for_loop n body s).
Proof.
  intros H0 Hstep. destruct (Z.le_gt_cases 0 n) as [Hn|Hn].
  - apply (for_loop_ind (fun _ => P)); auto.
  - unfold for_loop. replace (Z.to_nat n) with 0%nat by lia. exact H0.
Qed.

(** A loop keeps what each pass keeps. *)
Lemma for_loop_proj {St B : Type} (f : St -> B) (n : Z) (body : Z -> St -> St)
    (s : St) :
  (forall i s, f (body i s) = f s) -> f (for_loop n body s) = f s.
Proof.
  intros H. apply (for_loop_inv (fun s' => f s' = f s)); [reflexivity|].
  intros i s' _ E. now rewrite H.
Qed.

End ArrayFacts.

(** ** What each part of the solver leaves alone *)

Ltac open_body :=
  unfold init_dim, move_dim, bound_dim, advance_dim, RNG_UNIFORM,
    RNG_UNIFORM_INT, rand; cbn;
  repeat match goal with
         | |- context [if ?b then _ else _] => destruct b
         end; cbn; try reflexivity.

Section Frames.
Variable L : libc.
Variable obj_fun : pso_obj_fun_t.

Lemma init_dim_settings i d st : settings (init_dim L i d st) = settings st.
Proof. open_body. Qed.

Lemma init_dim_solution i d st : solution (init_dim L i d st) = solution st.
Proof. open_body. Qed.

Lemma init_dim_trace i d st : trace (init_dim L i d st) = trace st.
Proof. open_body. Qed.

Lemma move_dim_settings i d st : settings (move_dim L i d st) = settings st.
Proof. open_body. Qed.

Lemma move_dim_solution i d st : solution (move_dim L i d st) = solution st.
Proof. open_body. Qed.

Lemma move_dim_trace i d st : trace (move_dim L i d st) = trace st.
Proof. open_body. Qed.

Lemma move_dim_improved i d st : improved (move_dim L i d st) = improved st.
Proof. open_body. Qed.

Lemma move_dim_fit_b i d st : fit_b (move_dim L i d st) = fit_b st.
Proof. open_body. Qed.

Lemma move_dim_pos_b i d st : pos_b (move_dim L i d st) = pos_b st.
Proof. open_body. Qed.

Lemma init_dim_improved i d st : improved (init_dim L i d st) = improved st.
Proof. open_body. Qed.

Lemma move_dim_comm i d st : comm (move_dim L i d st) = comm st.
Proof. open_body. Qed.

Lemma init_particle_improved i st :
  improved (init_particle L obj_fun i st) = improved st.
Proof.
  unfold init_particle. cbn.
  match goal with |- context [if ?b then _ else _] => destruct b end; cbn;
    apply for_loop_proj; intros; apply init_dim_improved.
Qed.

Lemma update_particle_comm i st :
  comm (update_particle L obj_fun i st) = comm st.
Proof.
  unfold update_particle, evaluate_particle. cbn.
  repeat match goal with |- context [if ?b then _ else _] => destruct b end;
    cbn; apply for_loop_proj; intros; apply move_dim_comm.
Qed.

Lemma init_particle_settings i st :
  settings (init_particle L obj_fun i st) = settings st.
Proof.
  unfold init_particle. cbn.
  match goal with |- context [if ?b then _ else _] => destruct b end; cbn;
    apply for_loop_proj; intros; apply init_dim_settings.
Qed.

Lemma evaluate_particle_settings i st :
  settings (evaluate_particle obj_fun i st) = settings st.
Proof.
  unfold evaluate_particle. cbn.
  repeat match goal with |- context [if ?b then _ else _] => destruct b end;
    reflexivity.
Qed.

Lemma update_particle_settings i st :
  settings (update_particle L obj_fun i st) = settings st.
Proof.
  unfold update_particle. rewrite evaluate_particle_settings.
  apply for_loop_proj; intros; apply move_dim_settings.
Qed.

Lemma inform_global_settings st : settings (inform_global st) = settings st.
Proof. unfold inform_global. now apply for_loop_proj. Qed.

Lemma inform_global_solution st : solution (inform_global st) = solution st.
Proof. unfold inform_global. now apply for_loop_proj. Qed.

Lemma inform_global_trace st : trace (inform_global st) = trace st.
Proof. unfold inform_global. now apply for_loop_proj. Qed.

Lemma init_comm_random_settings st :
  settings (init_comm_random L st) = settings st.
Proof.
  unfold init_comm_random.
  rewrite for_loop_proj; [reflexivity|]. intros i s.
  rewrite for_loop_proj; [reflexivity|]. intros; open_body.
Qed.

Lemma init_comm_random_solution st :
  solution (init_comm_random L st) = solution st.
Proof.
  unfold init_comm_random.
  rewrite for_loop_proj; [reflexivity|]. intros i s.
  rewrite for_loop_proj; [reflexivity|]. intros; open_body.
Qed.

Lemma init_comm_random_trace st : trace (init_comm_random L st) = trace st.
Proof.
  unfold init_comm_random.
  rewrite for_loop_proj; [reflexivity|]. intros i s.
  rewrite for_loop_proj; [reflexivity|]. intros; open_body.
Qed.

Lemma init_comm_random_improved st :
  improved (init_comm_random L st) = improved st.
Proof.
  unfold init_comm_random.
  rewrite for_loop_proj; [reflexivity|]. intros i s.
  rewrite for_loop_proj; [reflexivity|]. intros; open_body.
Qed.

Lemma inform_random_settings st : settings (inform_random L st) = settings st.
Proof.
  unfold inform_random. destruct (negb (truthy (improved st))); cbn;
    auto using init_comm_random_settings.
Qed.

Lemma inform_random_solution st : solution (inform_random L st) = solution st.
Proof.
  unfold inform_random. destruct (negb (truthy (improved st))); cbn;
    auto using init_comm_random_solution.
Qed.

Lemma init_comm_random_pos st : pos (init_comm_random L st) = pos st.
Proof.
  unfold init_comm_random.
  rewrite for_loop_proj; [reflexivity|]. intros i s.
  rewrite for_loop_proj; [reflexivity|]. intros; open_body.
Qed.

Lemma init_comm_random_fit st : fit (init_comm_random L st) = fit st.
Proof.
  unfold init_comm_random.
  rewrite for_loop_proj; [reflexivity|]. intros i s.
  rewrite for_loop_proj; [reflexivity|]. intros; open_body.
Qed.

Lemma select_inform_arrays st :
  pos (fst (select_inform L st)) = pos st
  /\ fit (fst (select_inform L st)) = fit st.
Proof.
  unfold select_inform.
  repeat match goal with |- context [if ?b then _ else _] => destruct b end;
    cbn; auto using init_comm_random_pos, init_comm_random_fit.
Qed.

(** The strategy [select_inform] picks is one of the three of the source. *)
Lemma select_inform_cases st :
  let (st', f) := select_inform L st in
  settings st' = settings st /\ solution st' = solution st /\
  trace st' = trace st /\ improved st' = improved st /\
  (f = inform_global \/ f = inform_ring \/ f = inform_random L).
Proof.
  unfold select_inform.
  repeat match goal with |- context [if ?b then _ else _] => destruct b end;
    cbn; auto 10 using init_comm_random_settings, init_comm_random_solution,
           init_comm_random_trace, init_comm_random_improved.
Qed.

End Frames.

(** ** The settings object *)

Section SettingsFrame.
Variable L : libc.
Variable obj_fun : pso_obj_fun_t.

Lemma set_step_same s : set_step (step s) s = s.
Proof. now destruct s. Qed.

Lemma set_step_set_step j k s : set_step k (set_step j s) = set_step k s.
Proof. reflexivity. Qed.

Lemma loop_body_settings f c k st :
  keeps_settings f ->
  settings (fst (loop_body L obj_fun f c k st)) = set_step k (settings st).
Proof.
  intros Hf. unfold loop_body.
  destruct c as [g|]; cbn;
    match goal with |- context [if ?b then _ else _] => destruct b end; cbn;
    try reflexivity;
    (rewrite for_loop_proj by (intros; apply update_particle_settings));
    cbn; now rewrite Hf.
Qed.

Lemma main_loop_settings f c n k st :
  keeps_settings f ->
  exists k', settings (main_loop L obj_fun f c n k st) = set_step k' (settings st)
             /\ (if (0 <? Z.of_nat n) then k <= k' < k + Z.of_nat n
                 else k' = step (settings st)).
Proof.
  intros Hf. revert k st. induction n as [|n IH]; intros k st.
  - exists (step (settings st)). cbn. now rewrite set_step_same.
  - cbn [main_loop].
    pose proof (loop_body_settings f c k st Hf) as Hb.
    destruct (loop_body L obj_fun f c k st) as [st' go]. cbn in Hb.
    replace (0 <? Z.of_nat (S n)) with true by (symmetry; apply Z.ltb_lt; lia).
    destruct go.
    + destruct (IH (k + 1) st') as [k' [E R]].
      rewrite Hb, set_step_set_step in E.
      destruct (0 <? Z.of_nat n) eqn:En.
      * exists k'. split; [exact E|lia].
      * exists k. split; [|lia].
        rewrite E, R, Hb. reflexivity.
    + exists k. split; [exact Hb|lia].
Qed.

Lemma pso_init_settings sol s :
  settings (fst (pso_init L obj_fun sol s)) = s
  /\ keeps_settings (snd (pso_init L obj_fun sol s)).
Proof.
  unfold pso_init, pso_setup.
  pose proof (select_inform_cases L (pso_alloc sol s)) as H.
  destruct (select_inform L (pso_alloc sol s)) as [st f].
  destruct H as (Hs & _ & _ & _ & Hf). cbn. split.
  - rewrite for_loop_proj by (intros; apply init_particle_settings).
    cbn. exact Hs.
  - destruct Hf as [-> | [-> | ->]]; intros st'.
    + apply inform_global_settings.
    + reflexivity.
    + apply inform_random_settings.
Qed.

End SettingsFrame.

(** C9, as stated, fails: with the caller's [step] at 7, the three-step run
    of [settings_demo] returns the settings with 2 in [step]. *)
Lemma pso_solve_writes_step :
  snd (pso_solve libc_lcg sphere result_demo settings_demo) <> settings_demo
  /\ step settings_demo = 7
  /\ step (snd (pso_solve libc_lcg sphere result_demo settings_demo)) = 2.
Proof.
  split; [|split; now vm_compute].
  intros H. apply (f_equal step) in H. vm_compute in H. discriminate.
Qed.

(** ** The linearly decreasing inertia *)

Lemma is_nan_Prim2SF (x : float) : Prim2SF x = S754_nan -> is_nan x = true.
Proof.
  intros H. unfold is_nan. rewrite FloatAxioms.eqb_spec, H. reflexivity.
Qed.

(** [a + x * 0 / 0] is NaN whatever [a] and [x] are. *)
Lemma zero_over_zero_nan (a x : float) : is_nan (a + x * 0 / 0)%float = true.
Proof.
  apply is_nan_Prim2SF.
  rewrite FloatAxioms.add_spec, FloatAxioms.div_spec, FloatAxioms.mul_spec.
  change (Prim2SF 0) with (S754_zero false).
  destruct (Prim2SF x) as [sx|sx| |sx mx ex]; cbn;
    destruct (Prim2SF a) as [sa|sa| |sa ma ea]; reflexivity.
Qed.

(** Past the decay stage the inertia is [w_min]. *)
Lemma calc_inertia_lin_dec_after (k : Z) (s : pso_settings_t) :
  Z.quot (3 * steps s) 4 < k -> calc_inertia_lin_dec k s = w_min s.
Proof.
  intros H. unfold calc_inertia_lin_dec.
  now replace (k <=? _) with false by (symmetry; apply Z.leb_gt; lia).
Qed.

(** Up to the decay stage it is the interpolation between [w_max] and
    [w_min], with a division of doubles by [dec_stage]. *)
Lemma calc_inertia_lin_dec_before (k : Z) (s : pso_settings_t) :
  k <= Z.quot (3 * steps s) 4 ->
  calc_inertia_lin_dec k s
  = (w_min s
     + (w_max s - w_min s) * double_of_int (Z.quot (3 * steps s) 4 - k)
       / double_of_int (Z.quot (3 * steps s) 4))%float.
Proof.
  intros H. unfold calc_inertia_lin_dec.
  now replace (k <=? _) with true by (symmetry; apply Z.leb_le; lia).
Qed.

(** C3, the defect: with a budget of at most one step [dec_stage] is 0 and
    the inertia of step 0 is [0/0], a NaN, not [w_min]. *)
Theorem calc_inertia_lin_dec_zero_stage (s : pso_settings_t) :
  0 <= steps s <= 1 -> is_nan (calc_inertia_lin_dec 0 s) = true.
Proof.
  intros H. unfold calc_inertia_lin_dec.
  assert (E : Z.quot (3 * steps s) 4 = 0).
  { assert (C : steps s = 0 \/ steps s = 1) by lia.
    destruct C as [-> | ->]; reflexivity. }
  rewrite E. cbn. apply zero_over_zero_nan.
Qed.

Lemma calc_inertia_lin_dec_zero_stage_witness :
  0 <= steps settings_one_step <= 1
  /\ is_nan (calc_inertia_lin_dec 0 settings_one_step) = true.
Proof.
  split; [cbn; lia|].
  apply (calc_inertia_lin_dec_zero_stage settings_one_step). cbn; lia.
Defined.

(** ** Fitness values that are not numbers *)

(** C7, as stated, fails for minus infinity: in step 0 of the run of
    [settings_cliff] the objective returns minus infinity at the new position
    of particle 0, and both bests are replaced by it. *)
Lemma neg_infinity_improves :
  ~ spec_anomaly_never_improves libc_half cliff
  /\ pso_run libc_half cliff result_demo settings_cliff
     = update_particle libc_half cliff 0 swarm_cliff
  /\ error (solution swarm_cliff) = 1%float
  /\ error (solution (update_particle libc_half cliff 0 swarm_cliff))
     = neg_infinity.
Proof.
  split; [|now vm_compute].
  intros H. specialize (H 0 swarm_cliff). cbv zeta in H.
  assert (E : fit_b (update_particle libc_half cliff 0 swarm_cliff)
              = fit_b swarm_cliff) by (apply H; now vm_compute).
  vm_compute in E. discriminate.
Qed.

(** C7, amended: a fitness that is NaN or plus infinity changes neither the
    personal best of the particle nor the global best, and does not set
    [improved]. *)
Theorem update_particle_nan_or_infinity (L : libc) (obj_fun : pso_obj_fun_t)
    (i : Z) (st : swarm) :
  let moved := for_loop (dim (settings st)) (move_dim L i) st in
  let f := obj_fun (get [] (pos moved) i) (dim (settings st)) in
  is_nan f = true \/ f = infinity ->
  let st' := update_particle L obj_fun i st in
  fit_b st' = fit_b st /\ pos_b st' = pos_b st /\ solution st' = solution st
  /\ improved st' = improved st.
Proof.
  intros moved f Hf st'. subst st'. unfold update_particle. fold moved.
  assert (Es : settings moved = settings st)
    by (apply for_loop_proj; intros; apply move_dim_settings).
  assert (Hlt : forall y, (f <? y)%float = false).
  { intros y. destruct Hf as [Hf | Hf].
    - now apply FloatOrder.is_nan_ltb_l.
    - rewrite Hf. apply FloatOrder.infinity_ltb. }
  unfold evaluate_particle. rewrite Es. fold f. cbn. rewrite !Hlt. cbn.
  repeat split; apply for_loop_proj; intros;
    auto using move_dim_fit_b, move_dim_pos_b, move_dim_solution,
      move_dim_improved.
Qed.

Lemma update_particle_nan_or_infinity_witness :
  (is_nan (nan_everywhere [] 1) = true \/ nan_everywhere [] 1 = infinity)
  /\ fit_b (update_particle libc_half nan_everywhere 0 swarm_cliff)
     = fit_b swarm_cliff
  /\ solution (update_particle libc_half nan_everywhere 0 swarm_cliff)
     = solution swarm_cliff.
Proof.
  split; [left; reflexivity|].
  destruct (update_particle_nan_or_infinity libc_half nan_everywhere 0
              swarm_cliff) as (H1 & _ & H3 & _).
  - left. reflexivity.
  - split; assumption.
Defined.

(** ** An invariant principle for the result and the trace *)

Section RunInvariant.
Variable P : pso_result_t -> list event -> Prop.
Hypothesis P_rewired : forall sol tr k, P sol tr -> P sol (Rewired k :: tr).
Hypothesis P_evaluated : forall sol tr i f,
  P sol tr -> (f <? error sol)%float = false -> P sol (Evaluated i f :: tr).
Hypothesis P_improved : forall sol tr i f g,
  P sol tr -> (f <? error sol)%float = true ->
  P (mk_result f g) (Improved f :: Evaluated i f :: tr).
Variable L : libc.
Variable obj_fun : pso_obj_fun_t.

Local Abbreviation Pst st := (P (solution st) (trace st)).

Lemma Pst_frame st st' :
  solution st' = solution st -> trace st' = trace st -> Pst st -> Pst st'.
Proof. now intros -> ->. Qed.

Lemma init_particle_Pst i st : Pst st -> Pst (init_particle L obj_fun i st).
Proof.
  intros H. unfold init_particle.
  set (st1 := for_loop (dim (settings st)) (init_dim L i) st).
  assert (H1 : Pst st1).
  { apply (Pst_frame st); auto; apply for_loop_proj; intros;
      auto using init_dim_solution, init_dim_trace. }
  cbn. destruct (_ <? _)%float eqn:E; cbn.
  - eapply P_improved; [exact H1|exact E].
  - eapply P_evaluated; [exact H1|exact E].
Qed.

Lemma evaluate_particle_Pst i st :
  Pst st -> Pst (evaluate_particle obj_fun i st).
Proof.
  intros H. unfold evaluate_particle. cbn.
  destruct (_ <? get _ _ _)%float; cbn;
    (destruct (_ <? error _)%float eqn:E; cbn;
     [eapply P_improved; [exact H|exact E]
     |eapply P_evaluated; [exact H|exact E]]).
Qed.

Lemma update_particle_Pst i st :
  Pst st -> Pst (update_particle L obj_fun i st).
Proof.
  intros H. unfold update_particle. apply evaluate_particle_Pst.
  apply (Pst_frame st); auto; apply for_loop_proj; intros;
    auto using move_dim_solution, move_dim_trace.
Qed.

Lemma inform_random_Pst st : Pst st -> Pst (inform_random L st).
Proof.
  intros H. unfold inform_random.
  destruct (negb (truthy (improved st))); cbn; auto.
  rewrite init_comm_random_solution, init_comm_random_trace.
  now apply P_rewired.
Qed.

Local Abbreviation keeps_Pst f := (forall st, Pst st -> Pst (f st)).

Lemma loop_body_Pst f c k st :
  keeps_Pst f -> Pst st -> Pst (fst (loop_body L obj_fun f c k st)).
Proof.
  intros Hf H. unfold loop_body.
  set (st1 := set_settings (set_step k (settings st)) st).
  set (st2 := match c with Some g => set_w (g k (settings st1)) st1
                         | None => st1 end).
  assert (H2 : Pst st2) by (subst st2 st1; destruct c; exact H).
  destruct (_ <=? _)%float; cbn [fst]; [exact H2|].
  apply (for_loop_inv (fun s => Pst s));
    [|intros; now apply update_particle_Pst].
  cbn. now apply Hf.
Qed.

Lemma main_loop_Pst f c n k st :
  keeps_Pst f -> Pst st -> Pst (main_loop L obj_fun f c n k st).
Proof.
  intros Hf. revert k st. induction n as [|n IH]; intros k st H; cbn; auto.
  pose proof (loop_body_Pst f c k st Hf H) as Hb.
  destruct (loop_body L obj_fun f c k st) as [st' go]. cbn in Hb.
  destruct go; auto.
Qed.

Lemma loop_head_Pst f c st0 k st :
  keeps_Pst f -> Pst st0 -> loop_head L obj_fun f c st0 k = Some st -> Pst st.
Proof.
  intros Hf H0. revert st. induction k as [|k IH]; intros st; cbn.
  - now intros [= <-].
  - destruct (loop_head L obj_fun f c st0 k) as [s1|]; [|discriminate].
    destruct (_ <? _); [|discriminate].
    pose proof (loop_body_Pst f c (Z.of_nat k) s1 Hf (IH _ eq_refl)) as Hb.
    destruct (loop_body L obj_fun f c (Z.of_nat k) s1) as [st' go].
    destruct go; [|discriminate]. now intros [= <-].
Qed.

Lemma pso_init_state_Pst sol s :
  P (mk_result DBL_MAX (gbest sol)) [] -> Pst (fst (pso_init L obj_fun sol s)).
Proof.
  intros H0. unfold pso_init, pso_setup.
  pose proof (select_inform_cases L (pso_alloc sol s)) as H.
  destruct (select_inform L (pso_alloc sol s)) as [st f].
  destruct H as (_ & Hsol & Htr & _ & Hf). cbn.
  apply (for_loop_inv (fun s => Pst s)); [|intros; now apply init_particle_Pst].
  cbn. now rewrite Hsol, Htr.
Qed.

Lemma pso_init_keeps_Pst sol s : keeps_Pst (snd (pso_init L obj_fun sol s)).
Proof.
  unfold pso_init, pso_setup.
  pose proof (select_inform_cases L (pso_alloc sol s)) as H.
  destruct (select_inform L (pso_alloc sol s)) as [st f].
  destruct H as (_ & _ & _ & _ & Hf). cbn.
  destruct Hf as [-> | [-> | ->]]; intros st' H'.
  - apply (Pst_frame st'); auto using inform_global_solution,
      inform_global_trace.
  - exact H'.
  - now apply inform_random_Pst.
Qed.

Lemma pso_run_invariant sol s :
  P (mk_result DBL_MAX (gbest sol)) [] ->
  P (solution (pso_run L obj_fun sol s)) (trace (pso_run L obj_fun sol s)).
Proof.
  intros H0. unfold pso_run.
  pose proof (pso_init_state_Pst sol s H0) as Hi.
  pose proof (pso_init_keeps_Pst sol s) as Hf.
  destruct (pso_init L obj_fun sol s) as [st f]. cbn in Hi, Hf.
  now apply main_loop_Pst.
Qed.

End RunInvariant.

(** ** The best error over a run *)

Lemma StronglySorted_snoc {A : Type} (R : A -> A -> Prop) (l : list A) (x : A) :
  StronglySorted R l -> Forall (fun a => R a x) l -> StronglySorted R (l ++ [x]).
Proof.
  induction 1 as [|a l Hs IH Ha]; intros Hx; cbn.
  - repeat constructor.
  - inversion Hx; subst. constructor; [now apply IH|].
    apply Forall_app. split; [assumption|now constructor].
Qed.

Lemma StronglySorted_rev {A : Type} (R : A -> A -> Prop) (l : list A) :
  StronglySorted (fun a b => R b a) l -> StronglySorted R (rev l).
Proof.
  induction 1 as [|a l Hs IH Ha]; cbn; [constructor|].
  apply StronglySorted_snoc; [assumption|].
  now apply Forall_rev.
Qed.

Lemma StronglySorted_weaken {A : Type} (R R' : A -> A -> Prop) (l : list A) :
  (forall a b, R a b -> R' a b) -> StronglySorted R l -> StronglySorted R' l.
Proof.
  intros HR. induction 1 as [|a l Hs IH Ha]; constructor; auto.
  eapply Forall_impl; [|exact Ha]. auto.
Qed.

Lemma rev_cons_last {A : Type} (d x : A) (l : list A) :
  last (rev (x :: l)) d = x.
Proof. cbn. apply last_last. Qed.

(** The invariant: newest first, the recorded values start with the current
    error and increase strictly toward [DBL_MAX]. *)
Lemma pso_run_errors (L : libc) (obj_fun : pso_obj_fun_t) (sol : pso_result_t)
    (s : pso_settings_t) :
  let st := pso_run L obj_fun sol s in
  hd DBL_MAX (errors (trace st) ++ [DBL_MAX]) = error (solution st)
  /\ StronglySorted (fun a b => (a <? b)%float = true)
       (errors (trace st) ++ [DBL_MAX]).
Proof.
  cbv zeta.
  apply (pso_run_invariant
           (fun sol tr =>
              hd DBL_MAX (errors tr ++ [DBL_MAX]) = error sol
              /\ StronglySorted (fun a b => (a <? b)%float = true)
                   (errors tr ++ [DBL_MAX]))); cbn.
  - auto.
  - auto.
  - intros sol0 tr i f g [Hhd Hs] Hlt. split; [reflexivity|].
    constructor; [exact Hs|].
    destruct (errors tr ++ [DBL_MAX]) as [|e l] eqn:E;
      [destruct (errors tr); discriminate|].
    cbn in Hhd. subst e. inversion Hs as [|? ? Hs' Hall]; subst.
    constructor; [exact Hlt|].
    eapply Forall_impl; [|exact Hall].
    intros b Hb. eapply FloatOrder.ltb_trans; eassumption.
  - split; [reflexivity|]. repeat constructor.
Qed.

(** C1: the values [solution->error] takes, from [DBL_MAX] on, end with the
    returned error; every later value is strictly below every earlier one,
    so the sequence is non-increasing. *)
Theorem pso_solve_error_monotone (L : libc) (obj_fun : pso_obj_fun_t)
    (sol : pso_result_t) (s : pso_settings_t) :
  let h := error_history (trace (pso_run L obj_fun sol s)) in
  last h DBL_MAX = error (fst (pso_solve L obj_fun sol s))
  /\ StronglySorted (fun earlier later => (later <? earlier)%float = true) h
  /\ StronglySorted (fun earlier later => (later <=? earlier)%float = true) h.
Proof.
  cbv zeta. unfold pso_solve. cbn [fst].
  destruct (pso_run_errors L obj_fun sol s) as [Hhd Hs].
  set (st := pso_run L obj_fun sol s) in *.
  assert (E : error_history (trace st) = rev (errors (trace st) ++ [DBL_MAX])).
  { unfold error_history. now rewrite rev_app_distr. }
  assert (S1 : StronglySorted (fun a b => (b <? a)%float = true)
                 (error_history (trace st))).
  { rewrite E. now apply StronglySorted_rev. }
  split; [|split].
  - rewrite E. destruct (errors (trace st) ++ [DBL_MAX]) as [|e l] eqn:El.
    + destruct (errors (trace st)); discriminate.
    + rewrite rev_cons_last. exact Hhd.
  - exact S1.
  - eapply StronglySorted_weaken; [|exact S1].
    intros a b. apply FloatOrder.ltb_leb.
Qed.

(** C10: when no fitness evaluated in the run compares below [DBL_MAX],
    [pso_solve] returns the error [DBL_MAX] and the caller's [gbest] as it
    was, and the run has no improvement, the only place where [gbest] is
    written. *)
Theorem pso_solve_never_below_dbl_max (L : libc) (obj_fun : pso_obj_fun_t)
    (sol : pso_result_t) (s : pso_settings_t) :
  (forall i f, In (Evaluated i f) (trace (pso_run L obj_fun sol s)) ->
               (f <? DBL_MAX)%float = false) ->
  fst (pso_solve L obj_fun sol s) = mk_result DBL_MAX (gbest sol)
  /\ errors (trace (pso_run L obj_fun sol s)) = [].
Proof.
  unfold pso_solve. cbn [fst].
  apply (pso_run_invariant
           (fun r tr =>
              (forall i f, In (Evaluated i f) tr -> (f <? DBL_MAX)%float = false) ->
              r = mk_result DBL_MAX (gbest sol) /\ errors tr = [])).
  - intros r tr k IH H. apply IH. intros i f Hin. apply (H i f). now right.
  - intros r tr i f IH _ H. cbn. apply IH.
    intros j g Hin. apply (H j g). now right.
  - intros r tr i f g IH Hlt H. exfalso.
    destruct IH as [-> _].
    + intros j g' Hin. apply (H j g'). right. now right.
    + cbn in Hlt. rewrite (H i f) in Hlt; [discriminate|].
      right. now left.
  - auto.
Qed.


Lemma pso_solve_never_below_dbl_max_witness :
  fst (pso_solve libc_half nan_everywhere result_demo settings_demo)
  = mk_result DBL_MAX (gbest result_demo)
  /\ errors (trace (pso_run libc_half nan_everywhere result_demo settings_demo))
     = [].
Proof.
  apply (pso_solve_never_below_dbl_max libc_half nan_everywhere result_demo
           settings_demo).
  assert (E : forallb (fun ev => match ev with
                                 | Evaluated _ f => negb (f <? DBL_MAX)%float
                                 | _ => true
                                 end)
                (trace (pso_run libc_half nan_everywhere result_demo
                          settings_demo)) = true)
    by (vm_compute; reflexivity).
  intros i f H. rewrite forallb_forall in E. specialize (E _ H).
  clear H. cbn beta iota in E.
  destruct (f <? DBL_MAX)%float; [discriminate E|reflexivity].
Defined.

(** ** The best informer *)

Section Inform.
Variables (comm : list Z) (fit_b : list float) (n j : Z).

Local Abbreviation fitb i := (get 0%float fit_b i).

(** What holds of the candidate [b] when the indices below [k] are scanned. *)
Lemma best_informer_scan :
  0 <= n ->
  let b := best_informer comm fit_b n j in
  (b = j \/ (0 <= b < n /\ informs comm n b j = true
             /\ (fitb b <? fitb j)%float = true))
  /\ (forall i, 0 <= i < n -> informs comm n i j = true ->
                (fitb i <? fitb b)%float = false)
  /\ (b <> j -> forall i, 0 <= i < b -> informs comm n i j = true ->
                          (fitb i =? fitb b)%float = false).
Proof.
  intros Hn. cbv zeta. unfold best_informer.
  apply (for_loop_ind
           (fun k b =>
              (b = j \/ (0 <= b < k /\ informs comm n b j = true
                         /\ (fitb b <? fitb j)%float = true))
              /\ (forall i, 0 <= i < k -> informs comm n i j = true ->
                            (fitb i <? fitb b)%float = false)
              /\ (b <> j -> forall i, 0 <= i < b ->
                    informs comm n i j = true ->
                    (fitb i =? fitb b)%float = false))); [exact Hn| |].
  - split; [now left|]. split; [intros; lia|]. intros C; now destruct C.
  - intros k b Hk (H1 & H2 & H3).
    destruct (informs comm n k j) eqn:Ek; cbn;
      [destruct (fitb k <? fitb b)%float eqn:Elt|].
    + (* the candidate moves to [k] *)
      split; [|split].
      * right. split; [lia|]. split; [exact Ek|].
        destruct H1 as [-> | (_ & _ & Hb)]; [exact Elt|].
        eapply FloatOrder.ltb_trans; eassumption.
      * intros i Hi Hinf.
        destruct (Z.eq_dec i k) as [-> | Hne];
          [apply FloatOrder.ltb_irrefl|].
        destruct (fitb i <? fitb k)%float eqn:E; [|reflexivity].
        rewrite <- (H2 i ltac:(lia) Hinf).
        symmetry. eapply FloatOrder.ltb_trans; eassumption.
      * intros _ i Hi Hinf.
        destruct (fitb i =? fitb k)%float eqn:E; [|reflexivity].
        rewrite <- (H2 i ltac:(lia) Hinf).
        symmetry. eapply FloatOrder.eqb_ltb_trans; eassumption.
    + (* [k] informs [j] but is not strictly better *)
      split; [|split].
      * destruct H1 as [-> | (Hb & Hinf & Hlt)]; [now left|].
        right. split; [lia|]. now split.
      * intros i Hi Hinf.
        destruct (Z.eq_dec i k) as [-> | Hne]; [exact Elt|].
        apply H2; [lia|exact Hinf].
      * exact H3.
    + (* [k] does not inform [j] *)
      split; [|split].
      * destruct H1 as [-> | (Hb & Hinf & Hlt)]; [now left|].
        right. split; [lia|]. now split.
      * intros i Hi Hinf.
        destruct (Z.eq_dec i k) as [-> | Hne]; [congruence|].
        apply H2; [lia|exact Hinf].
      * exact H3.
Qed.

End Inform.

(** Row [j] of the result of [inform]. *)
Lemma inform_row (comm : list Z) (pos_nb pos_b : matrix) (fit_b : list float)
    (s : pso_settings_t) (j : Z) :
  0 <= j < size s -> size s <= Z.of_nat (length pos_nb) ->
  get [] (inform comm pos_nb pos_b fit_b s) j
  = memmove (get [] pos_nb j)
      (get [] pos_b (best_informer comm fit_b (size s) j)) (dim s).
Proof.
  intros Hj Hlen.
  pose (body := fun (j : Z) (pn : matrix) =>
                  upd pn j (memmove (get [] pn j)
                              (get [] pos_b (best_informer comm fit_b (size s) j))
                              (dim s))).
  change (inform comm pos_nb pos_b fit_b s)
    with (for_loop (size s) body pos_nb).
  assert (G : length (for_loop (size s) body pos_nb) = length pos_nb
              /\ forall i, 0 <= i < size s ->
                   get [] (for_loop (size s) body pos_nb) i
                   = if i <? size s then
                       memmove (get [] pos_nb i)
                         (get [] pos_b (best_informer comm fit_b (size s) i))
                         (dim s)
                     else get [] pos_nb i).
  { apply (for_loop_ind
             (fun k pn =>
                length pn = length pos_nb
                /\ forall i, 0 <= i < size s ->
                     get [] pn i
                     = if i <? k then
                         memmove (get [] pos_nb i)
                           (get [] pos_b (best_informer comm fit_b (size s) i))
                           (dim s)
                       else get [] pos_nb i)); [lia| |].
    - split; [reflexivity|]. intros i Hi.
      destruct (i <? 0) eqn:E; [apply Z.ltb_lt in E; lia|reflexivity].
    - intros k pn Hk [Hl Hrows]. unfold body. split.
      + now rewrite length_upd.
      + intros i Hi. destruct (Z.eq_dec i k) as [-> | Hne].
        * rewrite get_upd_same by lia.
          replace (k <? k + 1) with true by (symmetry; apply Z.ltb_lt; lia).
          rewrite (Hrows k Hk).
          now replace (k <? k) with false by (symmetry; apply Z.ltb_ge; lia).
        * rewrite get_upd_other by congruence. rewrite (Hrows i Hi).
          destruct (i <? k) eqn:E1, (i <? k + 1) eqn:E2; try reflexivity;
            rewrite ?Z.ltb_lt, ?Z.ltb_ge in *; lia. }
  destruct G as [_ G]. rewrite (G j Hj).
  now replace (j <? size s) with true by (symmetry; apply Z.ltb_lt; lia).
Qed.

(** C2, as stated, fails: on the ring of three with the personal bests of
    particles 0 and 2 tied, the claim gives particle 2 the position of
    particle 0 (the smallest index) and the code that of particle 2. *)
Lemma inform_tie_prefers_self :
  let comm := init_comm_ring settings_demo in
  let pos_nb := pso_matrix_new 3 1 in
  spec_best_informer comm fit_b_tie 3 2 = 0
  /\ get [] (inform comm pos_nb pos_b_tie fit_b_tie settings_demo) 2
     <> get [] pos_b_tie (spec_best_informer comm fit_b_tie 3 2).
Proof.
  split; [now vm_compute|]. vm_compute. discriminate.
Qed.

(** C2, amended: [pos_nb[j]] receives the personal-best position of particle
    [b], where [b] is [j] itself unless some informer of [j] has a strictly
    lower fitness than [j]; then [b] is an informer that no informer
    beats, the smallest index among the informers of equal fitness. *)
Theorem inform_best_informer (comm : list Z) (pos_nb pos_b : matrix)
    (fit_b : list float) (s : pso_settings_t) (j : Z) :
  0 <= j < size s -> size s <= Z.of_nat (length pos_nb) ->
  let b := best_informer comm fit_b (size s) j in
  get [] (inform comm pos_nb pos_b fit_b s) j
  = memmove (get [] pos_nb j) (get [] pos_b b) (dim s)
  /\ (b = j \/ (0 <= b < size s /\ informs comm (size s) b j = true
                /\ (get 0 fit_b b <? get 0 fit_b j)%float = true))
  /\ (forall i, 0 <= i < size s -> informs comm (size s) i j = true ->
                (get 0 fit_b i <? get 0 fit_b b)%float = false)
  /\ (b <> j -> forall i, 0 <= i < b -> informs comm (size s) i j = true ->
                          (get 0 fit_b i =? get 0 fit_b b)%float = false).
Proof.
  intros Hj Hlen b. split; [now apply inform_row|].
  apply best_informer_scan. lia.
Qed.

Lemma inform_best_informer_witness :
  get [] (inform (init_comm_ring settings_demo) (pso_matrix_new 3 1) pos_b_tie
            fit_b_tie settings_demo) 2
  = memmove (get [] (pso_matrix_new 3 1) 2)
      (get [] pos_b_tie
         (best_informer (init_comm_ring settings_demo) fit_b_tie
            (size settings_demo) 2))
      (dim settings_demo).
Proof.
  refine (proj1 (inform_best_informer (init_comm_ring settings_demo)
                   (pso_matrix_new 3 1) pos_b_tie fit_b_tie settings_demo 2
                   _ _)).
  - cbn. lia.
  - vm_compute. discriminate.
Defined.

(** ** Clamping *)

Lemma cell_in_set2 (m : matrix) (i d : Z) (v : float) :
  cell_in m i d -> cell_in (set2 m i d v) i d.
Proof.
  intros [Hi Hd]. unfold cell_in, set2.
  rewrite length_upd, get_upd_same, length_upd by exact Hi. now split.
Qed.

Lemma get2_set2_same (m : matrix) (i d : Z) (v : float) :
  cell_in m i d -> get2 (set2 m i d v) i d = v.
Proof.
  intros [Hi Hd]. unfold get2, set2.
  rewrite get_upd_same by exact Hi. now apply get_upd_same.
Qed.

(** C4, as stated, fails when the updated position is a NaN, which no
    comparison of the clamp catches.  With the bounds [-DBL_MAX] and
    [DBL_MAX] the range [hi - lo] overflows, the initial velocity is a NaN
    and so is the position after step 0.  The same happens with a budget
    of one step, where the inertia is a NaN. *)
Lemma clamp_keeps_nan :
  ~ spec_clamp_in_bounds libc_half
  /\ pos (pso_run libc_half sphere result_demo settings_wide) = [[nan]]
  /\ pos (pso_run libc_half cliff result_demo settings_one_step)
     = [[nan]; [nan]].
Proof.
  split; [|split; now vm_compute].
  intros H. specialize (H 0 0 swarm_wide). cbv zeta in H.
  assert (E : (get 0%float (range_lo (settings swarm_wide)) 0
               <=? get2 (pos (move_dim libc_half 0 0 swarm_wide)) 0 0)%float
              = true).
  { apply H.
    - now vm_compute.
    - split; vm_compute; split; congruence.
    - split; vm_compute; split; congruence.
    - now vm_compute. }
  vm_compute in E. discriminate.
Qed.

(** C4, amended: under the clamp policy and with [lo <= hi], the position
    after the update of a cell is within [lo, hi] provided the updated
    position is not a NaN; and whenever the updated position was below [lo]
    or above [hi], the velocity of that cell is 0 afterwards. *)
Theorem move_dim_clamp (L : libc) (i d : Z) (st : swarm) :
  let lo := get 0%float (range_lo (settings st)) d in
  let hi := get 0%float (range_hi (settings st)) d in
  let p := get2 (pos (advance_dim L i d st)) i d in
  let st' := move_dim L i d st in
  truthy (clamp_pos (settings st)) = true ->
  cell_in (pos st) i d -> cell_in (vel st) i d ->
  (is_nan p = false -> (lo <=? hi)%float = true ->
   (lo <=? get2 (pos st') i d)%float = true
   /\ (get2 (pos st') i d <=? hi)%float = true)
  /\ ((p <? lo)%float = true \/ (hi <? p)%float = true ->
      get2 (vel st') i d = 0%float).
Proof.
  intros lo hi p st' Hclamp Hpos Hvel.
  set (sa := advance_dim L i d st) in *.
  assert (Es : settings sa = settings st) by (subst sa; open_body).
  assert (Hpa : cell_in (pos sa) i d)
    by (subst sa; unfold advance_dim, RNG_UNIFORM, rand; cbn;
        now apply cell_in_set2).
  assert (Hva : cell_in (vel sa) i d)
    by (subst sa; unfold advance_dim, RNG_UNIFORM, rand; cbn;
        now apply cell_in_set2).
  subst st'. unfold move_dim. fold sa. unfold bound_dim.
  rewrite Es, Hclamp. fold lo hi p.
  destruct (p <? lo)%float eqn:Elo; [|destruct (hi <? p)%float eqn:Ehi]; cbn.
  - rewrite !get2_set2_same by assumption. split; [|reflexivity].
    intros _ Hle. destruct (FloatOrder.leb_not_nan _ _ Hle) as [Hn _].
    split; [now apply FloatOrder.leb_refl|exact Hle].
  - rewrite !get2_set2_same by assumption. split; [|reflexivity].
    intros _ Hle. destruct (FloatOrder.leb_not_nan _ _ Hle) as [_ Hn].
    split; [exact Hle|now apply FloatOrder.leb_refl].
  - split.
    + intros Hp Hle. destruct (FloatOrder.leb_not_nan _ _ Hle) as [Hl Hh].
      split; apply FloatOrder.not_ltb_leb; assumption.
    + intros [C | C]; congruence.
Qed.

Lemma move_dim_clamp_witness :
  (let st := swarm_random in
   let hi := get 0%float (range_hi (settings st)) 0 in
   let lo := get 0%float (range_lo (settings st)) 0 in
   let p := get2 (pos (advance_dim libc_lcg 0 0 st)) 0 0 in
   let st' := move_dim libc_lcg 0 0 st in
   (hi <? p)%float = true
   /\ (lo <=? get2 (pos st') 0 0)%float = true
   /\ (get2 (pos st') 0 0 <=? hi)%float = true
   /\ get2 (vel st') 0 0 = 0%float)
  /\ (let st := swarm_four in
      let hi := get 0%float (range_hi (settings st)) 0 in
      let lo := get 0%float (range_lo (settings st)) 0 in
      let p := get2 (pos (advance_dim libc_lcg 1 0 st)) 1 0 in
      let st' := move_dim libc_lcg 1 0 st in
      (p <? lo)%float = true
      /\ (lo <=? get2 (pos st') 1 0)%float = true
      /\ (get2 (pos st') 1 0 <=? hi)%float = true
      /\ get2 (vel st') 1 0 = 0%float).
Proof.
  cbv zeta. split.
  - assert (Hp : (get 0%float (range_hi (settings swarm_random)) 0
                  <? get2 (pos (advance_dim libc_lcg 0 0 swarm_random)) 0 0)%float
                 = true) by (vm_compute; reflexivity).
    destruct (move_dim_clamp libc_lcg 0 0 swarm_random) as [Hin Hvel].
    + vm_compute; reflexivity.
    + split; vm_compute; split; congruence.
    + split; vm_compute; split; congruence.
    + split; [exact Hp|].
      destruct Hin as [Hlo Hhi]; [vm_compute; reflexivity..|].
      split; [exact Hlo|]. split; [exact Hhi|]. apply Hvel. now right.
  - assert (Hp : (get2 (pos (advance_dim libc_lcg 1 0 swarm_four)) 1 0
                  <? get 0%float (range_lo (settings swarm_four)) 0)%float
                 = true) by (vm_compute; reflexivity).
    destruct (move_dim_clamp libc_lcg 1 0 swarm_four) as [Hin Hvel].
    + vm_compute; reflexivity.
    + split; vm_compute; split; congruence.
    + split; vm_compute; split; congruence.
    + split; [exact Hp|].
      destruct Hin as [Hlo Hhi]; [vm_compute; reflexivity..|].
      split; [exact Hlo|]. split; [exact Hhi|]. apply Hvel. now left.
Defined.

(** ** Random topology: when the graph is rebuilt *)

Section Rewiring.
Variable L : libc.
Variable obj_fun : pso_obj_fun_t.

Lemma update_particle_rewires i st :
  rewires (trace (update_particle L obj_fun i st)) = rewires (trace st).
Proof.
  unfold update_particle, evaluate_particle. cbn.
  repeat match goal with |- context [if ?b then _ else _] => destruct b end;
    cbn; f_equal; apply for_loop_proj; intros; apply move_dim_trace.
Qed.

(** A pass over the particles that starts with [improved = 0] ends with
    [improved = 1] and a strictly lower error, or with [improved = 0] and
    the result untouched. *)
Lemma update_particle_improved (sol0 : pso_result_t) i st :
  (improved st = 0 /\ solution st = sol0)
  \/ (improved st = 1 /\ (error (solution st) <? error sol0)%float = true) ->
  let st' := update_particle L obj_fun i st in
  (improved st' = 0 /\ solution st' = sol0)
  \/ (improved st' = 1 /\ (error (solution st') <? error sol0)%float = true).
Proof.
  intros H st'. subst st'. unfold update_particle.
  set (moved := for_loop (dim (settings st)) (move_dim L i) st).
  assert (Ei : improved moved = improved st)
    by (apply for_loop_proj; intros; apply move_dim_improved).
  assert (Es : solution moved = solution st)
    by (apply for_loop_proj; intros; apply move_dim_solution).
  rewrite <- Ei, <- Es in H. clearbody moved.
  unfold evaluate_particle.
  set (f := obj_fun (get [] (pos moved) i) (dim (settings moved))).
  cbn. destruct (f <? get 0%float (fit_b moved) i)%float; cbn;
    (destruct (f <? error (solution moved))%float eqn:E; cbn;
     [right; split; [reflexivity|]|exact H]);
    (destruct H as [[_ <-] | [_ Hlt]];
     [exact E | eapply FloatOrder.ltb_trans; eassumption]).
Qed.

Lemma sweep_improved n st :
  improved st = 0 ->
  let st' := for_loop n (update_particle L obj_fun) st in
  improved st' = (if (error (solution st') <? error (solution st))%float
                  then 1 else 0)
  /\ comm st' = comm st
  /\ rewires (trace st') = rewires (trace st).
Proof.
  intros H0 st'. split; [|split].
  - assert (H : (improved st' = 0 /\ solution st' = solution st)
                \/ (improved st' = 1
                    /\ (error (solution st') <? error (solution st))%float
                       = true)).
    { subst st'. apply for_loop_inv; [now left|].
      intros i s _ Hs. now apply update_particle_improved. }
    destruct H as [[-> ->] | [-> ->]]; [|reflexivity].
    now rewrite FloatOrder.ltb_irrefl.
  - apply for_loop_proj. intros. apply update_particle_comm.
  - apply (for_loop_proj (fun s => rewires (trace s))).
    intros. apply update_particle_rewires.
Qed.

(** One pass of the main loop under the random topology. *)
Lemma loop_body_random c k st st' :
  loop_body L obj_fun (inform_random L) c k st = (st', true) ->
  rewires (trace st')
  = (if truthy (improved st) then rewires (trace st)
     else k :: rewires (trace st))
  /\ (truthy (improved st) = true -> comm st' = comm st)
  /\ improved st'
     = (if (error (solution st') <? error (solution st))%float then 1 else 0).
Proof.
  unfold loop_body.
  set (st1 := set_settings (set_step k (settings st)) st).
  set (st2 := match c with Some g => set_w (g k (settings st1)) st1
                         | None => st1 end).
  assert (E2 : improved st2 = improved st /\ trace st2 = trace st
               /\ comm st2 = comm st /\ solution st2 = solution st
               /\ step (settings st2) = k)
    by (subst st2 st1; destruct c; cbn; auto).
  destruct E2 as (Ei & Et & Ec & Es & Ek).
  destruct (_ <=? _)%float; [discriminate|].
  set (st3 := set_improved 0 (inform_random L st2)).
  intros Heq. apply (f_equal fst) in Heq. cbv beta iota delta [fst] in Heq.
  subst st'.
  destruct (sweep_improved (size (settings st3)) st3 eq_refl)
    as (Hi & Hc & Hr).
  assert (E3 : solution st3 = solution st).
  { change (solution st3) with (solution (inform_random L st2)).
    now rewrite inform_random_solution. }
  rewrite Hi, Hc, Hr, E3. split; [|split; [|reflexivity]].
  - subst st3. unfold inform_random. rewrite Ei.
    destruct (truthy (improved st)); cbn; [now rewrite Et|].
    now rewrite init_comm_random_trace, Et, Ek.
  - intros Ht. subst st3. unfold inform_random. rewrite Ei, Ht. cbn.
    exact Ec.
Qed.

(** The state before the loop: nothing rewired yet, [improved] is 0. *)
Lemma pso_init_random sol s :
  nhood_strategy s = PSO_NHOOD_RANDOM ->
  snd (pso_init L obj_fun sol s) = inform_random L
  /\ improved (fst (pso_init L obj_fun sol s)) = 0
  /\ rewires (trace (fst (pso_init L obj_fun sol s))) = [].
Proof.
  intros Hr. split; [|split].
  - unfold pso_init, pso_setup, select_inform. cbn. rewrite Hr. reflexivity.
  - unfold pso_init, pso_setup.
    pose proof (select_inform_cases L (pso_alloc sol s)) as H.
    destruct (select_inform L (pso_alloc sol s)) as [st f].
    destruct H as (_ & _ & _ & Hi & _). cbn.
    rewrite for_loop_proj by (intros; apply init_particle_improved).
    exact Hi.
  - apply (pso_init_state_Pst (fun _ tr => rewires tr = [])); auto.
Qed.

(** At the head of pass [k] every recorded rewiring is of an earlier step. *)
Lemma loop_head_rewires c st0 k st :
  rewires (trace st0) = [] ->
  loop_head L obj_fun (inform_random L) c st0 k = Some st ->
  Forall (fun j => j < Z.of_nat k) (rewires (trace st)).
Proof.
  intros H0. revert st. induction k as [|k IH]; intros st; cbn [loop_head].
  - intros [= <-]. rewrite H0. constructor.
  - destruct (loop_head L obj_fun (inform_random L) c st0 k) as [s1|];
      [|discriminate].
    destruct (_ <? _); [|discriminate].
    destruct (loop_body L obj_fun (inform_random L) c (Z.of_nat k) s1)
      as [st' go] eqn:Eb.
    destruct go; [|discriminate]. intros [= <-].
    destruct (loop_body_random c _ _ _ Eb) as (Hr & _ & _).
    specialize (IH s1 eq_refl). rewrite Hr.
    assert (G : Forall (fun j => j < Z.of_nat (S k)) (rewires (trace s1)))
      by (eapply Forall_impl; [|exact IH]; cbn; intros; lia).
    destruct (truthy (improved s1)); [exact G|].
    constructor; [lia|exact G].
Qed.

(** The pass that leads from one loop head to the next. *)
Lemma loop_head_step f c st0 k st' :
  loop_head L obj_fun f c st0 (S k) = Some st' ->
  exists st, loop_head L obj_fun f c st0 k = Some st
             /\ loop_body L obj_fun f c (Z.of_nat k) st = (st', true).
Proof.
  cbn [loop_head].
  destruct (loop_head L obj_fun f c st0 k) as [s1|]; [|discriminate].
  destruct (_ <? _); [|discriminate].
  destruct (loop_body L obj_fun f c (Z.of_nat k) s1) as [s2 go] eqn:Eb.
  destruct go; [|discriminate]. intros [= <-]. now exists s1.
Qed.

End Rewiring.

(** The loop heads are the states the run goes through: from the head of
    pass [k] the run continues with the passes that are left. *)
Lemma main_loop_through_loop_head (L : libc) (obj_fun : pso_obj_fun_t)
    (f : inform_fun_t) (c : option inertia_fun_t) (st0 : swarm) (k : nat)
    (st : swarm) :
  keeps_settings f ->
  loop_head L obj_fun f c st0 k = Some st ->
  steps (settings st) = steps (settings st0)
  /\ (k <= Z.to_nat (steps (settings st0)))%nat
  /\ main_loop L obj_fun f c (Z.to_nat (steps (settings st0))) 0 st0
     = main_loop L obj_fun f c (Z.to_nat (steps (settings st0)) - k)
         (Z.of_nat k) st.
Proof.
  intros Hf. revert st. induction k as [|k IH]; intros st H.
  - cbn in H. injection H as <-. rewrite Nat.sub_0_r.
    split; [reflexivity|]. split; [lia|reflexivity].
  - cbn [loop_head] in H.
    destruct (loop_head L obj_fun f c st0 k) as [s1|]; [|discriminate].
    destruct (IH s1 eq_refl) as (Es & Hk & Em).
    destruct (Z.of_nat k <? steps (settings s1)) eqn:Elt; [|discriminate].
    apply Z.ltb_lt in Elt. rewrite Es in Elt.
    pose proof (loop_body_settings L obj_fun f c (Z.of_nat k) s1 Hf) as Hs.
    destruct (loop_body L obj_fun f c (Z.of_nat k) s1) as [s2 go] eqn:Eb.
    destruct go; [|discriminate]. injection H as <-. cbn in Hs.
    split; [rewrite Hs; cbn; exact Es|]. split; [lia|].
    rewrite Em.
    replace (Z.to_nat (steps (settings st0)) - k)%nat
      with (S (Z.to_nat (steps (settings st0)) - S k)) by lia.
    cbn [main_loop]. rewrite Eb.
    now replace (Z.of_nat k + 1) with (Z.of_nat (S k)) by lia.
Qed.

(** So are the states of [pso_loop_head] for [pso_run]. *)
Lemma pso_run_through_loop_head (L : libc) (obj_fun : pso_obj_fun_t)
    (sol : pso_result_t) (s : pso_settings_t) (k : nat) (st : swarm) :
  pso_loop_head L obj_fun sol s k = Some st ->
  pso_run L obj_fun sol s
  = main_loop L obj_fun (snd (pso_init L obj_fun sol s)) (select_inertia s)
      (Z.to_nat (steps s) - k) (Z.of_nat k) st.
Proof.
  unfold pso_loop_head, pso_run.
  destruct (pso_init_settings L obj_fun sol s) as [Hs Hf].
  destruct (pso_init L obj_fun sol s) as [st0 f]. cbn [fst snd] in *.
  intros H.
  destruct (main_loop_through_loop_head L obj_fun f (select_inertia s) st0 k
              st Hf H) as (_ & _ & E).
  rewrite Hs in E |- *. exact E.
Qed.

(** ** The step left in the settings *)

Section LastPass.
Variable L : libc.
Variable obj_fun : pso_obj_fun_t.
Variable f : inform_fun_t.
Variable c : option inertia_fun_t.
Variable st0 : swarm.

(** A loop head that is reached is reached through every earlier one. *)
Lemma loop_head_before (j k : nat) :
  (j <= k)%nat ->
  loop_head L obj_fun f c st0 k <> None ->
  loop_head L obj_fun f c st0 j <> None.
Proof.
  intros Hjk. induction Hjk as [|k Hjk IH]; [auto|].
  intros H. apply IH. cbn [loop_head] in H.
  destruct (loop_head L obj_fun f c st0 k); [discriminate|exact H].
Qed.

Lemma main_loop_pass (n : nat) (k : Z) (st : swarm) :
  main_loop L obj_fun f c (S n) k st
  = let (st', go) := loop_body L obj_fun f c k st in
    if go then main_loop L obj_fun f c n (k + 1) st' else st'.
Proof. reflexivity. Qed.

(** From the head of pass [k], with [n] passes left of which one at least,
    the run ends with the settings as the last pass entered leaves them:
    that pass, [m], is entered, and the next one is not, because the budget
    is used up or because pass [m] left the loop. *)
Lemma main_loop_last_pass (n k : nat) (st : swarm) :
  keeps_settings f ->
  loop_head L obj_fun f c st0 k = Some st ->
  (k + S n = Z.to_nat (steps (settings st0)))%nat ->
  exists m : nat,
    (k <= m <= k + n)%nat
    /\ settings (main_loop L obj_fun f c (S n) (Z.of_nat k) st)
       = set_step (Z.of_nat m) (settings st)
    /\ loop_head L obj_fun f c st0 m <> None
    /\ (m = (k + n)%nat \/ loop_head L obj_fun f c st0 (S m) = None).
Proof.
  intros Hf. revert k st. induction n as [|n IH]; intros k st Hh Hn.
  - exists k. rewrite main_loop_pass.
    pose proof (loop_body_settings L obj_fun f c (Z.of_nat k) st Hf) as Hb.
    destruct (loop_body L obj_fun f c (Z.of_nat k) st) as [st' go].
    cbn [fst] in Hb.
    split; [lia|]. split; [now destruct go|].
    split; [now rewrite Hh|]. left. lia.
  - rewrite main_loop_pass.
    pose proof (loop_body_settings L obj_fun f c (Z.of_nat k) st Hf) as Hb.
    destruct (main_loop_through_loop_head L obj_fun f c st0 k st Hf Hh)
      as (Es & _ & _).
    assert (Hnext : loop_head L obj_fun f c st0 (S k)
                    = let (st', go) :=
                        loop_body L obj_fun f c (Z.of_nat k) st in
                      if go then Some st' else None).
    { cbn [loop_head]. rewrite Hh, Es.
      now replace (Z.of_nat k <? steps (settings st0)) with true
        by (symmetry; apply Z.ltb_lt; lia). }
    destruct (loop_body L obj_fun f c (Z.of_nat k) st) as [st' go].
    cbn [fst] in Hb. destruct go.
    + replace (Z.of_nat k + 1) with (Z.of_nat (S k)) by lia.
      destruct (IH (S k) st' Hnext ltac:(lia)) as (m & Hm & E & Hr & Hl).
      exists m. split; [lia|]. split.
      * rewrite E, Hb. reflexivity.
      * split; [exact Hr|]. destruct Hl as [-> | Hl]; [left; lia|now right].
    + exists k. split; [lia|]. split; [exact Hb|].
      split; [now rewrite Hh|]. now right.
Qed.

End LastPass.

(** C9, amended: [pso_solve] writes no field of the settings other than
    [step]; [step] ends as the index of the last pass of the loop that was
    entered, and keeps its value when [steps] is not positive.  Pass [j] is
    entered when the head of the loop is reached after [j] passes with [j]
    below [steps]. *)
Theorem pso_solve_settings_frame (L : libc) (obj_fun : pso_obj_fun_t)
    (sol : pso_result_t) (s : pso_settings_t) :
  exists k,
    snd (pso_solve L obj_fun sol s) = set_step k s
    /\ (if 0 <? steps s then
          0 <= k < steps s
          /\ pso_loop_head L obj_fun sol s (Z.to_nat k) <> None
          /\ (forall j : nat,
                Z.of_nat j < steps s ->
                pso_loop_head L obj_fun sol s j <> None -> Z.of_nat j <= k)
        else k = step s).
Proof.
  unfold pso_solve, pso_run, pso_loop_head. cbn [snd].
  destruct (pso_init_settings L obj_fun sol s) as [Hs Hf].
  destruct (pso_init L obj_fun sol s) as [st f]. cbn [fst snd] in Hs, Hf.
  rewrite Hs. destruct (0 <? steps s) eqn:Es.
  - apply Z.ltb_lt in Es.
    destruct (Z.to_nat (steps s)) as [|n] eqn:En; [lia|].
    destruct (main_loop_last_pass L obj_fun f (select_inertia s) st n 0 st Hf
                eq_refl) as (m & Hm & E & Hr & Hl).
    { rewrite Hs. lia. }
    exists (Z.of_nat m). rewrite Nat2Z.id.
    change (Z.of_nat 0) with 0 in E. rewrite Hs in E.
    split; [exact E|]. split; [lia|]. split; [exact Hr|].
    intros j Hj Hh.
    destruct (Nat.le_gt_cases j m) as [Hjm | Hjm]; [lia|].
    destruct Hl as [-> | Hl]; [lia|].
    exfalso.
    apply (loop_head_before L obj_fun f (select_inertia s) st (S m) j Hjm Hh).
    exact Hl.
  - apply Z.ltb_ge in Es. replace (Z.to_nat (steps s)) with 0%nat by lia.
    exists (step s). cbn [main_loop]. rewrite Hs.
    split; [now rewrite set_step_same|reflexivity].
Qed.

(** ** The best after the initialisation *)

Section MatrixFacts.

Lemma get_repeat {A : Type} (d x : A) (n : nat) (i : Z) :
  0 <= i < Z.of_nat n -> get d (repeat x n) i = x.
Proof.
  intros H. unfold get. destruct (i <? 0) eqn:E; [lia|].
  rewrite (nth_indep _ d x) by (rewrite repeat_length; lia).
  apply nth_repeat.
Qed.

Lemma length_set2 (m : matrix) (i d : Z) (v : float) :
  length (set2 m i d v) = length m.
Proof. apply length_upd. Qed.

Lemma get_set2_other (m : matrix) (i j d : Z) (v : float) :
  i <> j -> get [] (set2 m i d v) j = get [] m j.
Proof. intros H. now apply get_upd_other. Qed.

Lemma length_get_set2 (m : matrix) (i d : Z) (v : float) :
  0 <= i < Z.of_nat (length m) ->
  length (get [] (set2 m i d v) i) = length (get [] m i).
Proof.
  intros H. unfold set2. rewrite get_upd_same by exact H. apply length_upd.
Qed.

Lemma memmove_memmove {A : Type} (g p q : list A) (n : Z) :
  length p = Z.to_nat n -> memmove (memmove g p n) q n = memmove g q n.
Proof.
  intros H. unfold memmove. f_equal.
  rewrite firstn_all2 by lia.
  rewrite skipn_app, skipn_all2 by lia.
  now replace (Z.to_nat n - length p)%nat with 0%nat by lia.
Qed.

End MatrixFacts.

Section InitBest.
Variable L : libc.
Variable obj_fun : pso_obj_fun_t.

(** The loop over the dimensions of particle [k] writes row [k] of the
    matrices and nothing else that matters here. *)
Lemma init_dims_row (k : Z) (st : swarm) :
  0 <= k < Z.of_nat (length (pos st)) ->
  let st1 := for_loop (dim (settings st)) (init_dim L k) st in
  fit st1 = fit st /\ solution st1 = solution st /\ settings st1 = settings st
  /\ trace st1 = trace st
  /\ length (pos st1) = length (pos st)
  /\ length (get [] (pos st1) k) = length (get [] (pos st) k)
  /\ (forall j, j <> k -> get [] (pos st1) j = get [] (pos st) j).
Proof.
  intros Hk st1. subst st1.
  apply (for_loop_inv
           (fun s1 =>
              fit s1 = fit st /\ solution s1 = solution st
              /\ settings s1 = settings st /\ trace s1 = trace st
              /\ length (pos s1) = length (pos st)
              /\ length (get [] (pos s1) k) = length (get [] (pos st) k)
              /\ (forall j, j <> k -> get [] (pos s1) j = get [] (pos st) j))).
  - repeat split; reflexivity.
  - intros d s1 _ (Hf & Hs & Hc & Ht & Hl & Hr & Ho).
    unfold init_dim, RNG_UNIFORM, rand. cbn.
    rewrite length_set2, length_get_set2 by lia.
    repeat split; try assumption.
    intros j Hj. rewrite get_set2_other by congruence. now apply Ho.
Qed.

Lemma init_particle_invariant (s : pso_settings_t) (g0 : list float)
    (k : Z) (st : swarm) :
  0 <= k < size s ->
  init_invariant obj_fun s g0 k st ->
  init_invariant obj_fun s g0 (k + 1) (init_particle L obj_fun k st).
Proof.
  intros Hk (Hset & Hlp & Hlf & Hrows & Hfit & Hbest).
  assert (Hkp : 0 <= k < Z.of_nat (length (pos st))) by lia.
  destruct (init_dims_row k st Hkp) as (Ef & Es & Ec & Et & El & Er & Eo).
  unfold init_particle. rewrite Hset in *.
  set (st1 := for_loop (dim s) (init_dim L k) st) in *.
  set (f := obj_fun (get [] (pos st1) k) (dim s)).
  assert (Hrow1 : forall j, 0 <= j < size s ->
                    length (get [] (pos st1) j) = Z.to_nat (dim s)).
  { intros j Hj. destruct (Z.eq_dec j k) as [-> | Hne].
    - rewrite Er. now apply Hrows.
    - rewrite Eo by exact Hne. now apply Hrows. }
  assert (Hget : forall i, 0 <= i < k ->
                   get 0%float (upd (fit st1) k f) i = get 0%float (fit st) i)
    by (intros i Hi; rewrite Ef; apply get_upd_other; lia).
  assert (Hgetk : get 0%float (upd (fit st1) k f) k = f)
    by (apply get_upd_same; rewrite Ef; lia).
  assert (Hpos : forall i, 0 <= i < k ->
                   get [] (pos st1) i = get [] (pos st) i)
    by (intros i Hi; apply Eo; lia).
  assert (Hfit1 : forall i, 0 <= i < k + 1 ->
            get 0%float (upd (fit st1) k f) i
            = obj_fun (get [] (pos st1) i) (dim s)).
  { intros i Hi. destruct (Z.eq_dec i k) as [-> | Hne]; [exact Hgetk|].
    rewrite Hget, Hpos by lia. apply Hfit. lia. }
  cbn. destruct (f <? error (solution st1))%float eqn:Elt;
    unfold init_invariant; cbn;
    (split; [exact Ec|]); (split; [lia|]);
    (split; [rewrite length_upd, Ef; exact Hlf|]);
    (split; [exact Hrow1|]); (split; [exact Hfit1|]).
  - (* particle [k] is the new best *)
    right. exists k. rewrite Hgetk. rewrite Es in Elt |- *.
    assert (Hmax : (f <? DBL_MAX)%float = true).
    { destruct Hbest as [[Hs _] | (b & _ & Hs & Hb & _)];
        rewrite Hs in Elt; cbn in Elt; [exact Elt|].
      eapply FloatOrder.ltb_trans; eassumption. }
    split; [lia|]. split; [|split; [exact Hmax|split]].
    + f_equal. destruct Hbest as [[Hs _] | (b & Hb & Hs & _)];
        rewrite Hs; cbn; [reflexivity|].
      apply memmove_memmove. apply Hrows. lia.
    + intros i Hi. destruct (Z.eq_dec i k) as [-> | Hne];
        [rewrite Hgetk; apply FloatOrder.ltb_irrefl|].
      rewrite Hget by lia.
      destruct (get 0%float (fit st) i <? f)%float eqn:E; [|reflexivity].
      destruct Hbest as [[Hs Hall] | (b & Hb & Hs & _ & Hall & _)];
        rewrite Hs in Elt; cbn in Elt.
      * rewrite <- (Hall i ltac:(lia)). symmetry.
        eapply FloatOrder.ltb_trans; eassumption.
      * rewrite <- (Hall i ltac:(lia)). symmetry.
        eapply FloatOrder.ltb_trans; eassumption.
    + intros i Hi. rewrite Hget by lia.
      destruct (get 0%float (fit st) i =? f)%float eqn:E; [|reflexivity].
      destruct Hbest as [[Hs Hall] | (b & Hb & Hs & _ & Hall & _)];
        rewrite Hs in Elt; cbn in Elt.
      * rewrite <- (Hall i ltac:(lia)). symmetry.
        eapply FloatOrder.eqb_ltb_trans; eassumption.
      * rewrite <- (Hall i ltac:(lia)). symmetry.
        eapply FloatOrder.eqb_ltb_trans; eassumption.
  - (* the best stays *)
    rewrite Es in Elt |- *.
    destruct Hbest as [[Hs Hall] | (b & Hb & Hs & Hmax & Hall & Hfirst)].
    + left. split; [exact Hs|]. intros i Hi.
      destruct (Z.eq_dec i k) as [-> | Hne].
      * rewrite Hgetk. rewrite Hs in Elt. exact Elt.
      * rewrite Hget by lia. apply Hall. lia.
    + right. exists b. rewrite !Hget, Hpos by lia.
      split; [lia|]. split; [exact Hs|]. split; [exact Hmax|]. split.
      * intros i Hi. destruct (Z.eq_dec i k) as [-> | Hne].
        -- rewrite Hgetk. rewrite Hs in Elt. exact Elt.
        -- rewrite Hget by lia. apply Hall. lia.
      * intros i Hi. rewrite Hget by lia. now apply Hfirst.
Qed.

End InitBest.

Lemma pso_setup_invariant (L : libc) (obj_fun : pso_obj_fun_t)
    (sol : pso_result_t) (s : pso_settings_t) :
  init_invariant obj_fun s (gbest sol) 0 (fst (pso_setup L sol s)).
Proof.
  unfold pso_setup.
  pose proof (select_inform_cases L (pso_alloc sol s)) as H.
  pose proof (select_inform_arrays L (pso_alloc sol s)) as [Hp Hf].
  destruct (select_inform L (pso_alloc sol s)) as [st f].
  destruct H as (Hs & Hsol & _). cbn in Hp, Hf |- *.
  unfold init_invariant. cbn. rewrite Hs, Hp, Hf, Hsol. cbn.
  unfold pso_matrix_new. rewrite !repeat_length.
  split; [reflexivity|]. split; [reflexivity|]. split; [reflexivity|].
  split; [|split].
  - intros j Hj. rewrite get_repeat by lia. apply repeat_length.
  - intros i Hi. lia.
  - left. split; [reflexivity|]. intros i Hi. lia.
Qed.

Lemma pso_init_invariant (L : libc) (obj_fun : pso_obj_fun_t)
    (sol : pso_result_t) (s : pso_settings_t) :
  0 <= size s ->
  init_invariant obj_fun s (gbest sol) (size s)
    (fst (pso_init L obj_fun sol s)).
Proof.
  intros Hn. unfold pso_init.
  pose proof (pso_setup_invariant L obj_fun sol s) as H0.
  destruct (pso_setup L sol s) as [st f]. cbn [fst] in *.
  assert (Es : settings st = s) by apply H0. rewrite Es.
  apply (for_loop_ind (init_invariant obj_fun s (gbest sol)));
    [exact Hn|exact H0|].
  intros k st1 Hk H1. now apply init_particle_invariant.
Qed.

(** C5, as stated, fails: with an objective that is [DBL_MAX] everywhere no
    fitness is strictly below the initial [DBL_MAX], so the caller's buffer
    keeps its 42 and holds the position of no particle. *)
Lemma init_best_not_written :
  ~ spec_init_best libc_half dbl_max_everywhere result_demo settings_demo.
Proof.
  intros [_ (b & Hb & _ & Hg)].
  assert (Eg : gbest (solution (fst (pso_init libc_half dbl_max_everywhere
                                       result_demo settings_demo)))
               = [42%float]) by now vm_compute.
  assert (Ep : forallb
                 (fun i =>
                    (get 0%float
                       (get [] (pos (fst (pso_init libc_half dbl_max_everywhere
                                            result_demo settings_demo))) i) 0
                     <=? 10)%float)
                 [0; 1; 2]
               = true) by now vm_compute.
  rewrite Eg in Hg. change (size settings_demo) with 3 in Hb.
  cbn [forallb] in Ep. rewrite !andb_true_iff in Ep.
  destruct Ep as (E0 & E1 & E2 & _).
  assert (C : b = 0 \/ b = 1 \/ b = 2) by lia.
  destruct C as [-> | [-> | ->]];
    [rewrite <- Hg in E0; vm_compute in E0; discriminate E0
    |rewrite <- Hg in E1; vm_compute in E1; discriminate E1
    |rewrite <- Hg in E2; vm_compute in E2; discriminate E2].
Qed.

(** C5, amended: after the initialisation, if the fitness of some particle
    is strictly below [DBL_MAX], the best error is the fitness of a particle
    [b] that no particle beats, and the caller's buffer (of [dim] cells)
    holds the initial position of [b], the first particle of that fitness;
    if no fitness is strictly below [DBL_MAX], the result is [DBL_MAX] and
    the buffer is as the caller left it. *)
Theorem pso_init_best (L : libc) (obj_fun : pso_obj_fun_t)
    (sol : pso_result_t) (s : pso_settings_t) :
  let st := fst (pso_init L obj_fun sol s) in
  let fitness i := obj_fun (get [] (pos st) i) (dim s) in
  0 < size s -> length (gbest sol) = Z.to_nat (dim s) ->
  ((exists i, 0 <= i < size s /\ (fitness i <? DBL_MAX)%float = true) ->
   exists b,
     0 <= b < size s
     /\ error (solution st) = fitness b
     /\ gbest (solution st) = get [] (pos st) b
     /\ (forall i, 0 <= i < size s -> (fitness i <? fitness b)%float = false)
     /\ (forall i, 0 <= i < b -> (fitness i =? fitness b)%float = false))
  /\ ((forall i, 0 <= i < size s -> (fitness i <? DBL_MAX)%float = false) ->
      solution st = mk_result DBL_MAX (gbest sol)).
Proof.
  intros st fitness Hn Hg.
  destruct (pso_init_invariant L obj_fun sol s ltac:(lia))
    as (_ & _ & _ & Hrows & Hfit & Hbest).
  fold st in Hrows, Hfit, Hbest. cbv zeta in Hfit, Hbest. split.
  - intros (i & Hi & Hlt).
    destruct Hbest as [[_ Hall] | (b & Hb & Hs & _ & Hall & Hfirst)].
    + specialize (Hall i Hi). rewrite Hfit in Hall by exact Hi.
      unfold fitness in Hlt. congruence.
    + exists b. rewrite Hs. cbn. rewrite (Hfit b Hb) in *.
      split; [exact Hb|]. split; [reflexivity|]. split; [|split].
      * unfold memmove.
        rewrite firstn_all2, skipn_all2 by (rewrite ?Hrows; lia).
        apply app_nil_r.
      * intros j Hj. specialize (Hall j Hj).
        now rewrite (Hfit j Hj) in Hall.
      * intros j Hj. specialize (Hfirst j Hj).
        now rewrite (Hfit j ltac:(lia)) in Hfirst.
  - intros Hall.
    destruct Hbest as [[Hs _] | (b & Hb & _ & Hlt & _)]; [exact Hs|].
    rewrite (Hfit b Hb) in Hlt. specialize (Hall b Hb).
    unfold fitness in Hall. congruence.
Qed.

Lemma pso_init_best_witness :
  let st := fst (pso_init libc_lcg sphere result_demo settings_demo) in
  let fitness i := sphere (get [] (pos st) i) (dim settings_demo) in
  exists b,
    0 <= b < size settings_demo
    /\ error (solution st) = fitness b
    /\ gbest (solution st) = get [] (pos st) b
    /\ (forall i, 0 <= i < size settings_demo ->
                  (fitness i <? fitness b)%float = false)
    /\ (forall i, 0 <= i < b -> (fitness i =? fitness b)%float = false).
Proof.
  refine (proj1 (pso_init_best libc_lcg sphere result_demo settings_demo
                   _ _) _).
  - reflexivity.
  - reflexivity.
  - exists 0. split; [cbn; lia|]. now vm_compute.
Defined.

(** ** Binary64 arithmetic on the values of the swarm size

    The primitive operations are specified by the functions of [SpecFloat]
    at precision 53; the lemmas below follow a double of at least 2071
    through the square root, the doubling, the addition of 10 and the
    conversion to [int]. *)

Module Binary64.

Lemma digits2_bounds (p : positive) :
  2 ^ (Z.pos (digits2_pos p) - 1) <= Z.pos p < 2 ^ Z.pos (digits2_pos p).
Proof.
  induction p as [p IH|p IH|]; cbn [digits2_pos]; [| |cbn; lia];
    rewrite Pos2Z.inj_succ;
    replace (Z.succ (Z.pos (digits2_pos p)) - 1) with (Z.succ (Z.pos (digits2_pos p) - 1)) by lia;
    rewrite !Z.pow_succ_r by lia; lia.
Qed.

Lemma digits2_ge (p : positive) (j : Z) :
  0 <= j -> 2 ^ j <= Z.pos p -> j + 1 <= Z.pos (digits2_pos p).
Proof.
  intros Hj H. destruct (digits2_bounds p) as [_ Hu].
  assert (2 ^ j < 2 ^ Z.pos (digits2_pos p)) by lia.
  apply Z.pow_lt_mono_r_iff in H0; lia.
Qed.

Lemma digits2_le (p : positive) (j : Z) :
  0 <= j -> Z.pos p < 2 ^ j -> Z.pos (digits2_pos p) <= j.
Proof.
  intros Hj H. destruct (digits2_bounds p) as [Hl _].
  assert (2 ^ (Z.pos (digits2_pos p) - 1) < 2 ^ j) by lia.
  apply Z.pow_lt_mono_r_iff in H0; lia.
Qed.

Lemma digits2_eq (p : positive) (j : Z) :
  0 <= j -> 2 ^ j <= Z.pos p < 2 ^ (j + 1) -> Z.pos (digits2_pos p) = j + 1.
Proof.
  intros Hj [H1 H2]. pose proof (digits2_ge p j Hj H1).
  pose proof (digits2_le p (j + 1) ltac:(lia) H2). lia.
Qed.

Lemma iter_xO_val (p d : positive) :
  Z.pos (Pos.iter xO p d) = Z.pos p * 2 ^ Z.pos d.
Proof.
  induction d as [|d IH] using Pos.peano_ind.
  - cbn. lia.
  - rewrite Pos.iter_succ, Pos2Z.inj_succ, Z.pow_succ_r by lia.
    rewrite Pos2Z.inj_xO, IH. lia.
Qed.

Lemma iter_pos_nat {A : Type} (f : A -> A) (p : positive) (x : A) :
  iter_pos f p x = Nat.iter (Pos.to_nat p) f x.
Proof.
  revert x. induction p as [p IH|p IH|]; intros x; cbn [iter_pos].
  - rewrite !IH, Pos2Nat.inj_xI.
    rewrite <- Nat.iter_succ_r, <- Nat.iter_add. f_equal. lia.
  - rewrite !IH, Pos2Nat.inj_xO, <- Nat.iter_add. f_equal. lia.
  - reflexivity.
Qed.

Lemma shr_1_m (r : shr_record) :
  0 <= shr_m r -> shr_m (shr_1 r) = shr_m r / 2.
Proof.
  destruct r as [m b s]. cbn. intros H.
  destruct m as [|[p|p|]|p]; cbn [shr_m]; try lia; try reflexivity.
  - apply (Z.div_unique _ 2 _ 1); lia.
  - apply (Z.div_unique _ 2 _ 0); lia.
Qed.

Lemma iter_shr_m (j : nat) (r : shr_record) :
  0 <= shr_m r ->
  shr_m (Nat.iter j shr_1 r) = shr_m r / 2 ^ Z.of_nat j.
Proof.
  intros H. induction j as [|j IH].
  - cbn. now rewrite Z.div_1_r.
  - rewrite Nat.iter_succ, shr_1_m.
    + rewrite IH, Nat2Z.inj_succ, Z.pow_succ_r by lia.
      rewrite Z.div_div by lia. f_equal. lia.
    + rewrite IH. apply Z.div_pos; lia.
Qed.

Lemma shr_spec (r : shr_record) (e n : Z) :
  0 <= shr_m r -> 0 <= n ->
  shr_m (fst (shr r e n)) = shr_m r / 2 ^ n /\ snd (shr r e n) = e + n.
Proof.
  intros Hm Hn. destruct n as [|p|p]; cbn [shr fst snd]; [| |lia].
  - rewrite Z.div_1_r. split; [reflexivity|lia].
  - rewrite iter_pos_nat, iter_shr_m by exact Hm.
    now rewrite positive_nat_Z.
Qed.

Lemma fexp_normal (z : Z) : -1021 <= z -> fexp prec emax z = z - 53.
Proof. unfold fexp, emin, prec, emax. lia. Qed.

Lemma shr_record_of_loc_m (m : Z) (l : location) :
  shr_m (shr_record_of_loc m l) = m.
Proof. destruct l as [|[ | | ]]; reflexivity. Qed.

Lemma round_nearest_even_bounds (m : Z) (l : location) :
  m <= round_nearest_even m l <= m + 1.
Proof.
  destruct l as [|[ | | ]]; cbn; try destruct (Z.even m); lia.
Qed.

Lemma shr_fexp_spec (m : positive) (e : Z) (l : location) :
  53 <= Z.pos (digits2_pos m) -> -1021 <= Z.pos (digits2_pos m) + e ->
  shr_m (fst (shr_fexp prec emax (Z.pos m) e l))
  = Z.pos m / 2 ^ (Z.pos (digits2_pos m) - 53)
  /\ snd (shr_fexp prec emax (Z.pos m) e l)
     = e + (Z.pos (digits2_pos m) - 53).
Proof.
  intros HD Hn. unfold shr_fexp. cbn [Zdigits2].
  rewrite fexp_normal by exact Hn.
  replace (Z.pos (digits2_pos m) + e - 53 - e)
    with (Z.pos (digits2_pos m) - 53) by lia.
  rewrite <- (shr_record_of_loc_m (Z.pos m) l) at 2.
  apply shr_spec; [rewrite shr_record_of_loc_m|]; lia.
Qed.

(** Rounding a positive mantissa of at least 53 digits, in the range of
    the normal numbers: the result is finite with a mantissa of 53 digits,
    at the exponent of the truncation with a mantissa not below it, or one
    exponent higher. *)
Lemma binary_round_aux_spec (m : positive) (e : Z) (l : location) :
  let D := Z.pos (digits2_pos m) in
  53 <= D -> -1021 <= D + e <= 1000 ->
  exists m' e',
    binary_round_aux prec emax false (Z.pos m) e l = S754_finite false m' e'
    /\ 2 ^ 52 <= Z.pos m' < 2 ^ 53
    /\ ((e' = e + (D - 53) /\ Z.pos m / 2 ^ (D - 53) <= Z.pos m')
        \/ e' = e + (D - 53) + 1).
Proof.
  intros D HD Hn. unfold binary_round_aux.
  destruct (shr_fexp_spec m e l HD ltac:(lia)) as [Hm1 He1].
  destruct (shr_fexp prec emax (Z.pos m) e l) as [r1 e1].
  cbn [fst snd] in Hm1, He1. fold D in Hm1, He1.
  assert (Hb : 2 ^ 52 <= Z.pos m / 2 ^ (D - 53) < 2 ^ 53).
  { destruct (digits2_bounds m) as [Hlo Hhi]. fold D in Hlo, Hhi. split.
    - apply Z.div_le_lower_bound; [lia|].
      rewrite <- Z.pow_add_r by lia.
      now replace (D - 53 + 52) with (D - 1) by lia.
    - apply Z.div_lt_upper_bound; [lia|].
      rewrite <- Z.pow_add_r by lia.
      now replace (D - 53 + 53) with D by lia. }
  pose proof (round_nearest_even_bounds (shr_m r1) (loc_of_shr_record r1))
    as Hr.
  set (m2 := round_nearest_even (shr_m r1) (loc_of_shr_record r1)) in *.
  rewrite Hm1 in Hr.
  destruct m2 as [|p2|p2]; [lia| |lia].
  destruct (Z.eq_dec (Z.pos p2) (2 ^ 53)) as [Heq | Hne].
  - (* the rounding carried into a 54th digit *)
    assert (HD2 : Z.pos (digits2_pos p2) = 54)
      by (apply (digits2_eq p2 53); [lia|rewrite Heq; cbn; lia]).
    destruct (shr_fexp_spec p2 e1 loc_Exact ltac:(lia) ltac:(lia))
      as [Hm3 He3].
    destruct (shr_fexp prec emax (Z.pos p2) e1 loc_Exact) as [r3 e3].
    cbn [fst snd] in Hm3, He3. rewrite HD2, Heq in Hm3.
    change (2 ^ 53 / 2 ^ (54 - 53)) with (Z.pos 4503599627370496) in Hm3.
    rewrite Hm3.
    replace (e3 <=? emax - prec) with true
      by (symmetry; apply Z.leb_le; unfold emax, prec; lia).
    exists 4503599627370496%positive, e3.
    split; [reflexivity|]. split; [cbn; lia|]. right. lia.
  - assert (HD2 : Z.pos (digits2_pos p2) = 53)
      by (apply (digits2_eq p2 52); lia).
    destruct (shr_fexp_spec p2 e1 loc_Exact ltac:(lia) ltac:(lia))
      as [Hm3 He3].
    destruct (shr_fexp prec emax (Z.pos p2) e1 loc_Exact) as [r3 e3].
    cbn [fst snd] in Hm3, He3. rewrite HD2 in Hm3, He3.
    change (2 ^ (53 - 53)) with 1 in Hm3. rewrite Z.div_1_r in Hm3.
    rewrite Hm3.
    replace (e3 <=? emax - prec) with true
      by (symmetry; apply Z.leb_le; unfold emax, prec; lia).
    exists p2, e3. split; [reflexivity|]. split; [lia|]. left. lia.
Qed.

(** An exact mantissa of 53 digits is kept as it is. *)
Lemma binary_round_aux_exact (m : positive) (e : Z) :
  Z.pos (digits2_pos m) = 53 -> -1074 <= e <= 947 ->
  binary_round_aux prec emax false (Z.pos m) e loc_Exact
  = S754_finite false m e.
Proof.
  intros HD He. unfold binary_round_aux.
  destruct (shr_fexp_spec m e loc_Exact ltac:(lia) ltac:(lia)) as [Hm1 He1].
  assert (E1 : shr_fexp prec emax (Z.pos m) e loc_Exact
               = (Build_shr_record (Z.pos m) false false, e)).
  { unfold shr_fexp. cbn [Zdigits2]. rewrite fexp_normal by lia.
    replace (Z.pos (digits2_pos m) + e - 53 - e) with 0 by lia.
    reflexivity. }
  rewrite E1. cbn [shr_m loc_of_shr_record round_nearest_even]. rewrite E1.
  cbn [shr_m].
  now replace (e <=? emax - prec) with true
    by (symmetry; apply Z.leb_le; unfold emax, prec; lia).
Qed.

Lemma digits2_shift (p d : positive) :
  digits2_pos (Pos.iter xO p d) = (digits2_pos p + d)%positive.
Proof.
  induction d as [|d IH] using Pos.peano_ind.
  - cbn. now rewrite Pos.add_1_r.
  - rewrite Pos.iter_succ. cbn [digits2_pos]. rewrite IH.
    now rewrite Pos.add_succ_r.
Qed.

(** [(double) n] for an [int] of 12 to 31 bits: the mantissa is [n] shifted
    to 53 bits. *)
Lemma double_of_int_spec (n : Z) :
  2 ^ 11 <= n < 2 ^ 31 ->
  exists mx ex,
    Prim2SF (double_of_int n) = S754_finite false mx ex
    /\ Z.pos (digits2_pos mx) = 53
    /\ ex = Z.log2 n - 52
    /\ Z.pos mx = n * 2 ^ (52 - Z.log2 n).
Proof.
  intros Hn. unfold double_of_int.
  replace (n <? 0) with false by (symmetry; apply Z.ltb_ge; lia).
  rewrite FloatAxioms.of_uint63_spec, Uint63.of_Z_spec.
  rewrite Z.mod_small by (change wB with (2 ^ 63); lia).
  destruct n as [|p|p]; [lia| |lia].
  assert (Hlog : 11 <= Z.log2 (Z.pos p) < 31).
  { split; [apply Z.log2_le_pow2; lia|apply Z.log2_lt_pow2; lia]. }
  assert (HD : Z.pos (digits2_pos p) = Z.log2 (Z.pos p) + 1).
  { apply digits2_eq; [lia|].
    replace (Z.log2 (Z.pos p) + 1) with (Z.succ (Z.log2 (Z.pos p))) by lia.
    apply Z.log2_spec. lia. }
  cbn [binary_normalize]. unfold binary_round, shl_align.
  rewrite fexp_normal by lia. rewrite HD.
  destruct (Z.log2 (Z.pos p) + 1 + 0 - 53 - 0) as [|d|d] eqn:Ed; [lia|lia|].
  rewrite binary_round_aux_exact.
  - exists (Pos.iter xO p d), (Z.log2 (Z.pos p) + 1 + 0 - 53).
    split; [reflexivity|]. split; [|split].
    + rewrite digits2_shift, Pos2Z.inj_add, HD. lia.
    + lia.
    + rewrite iter_xO_val. f_equal. f_equal. lia.
  - rewrite digits2_shift, Pos2Z.inj_add, HD. lia.
  - lia.
Qed.

(** The square root of a double of mantissa [mx] (53 digits) and exponent
    between -41 and -22, that is of a value from [2^11] up to [2^31]. *)
Lemma SFsqrt_bound (mx : positive) (ex : Z) :
  Z.pos (digits2_pos mx) = 53 -> -41 <= ex <= -22 ->
  (ex = -41 -> 2071 * 2 ^ 41 <= Z.pos mx) ->
  exists mr er,
    SF64sqrt (S754_finite false mx ex) = S754_finite false mr er
    /\ 2 ^ 52 <= Z.pos mr < 2 ^ 53
    /\ -47 <= er <= -36
    /\ (er = -47 -> 91 * 2 ^ 46 <= Z.pos mr).
Proof.
  intros HD Hex Hlow.
  destruct (digits2_bounds mx) as [Hml Hmu]. rewrite HD in Hml, Hmu.
  unfold SF64sqrt, SFsqrt, SFsqrt_core_binary. cbn [Zdigits2]. rewrite HD.
  rewrite fexp_normal by (rewrite Z.div2_div; Z.to_euclidean_division_equations; lia).
  set (e' := Z.min (Z.div2 (53 + ex + 1) - 53) (Z.div2 ex)).
  assert (He' : e' = Z.div2 (53 + ex + 1) - 53 /\ -47 <= e' <= -37
                /\ (ex - 2 * e' = 52 \/ ex - 2 * e' = 53)
                /\ (e' = -47 -> ex = -41 /\ ex - 2 * e' = 53)).
  { subst e'. rewrite !Z.div2_div. Z.to_euclidean_division_equations. lia. }
  destruct He' as (_ & He'r & Hs & He'47).
  set (s := ex - 2 * e') in *.
  assert (Hm' : (match s with
                 | Z.pos _ => Z.shiftl (Z.pos mx) s
                 | 0 => Z.pos mx
                 | Z.neg _ => 0
                 end) = Z.pos mx * 2 ^ s).
  { destruct s as [|p|p]; try lia. apply Z.shiftl_mul_pow2. lia. }
  rewrite Hm'. clear Hm'.
  pose proof (Z.sqrtrem_sqrt (Z.pos mx * 2 ^ s)) as Hq.
  destruct (Z.sqrtrem (Z.pos mx * 2 ^ s)) as [q r]. cbn [fst] in Hq.
  assert (Hqb : 2 ^ 52 <= q < 2 ^ 53
                /\ (e' = -47 -> 91 * 2 ^ 46 <= q)).
  { rewrite Hq. split; [split|].
    - change (2 ^ 52) with (Z.sqrt (2 ^ 52 * 2 ^ 52)).
      apply Z.sqrt_le_mono. destruct Hs as [-> | ->]; lia.
    - apply Z.sqrt_lt_square; [lia|lia|]. destruct Hs as [-> | ->]; lia.
    - intros E. destruct (He'47 E) as [E1 E2]. rewrite E2.
      specialize (Hlow E1).
      apply Z.sqrt_le_square; [lia|lia|]. lia. }
  destruct Hqb as [Hqb Hq47].
  destruct q as [|qp|qp]; [lia| |lia].
  assert (HDq : Z.pos (digits2_pos qp) = 53)
    by (apply (digits2_eq qp 52); lia).
  match goal with
  | |- context [binary_round_aux prec emax false (Z.pos qp) e' ?l] =>
      destruct (binary_round_aux_spec qp e' l) as (mr & er & E & Hmr & Hcase)
  end.
  - lia.
  - lia.
  - exists mr, er. rewrite HDq in Hcase.
    change (2 ^ (53 - 53)) with 1 in Hcase. rewrite Z.div_1_r in Hcase.
    split; [exact E|]. split; [exact Hmr|]. split; [lia|].
    intros E47. destruct Hcase as [[Ee Hge] | Ee]; [|lia].
    assert (e' = -47) by lia. specialize (Hq47 H). lia.
Qed.

(** Twice a double between [2^5] and [2^16]. *)
Lemma SFmul_two_bound (mr : positive) (er : Z) :
  2 ^ 52 <= Z.pos mr < 2 ^ 53 -> -47 <= er <= -36 ->
  (er = -47 -> 91 * 2 ^ 46 <= Z.pos mr) ->
  exists my ey,
    SF64mul (Prim2SF 2) (S754_finite false mr er) = S754_finite false my ey
    /\ 2 ^ 52 <= Z.pos my < 2 ^ 53
    /\ -46 <= ey <= -34
    /\ (ey = -46 -> 91 * 2 ^ 46 <= Z.pos my).
Proof.
  intros Hmr Her Hlow.
  change (Prim2SF 2) with (S754_finite false 4503599627370496 (-51)).
  unfold SF64mul, SFmul. cbn [xorb].
  set (P := (4503599627370496 * mr)%positive).
  assert (HP : Z.pos P = 2 ^ 52 * Z.pos mr) by (subst P; now rewrite Pos2Z.inj_mul).
  assert (HD : Z.pos (digits2_pos P) = 105)
    by (apply (digits2_eq P 104); lia).
  destruct (binary_round_aux_spec P (-51 + er) loc_Exact)
    as (my & ey & E & Hmy & Hcase); [lia|lia|].
  exists my, ey. rewrite HD, HP in Hcase.
  change (105 - 53) with 52 in Hcase.
  rewrite Z.mul_comm, Z.div_mul in Hcase by lia.
  split; [exact E|]. split; [exact Hmy|]. split; [lia|].
  intros E46. destruct Hcase as [[Ee Hge] | Ee]; [|lia].
  assert (er = -47) by lia. specialize (Hlow H). lia.
Qed.

(** Ten plus a double between [2^6] and [2^19]. *)
Lemma SFadd_ten_bound (my : positive) (ey : Z) :
  2 ^ 52 <= Z.pos my < 2 ^ 53 -> -46 <= ey <= -34 ->
  (ey = -46 -> 91 * 2 ^ 46 <= Z.pos my) ->
  exists mz ez,
    SF64add (Prim2SF 10) (S754_finite false my ey) = S754_finite false mz ez
    /\ 2 ^ 52 <= Z.pos mz < 2 ^ 53
    /\ -46 <= ez <= -32
    /\ (ez = -46 -> 101 * 2 ^ 46 <= Z.pos mz).
Proof.
  intros Hmy Hey Hlow.
  change (Prim2SF 10) with (S754_finite false 5629499534213120 (-49)).
  unfold SF64add, SFadd.
  replace (Z.min (-49) ey) with (-49) by lia.
  unfold shl_align. change (-49 - -49) with 0. cbn [fst cond_Zopp].
  destruct (-49 - ey) as [|d|d] eqn:Ed; [lia|lia|]. cbn [fst].
  cbn [Z.add binary_normalize]. unfold binary_round.
  set (S := (5629499534213120 + Pos.iter xO my d)%positive).
  assert (HS : Z.pos S = 10 * 2 ^ 49 + Z.pos my * 2 ^ Z.pos d)
    by (subst S; rewrite Pos2Z.inj_add, iter_xO_val; reflexivity).
  assert (Hd : 3 <= Z.pos d <= 15) by lia.
  assert (Hpow : 2 ^ 3 <= 2 ^ Z.pos d <= 2 ^ 15)
    by (split; apply Z.pow_le_mono_r; lia).
  assert (HDS : 56 <= Z.pos (digits2_pos S) <= 69).
  { split.
    - apply (digits2_ge S 55); [lia|]. rewrite HS. nia.
    - apply (digits2_le S 69); [lia|]. rewrite HS. nia. }
  unfold shl_align. rewrite fexp_normal by lia.
  destruct (Z.pos (digits2_pos S) + -49 - 53 - -49) as [|t|t] eqn:Et;
    [lia| |lia].
  destruct (binary_round_aux_spec S (-49) loc_Exact)
    as (mz & ez & E & Hmz & Hcase); [lia|lia|].
  exists mz, ez. split; [exact E|]. split; [exact Hmz|]. split; [lia|].
  intros E46. destruct Hcase as [[Ee Hge] | Ee]; [|lia].
  assert (HD56 : Z.pos (digits2_pos S) = 56) by lia.
  rewrite HD56 in Hge. change (2 ^ (56 - 53)) with 8 in Hge.
  destruct (digits2_bounds S) as [_ HSu]. rewrite HD56, HS in HSu.
  assert (Hd3 : Z.pos d = 3).
  { destruct (Z.eq_dec (Z.pos d) 3) as [|Hne]; [assumption|].
    assert (2 ^ 4 <= 2 ^ Z.pos d) by (apply Z.pow_le_mono_r; lia). nia. }
  rewrite Hd3 in HS. specialize (Hlow ltac:(lia)).
  eapply Z.le_trans; [|exact Hge].
  apply Z.div_le_lower_bound; [lia|]. rewrite HS. lia.
Qed.

(** The conversion to [int] of a double between [2^6] and [2^21]. *)
Lemma int_of_double_bound (z : float) (mz : positive) (ez : Z) :
  Prim2SF z = S754_finite false mz ez ->
  2 ^ 52 <= Z.pos mz < 2 ^ 53 -> -46 <= ez <= -32 ->
  (ez = -46 -> 101 * 2 ^ 46 <= Z.pos mz) ->
  101 <= int_of_double z.
Proof.
  intros E Hmz Hez Hlow. unfold int_of_double. rewrite E.
  replace (0 <=? ez) with false by (symmetry; apply Z.leb_gt; lia).
  apply Z.div_le_lower_bound; [apply Z.pow_pos_nonneg; lia|].
  destruct (Z.eq_dec ez (-46)) as [-> | Hne]; [specialize (Hlow eq_refl); cbn in *; lia|].
  assert (2 ^ (- ez) <= 2 ^ 45) by (apply Z.pow_le_mono_r; lia).
  lia.
Qed.

(** From 2071 on, [10. + 2. * sqrt(dim)] converts to at least 101. *)
Lemma swarm_size_large (n : Z) :
  2071 <= n <= INT_MAX ->
  101 <= int_of_double (10 + 2 * PrimFloat.sqrt (double_of_int n))%float.
Proof.
  intros Hn. unfold INT_MAX in Hn.
  destruct (double_of_int_spec n ltac:(lia)) as (mx & ex & Ex & HDx & Hex & Hmx).
  assert (Hlog : 11 <= Z.log2 n < 31).
  { split; [apply Z.log2_le_pow2; lia|apply Z.log2_lt_pow2; lia]. }
  destruct (SFsqrt_bound mx ex HDx ltac:(lia)) as (mr & er & Er & Hmr & Her & Hr).
  { intros E. rewrite Hmx. replace (Z.log2 n) with 11 by lia.
    change (52 - 11) with 41. lia. }
  destruct (SFmul_two_bound mr er Hmr Her Hr) as (my & ey & Ey & Hmy & Hey & Hy).
  destruct (SFadd_ten_bound my ey Hmy Hey Hy) as (mz & ez & Ez & Hmz & Hez & Hz).
  apply (int_of_double_bound _ mz ez); try assumption.
  rewrite FloatAxioms.add_spec, FloatAxioms.mul_spec, FloatAxioms.sqrt_spec, Ex.
  rewrite Er, Ey. exact Ez.
Qed.

End Binary64.

(** ** The default swarm size *)

Lemma check_from_sound (test : Z -> bool) (fuel : nat) (d x : Z) :
  check_from test fuel d = true -> d <= x < d + Z.of_nat fuel -> test x = true.
Proof.
  revert d. induction fuel as [|fuel IH]; intros d H Hx; [lia|].
  cbn in H. apply andb_prop in H. destruct H as [Hd Hrest].
  destruct (Z.eq_dec x d) as [-> | Hne]; [exact Hd|].
  apply (IH (d + 1)); [exact Hrest|lia].
Qed.

(** C8, as stated, fails: for [dim = 2] the value [10 + 2*sqrt(2)] is
    12.83, whose nearest integer is 13; the conversion to [int] truncates
    and the factory sets the size 12. *)
Lemma swarm_size_truncates :
  size (pso_settings_new 0 2 (-1) 1) <> spec_swarm_size 2
  /\ spec_swarm_size 2 = 13 /\ pso_calc_swarm_size 2 = 12.
Proof.
  split; [|split; now vm_compute].
  intros H. vm_compute in H. discriminate.
Qed.

(** The swarm size is the integer part of [10 + 2*sqrt(dim)], capped at
    100: by evaluation up to 2070, by the bounds of [Binary64] from there. *)
Lemma pso_calc_swarm_size_floor (dim : Z) :
  0 < dim <= INT_MAX -> pso_calc_swarm_size dim = floor_swarm_size dim.
Proof.
  intros H. destruct (Z_le_gt_dec dim 2070) as [Hs | Hl].
  - apply Z.eqb_eq.
    apply (check_from_sound
             (fun d => pso_calc_swarm_size d =? floor_swarm_size d)
             (Z.to_nat 2070) 1); [now vm_compute|lia].
  - pose proof (Binary64.swarm_size_large dim ltac:(lia)) as Hsize.
    unfold pso_calc_swarm_size, floor_swarm_size, PSO_MAX_SIZE.
    replace (100 <? _) with true by (symmetry; apply Z.ltb_lt; lia).
    assert (91 <= Z.sqrt (4 * dim)).
    { change 91 with (Z.sqrt (91 * 91)). apply Z.sqrt_le_mono. lia. }
    lia.
Qed.

(** C8, amended: for every positive [int] [dim] the default swarm size set
    by the factory is the integer part of [10 + 2*sqrt(dim)], capped at
    100: the conversion to [int] truncates. *)
Theorem pso_settings_new_size (step0 dim : Z) (lo hi : float) :
  0 < dim <= INT_MAX ->
  size (pso_settings_new step0 dim lo hi) = floor_swarm_size dim.
Proof. intros H. cbn [pso_settings_new size]. now apply pso_calc_swarm_size_floor. Qed.

Lemma pso_settings_new_size_witness :
  size (pso_settings_new 0 30 (-1) 1) = floor_swarm_size 30
  /\ size (pso_settings_new 0 3000 (-1) 1) = floor_swarm_size 3000.
Proof.
  split; [apply (pso_settings_new_size 0 30)
         |apply (pso_settings_new_size 0 3000)]; unfold INT_MAX; lia.
Defined.

(** ** Invariants of the state over the main loop *)

(** A predicate on the state that the parts of a pass keep is kept by the
    pass, by the main loop, and holds at every loop head. *)
Section StateInvariant.
Variable L : libc.
Variable obj_fun : pso_obj_fun_t.
Variable Q : swarm -> Prop.
Variable n : Z.
Hypothesis Q_size : forall st, Q st -> size (settings st) = n.
Hypothesis Q_step :
  forall k st, Q st -> Q (set_settings (set_step k (settings st)) st).
Hypothesis Q_w : forall x st, Q st -> Q (set_w x st).
Hypothesis Q_improved : forall st, Q st -> Q (set_improved 0 st).
Hypothesis Q_update :
  forall i st, 0 <= i < n -> Q st -> Q (update_particle L obj_fun i st).
Variable f : inform_fun_t.
Hypothesis Q_inform : forall st, Q st -> Q (f st).

Lemma loop_body_Q c k st : Q st -> Q (fst (loop_body L obj_fun f c k st)).
Proof.
  intros H. unfold loop_body.
  set (st1 := set_settings (set_step k (settings st)) st).
  set (st2 := match c with Some g => set_w (g k (settings st1)) st1
                         | None => st1 end).
  assert (H2 : Q st2) by (subst st2 st1; destruct c; auto).
  destruct (_ <=? _)%float; cbn [fst]; [exact H2|].
  set (st3 := set_improved 0 (f st2)).
  assert (H3 : Q st3) by (subst st3; auto).
  rewrite (Q_size _ H3).
  apply for_loop_inv; [exact H3|]. intros i s Hi Hs. now apply Q_update.
Qed.

Lemma main_loop_Q c m k st : Q st -> Q (main_loop L obj_fun f c m k st).
Proof.
  revert k st. induction m as [|m IH]; intros k st H; cbn; auto.
  pose proof (loop_body_Q c k st H) as Hb.
  destruct (loop_body L obj_fun f c k st) as [st' go]. cbn in Hb.
  destruct go; auto.
Qed.

End StateInvariant.

Section StateInvariantHeads.
Variable L : libc.
Variable obj_fun : pso_obj_fun_t.
Variable Q : swarm -> Prop.
Variable f : inform_fun_t.
Variable c : option inertia_fun_t.
Hypothesis Q_body :
  forall k st, Q st -> Q (fst (loop_body L obj_fun f c k st)).

Lemma loop_head_Q st0 k st :
  Q st0 -> loop_head L obj_fun f c st0 k = Some st -> Q st.
Proof.
  intros H0. revert st. induction k as [|k IH]; intros st; cbn [loop_head].
  - now intros [= <-].
  - destruct (loop_head L obj_fun f c st0 k) as [s1|]; [|discriminate].
    destruct (_ <? _); [|discriminate].
    pose proof (Q_body (Z.of_nat k) s1 (IH _ eq_refl)) as Hb.
    destruct (loop_body L obj_fun f c (Z.of_nat k) s1) as [st' go].
    destruct go; [|discriminate]. now intros [= <-].
Qed.
End StateInvariantHeads.

Section MoreFrames.
Variable L : libc.
Variable obj_fun : pso_obj_fun_t.

Lemma init_dim_comm i d st : comm (init_dim L i d st) = comm st.
Proof. open_body. Qed.

Lemma init_dim_fit_b i d st : fit_b (init_dim L i d st) = fit_b st.
Proof. open_body. Qed.

Lemma init_particle_comm i st : comm (init_particle L obj_fun i st) = comm st.
Proof.
  unfold init_particle. cbn.
  match goal with |- context [if ?b then _ else _] => destruct b end; cbn;
    apply for_loop_proj; intros; apply init_dim_comm.
Qed.

Lemma inform_global_comm st : comm (inform_global st) = comm st.
Proof. unfold inform_global. now apply for_loop_proj. Qed.

Lemma inform_global_fit_b st : fit_b (inform_global st) = fit_b st.
Proof. unfold inform_global. now apply for_loop_proj. Qed.

Lemma inform_global_pos st : pos (inform_global st) = pos st.
Proof. unfold inform_global. now apply for_loop_proj. Qed.

Lemma init_comm_random_fit_b st : fit_b (init_comm_random L st) = fit_b st.
Proof.
  unfold init_comm_random.
  rewrite for_loop_proj; [reflexivity|]. intros i s.
  rewrite for_loop_proj; [reflexivity|]. intros; open_body.
Qed.

Lemma inform_random_fit_b st : fit_b (inform_random L st) = fit_b st.
Proof.
  unfold inform_random. destruct (negb (truthy (improved st))); cbn;
    auto using init_comm_random_fit_b.
Qed.

Lemma inform_random_pos st : pos (inform_random L st) = pos st.
Proof.
  unfold inform_random. destruct (negb (truthy (improved st))); cbn;
    auto using init_comm_random_pos.
Qed.

Lemma pso_init_comm sol s :
  comm (fst (pso_init L obj_fun sol s))
  = comm (fst (select_inform L (pso_alloc sol s))).
Proof.
  unfold pso_init, pso_setup.
  destruct (select_inform L (pso_alloc sol s)) as [st f]. cbn.
  now rewrite for_loop_proj by (intros; apply init_particle_comm).
Qed.

End MoreFrames.

(** X1: under the ring topology the connectivity matrix is built once, before
    the initialisation: at every loop head and at the end of the run it is the
    matrix [init_comm_ring] builds. *)
Theorem ring_graph_static (L : libc) (obj_fun : pso_obj_fun_t)
    (sol : pso_result_t) (s : pso_settings_t) :
  nhood_strategy s = PSO_NHOOD_RING ->
  comm (pso_run L obj_fun sol s) = init_comm_ring s
  /\ forall k st, pso_loop_head L obj_fun sol s k = Some st ->
                  comm st = init_comm_ring s.
Proof.
  intros Hr.
  pose proof (pso_init_comm L obj_fun sol s) as Hc.
  pose proof (pso_init_settings L obj_fun sol s) as [Hs _].
  assert (Hf : snd (pso_init L obj_fun sol s) = inform_ring).
  { unfold pso_init, pso_setup, select_inform. cbn. rewrite Hr. reflexivity. }
  assert (Hc' : comm (fst (pso_init L obj_fun sol s)) = init_comm_ring s).
  { rewrite Hc. unfold select_inform. cbn. rewrite Hr. reflexivity. }
  unfold pso_run, pso_loop_head.
  destruct (pso_init L obj_fun sol s) as [st0 f]. cbn [fst snd] in *. subst f.
  set (Q := fun st : swarm =>
              comm st = init_comm_ring s /\ size (settings st) = size s).
  assert (Hbody : forall c k st, Q st ->
            Q (fst (loop_body L obj_fun inform_ring c k st))).
  { intros c k st. apply (loop_body_Q L obj_fun Q (size s)); subst Q; cbn.
    - now intros ? [_ ?].
    - auto.
    - auto.
    - auto.
    - intros i st1 _ [H1 H2].
      now rewrite update_particle_comm, update_particle_settings.
    - auto. }
  assert (H0 : Q st0) by (subst Q; cbn; now rewrite Hs).
  split.
  - apply (main_loop_Q L obj_fun Q (size s)); subst Q; cbn; auto.
    + now intros ? [_ ?].
    + intros i st1 _ [H1 H2].
      now rewrite update_particle_comm, update_particle_settings.
  - intros k st H.
    apply (loop_head_Q L obj_fun Q inform_ring _ (Hbody _) st0 k st H0 H).
Qed.

Lemma ring_graph_static_witness :
  comm (pso_run libc_lcg sphere result_demo settings_demo)
  = init_comm_ring settings_demo
  /\ forall k st,
       pso_loop_head libc_lcg sphere result_demo settings_demo k = Some st ->
       comm st = init_comm_ring settings_demo.
Proof.
  apply (ring_graph_static libc_lcg sphere result_demo settings_demo).
  reflexivity.
Defined.

(** ** The arrays of the swarm over a run *)

Section ShapeFacts.

Lemma memmove_full {A : Type} (dst src : list A) (n : Z) :
  length src = Z.to_nat n -> length dst = Z.to_nat n -> memmove dst src n = src.
Proof.
  intros Hs Hd. unfold memmove.
  rewrite firstn_all2, skipn_all2 by lia. apply app_nil_r.
Qed.

Lemma get_ext {A : Type} (x : A) (a b : list A) :
  length a = length b ->
  (forall d, 0 <= d < Z.of_nat (length a) -> get x a d = get x b d) -> a = b.
Proof.
  intros Hl H. apply (nth_ext a b x x Hl). intros n Hn.
  specialize (H (Z.of_nat n) ltac:(lia)). unfold get in H.
  destruct (Z.of_nat n <? 0) eqn:E; [lia|]. now rewrite Nat2Z.id in H.
Qed.

Lemma get2_set2_other_dim (m : matrix) (i d d' : Z) (v : float) :
  0 <= i < Z.of_nat (length m) -> d <> d' ->
  get2 (set2 m i d v) i d' = get2 m i d'.
Proof.
  intros Hi Hd. unfold get2, set2. rewrite get_upd_same by exact Hi.
  now apply get_upd_other.
Qed.

Lemma same_shape_refl (m : matrix) : same_shape m m.
Proof. split; reflexivity. Qed.

Lemma same_shape_trans (m1 m2 m3 : matrix) :
  same_shape m1 m2 -> same_shape m2 m3 -> same_shape m1 m3.
Proof.
  intros [H1 H2] [H3 H4]. split; [congruence|].
  intros j. now rewrite H4, H2.
Qed.

Lemma same_shape_set2 (m : matrix) (i d : Z) (v : float) :
  0 <= i < Z.of_nat (length m) -> same_shape m (set2 m i d v).
Proof.
  intros Hi. split; [apply length_set2|]. intros j.
  destruct (Z.eq_dec i j) as [<- | Hne].
  - now apply length_get_set2.
  - now rewrite get_set2_other.
Qed.

Lemma same_shape_set2_2 (m : matrix) (i d : Z) (v v' : float) :
  0 <= i < Z.of_nat (length m) ->
  same_shape m (set2 (set2 m i d v) i d v').
Proof.
  intros Hi. eapply same_shape_trans; [apply same_shape_set2; exact Hi|].
  apply same_shape_set2. now rewrite length_set2.
Qed.

End ShapeFacts.

Section MoveShape.
Variable L : libc.

Lemma move_dim_pos_shape (i d : Z) (st : swarm) :
  0 <= i < Z.of_nat (length (pos st)) ->
  same_shape (pos st) (pos (move_dim L i d st)).
Proof.
  intros Hi. unfold move_dim, bound_dim, advance_dim, RNG_UNIFORM, rand. cbn.
  repeat match goal with
         | |- context [if ?b then _ else _] => destruct b
         end; cbn;
    first [apply same_shape_set2_2; exact Hi | apply same_shape_set2; exact Hi].
Qed.

Lemma move_dims_pos_shape (i : Z) (st : swarm) :
  0 <= i < Z.of_nat (length (pos st)) ->
  same_shape (pos st) (pos (for_loop (dim (settings st)) (move_dim L i) st)).
Proof.
  intros Hi.
  apply (for_loop_inv (fun s1 => same_shape (pos st) (pos s1)));
    [apply same_shape_refl|].
  intros d s1 _ H. eapply same_shape_trans; [exact H|].
  apply move_dim_pos_shape. destruct H as [H _]. now rewrite H.
Qed.

End MoveShape.

Section RunState.
Variable L : libc.
Variable obj_fun : pso_obj_fun_t.
Variable s : pso_settings_t.
Variable g0 : list float.

Lemma move_dims_run_invariant (i : Z) (st : swarm) :
  0 <= i < size s ->
  run_invariant obj_fun s g0 st ->
  run_invariant obj_fun s g0 (for_loop (dim (settings st)) (move_dim L i) st).
Proof.
  intros Hi ((Hn & Hd) & (Hlp & Hlb & Hlf) & Hrows & Hfit & Hle & Hsol).
  destruct (move_dims_pos_shape L i st ltac:(lia)) as [Sl Sr].
  set (moved := for_loop (dim (settings st)) (move_dim L i) st) in *.
  assert (Es : settings moved = settings st)
    by (apply for_loop_proj; intros; apply move_dim_settings).
  assert (Eo : solution moved = solution st)
    by (apply for_loop_proj; intros; apply move_dim_solution).
  assert (Ef : fit_b moved = fit_b st)
    by (apply for_loop_proj; intros; apply move_dim_fit_b).
  assert (Eb : pos_b moved = pos_b st)
    by (apply for_loop_proj; intros; apply move_dim_pos_b).
  unfold run_invariant. rewrite Es, Eo, Ef, Eb, Sl.
  split; [now split|]. split; [now repeat split|].
  split; [|split; [exact Hfit|split; [exact Hle|exact Hsol]]].
  intros j Hj. rewrite Sr. now apply Hrows.
Qed.

Lemma evaluate_particle_run_invariant (i : Z) (st : swarm) :
  0 <= i < size s ->
  run_invariant obj_fun s g0 st ->
  run_invariant obj_fun s g0 (evaluate_particle obj_fun i st).
Proof.
  intros Hi ((Hn & Hd) & (Hlp & Hlb & Hlf) & Hrows & Hfit & Hle & Hsol).
  destruct (Hrows i Hi) as [Hri Hrbi].
  unfold evaluate_particle. rewrite Hd.
  set (f := obj_fun (get [] (pos st) i) (dim s)).
  cbn.
  assert (Hmm : forall g, length g = Z.to_nat (dim s) ->
                  memmove g (get [] (pos st) i) (dim s) = get [] (pos st) i)
    by (intros g Hgl; now apply memmove_full).
  destruct (f <? get 0%float (fit_b st) i)%float eqn:Eb; cbn;
    destruct (f <? error (solution st))%float eqn:Ee; cbn;
    unfold run_invariant; cbn; rewrite ?length_upd, ?Hmm by assumption;
    (split; [now split|]); (split; [now repeat split|]).
  - (* both bests are replaced *)
    split; [|split; [|split; [|intros Hg0; destruct (Hsol Hg0) as [Hg _];
                                rewrite Hmm by exact Hg;
                                split; [exact Hri|now right]]]].
    + intros j Hj. split; [now apply Hrows|].
      destruct (Z.eq_dec i j) as [<- | Hne];
        [now rewrite get_upd_same by lia|].
      rewrite get_upd_other by exact Hne. now apply Hrows.
    + intros j Hj. destruct (Z.eq_dec i j) as [<- | Hne].
      * now rewrite !get_upd_same by lia.
      * rewrite !get_upd_other by exact Hne. now apply Hfit.
    + intros j Hj. destruct (Z.eq_dec i j) as [<- | Hne].
      * rewrite get_upd_same by lia. apply FloatOrder.ltb_irrefl.
      * rewrite get_upd_other by exact Hne.
        destruct (get 0%float (fit_b st) j <? f)%float eqn:E; [|reflexivity].
        rewrite <- (Hle j Hj). symmetry.
        eapply FloatOrder.ltb_trans; eassumption.
  - (* the personal best only *)
    split; [|split; [|split; [|exact Hsol]]].
    + intros j Hj. split; [now apply Hrows|].
      destruct (Z.eq_dec i j) as [<- | Hne];
        [now rewrite get_upd_same by lia|].
      rewrite get_upd_other by exact Hne. now apply Hrows.
    + intros j Hj. destruct (Z.eq_dec i j) as [<- | Hne].
      * now rewrite !get_upd_same by lia.
      * rewrite !get_upd_other by exact Hne. now apply Hfit.
    + intros j Hj. destruct (Z.eq_dec i j) as [<- | Hne].
      * now rewrite get_upd_same by lia.
      * rewrite get_upd_other by exact Hne. now apply Hle.
  - (* the global best only *)
    split; [exact Hrows|]. split; [exact Hfit|].
    split; [|intros Hg0; destruct (Hsol Hg0) as [Hg _];
              rewrite Hmm by exact Hg; split; [exact Hri|now right]].
    intros j Hj.
    destruct (get 0%float (fit_b st) j <? f)%float eqn:E; [|reflexivity].
    rewrite <- (Hle j Hj). symmetry.
    eapply FloatOrder.ltb_trans; eassumption.
  - (* neither *)
    split; [exact Hrows|]. split; [exact Hfit|]. split; [exact Hle|].
    exact Hsol.
Qed.

Lemma update_particle_run_invariant (i : Z) (st : swarm) :
  0 <= i < size s ->
  run_invariant obj_fun s g0 st ->
  run_invariant obj_fun s g0 (update_particle L obj_fun i st).
Proof.
  intros Hi H. unfold update_particle.
  apply evaluate_particle_run_invariant; [exact Hi|].
  now apply move_dims_run_invariant.
Qed.

Lemma run_invariant_frame (st st' : swarm) :
  size (settings st') = size (settings st) ->
  dim (settings st') = dim (settings st) ->
  solution st' = solution st -> pos st' = pos st -> pos_b st' = pos_b st ->
  fit_b st' = fit_b st ->
  run_invariant obj_fun s g0 st -> run_invariant obj_fun s g0 st'.
Proof.
  intros E1 E2 E3 E4 E5 E6. unfold run_invariant.
  now rewrite E1, E2, E3, E4, E5, E6.
Qed.

Lemma loop_body_run_invariant f c k st :
  keeps_particles f ->
  run_invariant obj_fun s g0 st ->
  run_invariant obj_fun s g0 (fst (loop_body L obj_fun f c k st)).
Proof.
  intros Hf.
  apply (loop_body_Q L obj_fun (run_invariant obj_fun s g0) (size s)).
  - now intros st1 ((H & _) & _).
  - intros j st1. now apply run_invariant_frame.
  - intros x st1. now apply run_invariant_frame.
  - intros st1. now apply run_invariant_frame.
  - intros i st1. apply update_particle_run_invariant.
  - intros st1. destruct (Hf st1) as (E1 & E2 & E3 & E4 & E5).
    apply run_invariant_frame; congruence.
Qed.

Lemma main_loop_run_invariant f c m k st :
  keeps_particles f ->
  run_invariant obj_fun s g0 st ->
  run_invariant obj_fun s g0 (main_loop L obj_fun f c m k st).
Proof.
  intros Hf. revert k st. induction m as [|m IH]; intros k st H; [exact H|].
  cbn [main_loop].
  pose proof (loop_body_run_invariant f c k st Hf H) as Hb.
  destruct (loop_body L obj_fun f c k st) as [st' go]. cbn [fst] in Hb.
  destruct go; [now apply IH|exact Hb].
Qed.

End RunState.

Section InitPbest.
Variable L : libc.
Variable obj_fun : pso_obj_fun_t.

Lemma init_comm_random_pos_b st : pos_b (init_comm_random L st) = pos_b st.
Proof.
  unfold init_comm_random.
  rewrite for_loop_proj; [reflexivity|]. intros i s.
  rewrite for_loop_proj; [reflexivity|]. intros; open_body.
Qed.

Lemma select_inform_pbest st :
  pos_b (fst (select_inform L st)) = pos_b st
  /\ fit_b (fst (select_inform L st)) = fit_b st.
Proof.
  unfold select_inform.
  repeat match goal with |- context [if ?b then _ else _] => destruct b end;
    cbn; auto using init_comm_random_pos_b, init_comm_random_fit_b.
Qed.

(** The loop over the dimensions of particle [k] leaves [pos_b[k]] equal,
    cell by cell, to [pos[k]]. *)
Lemma init_dims_pbest (k : Z) (st : swarm) :
  0 <= k < Z.of_nat (length (pos st)) ->
  0 <= k < Z.of_nat (length (pos_b st)) ->
  length (get [] (pos st) k) = Z.to_nat (dim (settings st)) ->
  length (get [] (pos_b st) k) = Z.to_nat (dim (settings st)) ->
  let st1 := for_loop (dim (settings st)) (init_dim L k) st in
  fit_b st1 = fit_b st
  /\ same_shape (pos_b st) (pos_b st1)
  /\ (forall j, j <> k -> get [] (pos_b st1) j = get [] (pos_b st) j)
  /\ get [] (pos_b st1) k = get [] (pos st1) k.
Proof.
  intros Hk Hkb Hr Hrb st1.
  destruct (Z.le_gt_cases 0 (dim (settings st))) as [Hd | Hd].
  - assert (H : fit_b st1 = fit_b st
                /\ same_shape (pos_b st) (pos_b st1)
                /\ same_shape (pos st) (pos st1)
                /\ (forall j, j <> k -> get [] (pos_b st1) j = get [] (pos_b st) j)
                /\ forall d, 0 <= d < dim (settings st) ->
                             get2 (pos_b st1) k d = get2 (pos st1) k d).
    { subst st1.
      apply (for_loop_ind
               (fun d' s1 =>
                  fit_b s1 = fit_b st
                  /\ same_shape (pos_b st) (pos_b s1)
                  /\ same_shape (pos st) (pos s1)
                  /\ (forall j, j <> k -> get [] (pos_b s1) j = get [] (pos_b st) j)
                  /\ forall d, 0 <= d < d' ->
                               get2 (pos_b s1) k d = get2 (pos s1) k d));
        [exact Hd| |].
      - repeat split; try reflexivity. intros d Hd0. lia.
      - intros d' s1 Hd' (Hf & Sb & Sp & Ho & Hc).
        assert (Hkb1 : 0 <= k < Z.of_nat (length (pos_b s1)))
          by (destruct Sb as [-> _]; exact Hkb).
        assert (Hk1 : 0 <= k < Z.of_nat (length (pos s1)))
          by (destruct Sp as [-> _]; exact Hk).
        unfold init_dim, RNG_UNIFORM, rand. cbn.
        split; [exact Hf|]. split; [|split; [|split]].
        + eapply same_shape_trans; [exact Sb|]. now apply same_shape_set2.
        + eapply same_shape_trans; [exact Sp|]. now apply same_shape_set2.
        + intros j Hj. rewrite get_set2_other by congruence. now apply Ho.
        + intros d Hd0. destruct (Z.eq_dec d d') as [-> | Hne].
          * rewrite !get2_set2_same; [reflexivity| |].
            -- split; [exact Hk1|]. destruct Sp as [_ ->]. lia.
            -- split; [exact Hkb1|]. destruct Sb as [_ ->]. lia.
          * rewrite !get2_set2_other_dim by (assumption || congruence).
            apply Hc. lia. }
    destruct H as (Hf & Sb & Sp & Ho & Hc).
    split; [exact Hf|]. split; [exact Sb|]. split; [exact Ho|].
    apply (get_ext 0%float).
    + destruct Sb as [_ ->], Sp as [_ ->]. congruence.
    + intros d Hd0. apply Hc. destruct Sb as [_ Sb]. rewrite Sb, Hrb in Hd0. lia.
  - subst st1. unfold for_loop.
    replace (Z.to_nat (dim (settings st))) with 0%nat in * by lia. cbn.
    split; [reflexivity|]. split; [apply same_shape_refl|].
    split; [reflexivity|].
    destruct (get [] (pos st) k), (get [] (pos_b st) k); try discriminate.
    reflexivity.
Qed.

Lemma init_particle_pbest (s : pso_settings_t) (g0 : list float)
    (k : Z) (st : swarm) :
  0 <= k < size s ->
  init_invariant obj_fun s g0 k st ->
  init_pbest_invariant s k st ->
  init_pbest_invariant s (k + 1) (init_particle L obj_fun k st).
Proof.
  intros Hk (Hset & Hlp & Hlf & Hrows & _) (Hlb & Hlfb & Hrowsb & Heq).
  assert (Hkp : 0 <= k < Z.of_nat (length (pos st))) by lia.
  assert (Hkb : 0 <= k < Z.of_nat (length (pos_b st))) by lia.
  destruct (init_dims_row L k st Hkp) as (Ef & _ & _ & _ & _ & _ & Eo).
  destruct (init_dims_pbest k st Hkp Hkb) as (Efb & [Sl Sr] & Eob & Erow);
    [rewrite Hset; now apply Hrows|rewrite Hset; now apply Hrowsb|].
  unfold init_particle. rewrite Hset in *.
  set (st1 := for_loop (dim s) (init_dim L k) st) in *.
  set (f := obj_fun (get [] (pos st1) k) (dim s)).
  assert (G : init_pbest_invariant s (k + 1)
                (set_fit_b (upd (fit_b st1) k f)
                   (log (Evaluated k f) (set_fit (upd (fit st1) k f) st1)))).
  { unfold init_pbest_invariant. cbn. rewrite length_upd, Efb, Sl.
    split; [exact Hlb|]. split; [exact Hlfb|]. split.
    - intros j Hj. rewrite Sr. now apply Hrowsb.
    - intros i Hi. destruct (Z.eq_dec i k) as [-> | Hne].
      + split; [exact Erow|]. rewrite !get_upd_same by (rewrite ?Ef; lia).
        reflexivity.
      + rewrite Eob, Eo by exact Hne.
        rewrite !get_upd_other by congruence. rewrite Ef.
        apply Heq. lia. }
  cbn. match goal with |- context [if ?b then _ else _] => destruct b end;
    exact G.
Qed.

Lemma pso_setup_pbest (sol : pso_result_t) (s : pso_settings_t) :
  init_pbest_invariant s 0 (fst (pso_setup L sol s)).
Proof.
  unfold pso_setup.
  pose proof (select_inform_pbest (pso_alloc sol s)) as [Hp Hf].
  destruct (select_inform L (pso_alloc sol s)) as [st f].
  cbn in Hp, Hf |- *.
  unfold init_pbest_invariant. cbn. rewrite Hp, Hf.
  unfold pso_matrix_new. rewrite !repeat_length.
  split; [reflexivity|]. split; [reflexivity|]. split.
  - intros j Hj. rewrite get_repeat by lia. apply repeat_length.
  - intros i Hi. lia.
Qed.

Lemma pso_init_pbest (sol : pso_result_t) (s : pso_settings_t) :
  0 <= size s ->
  init_pbest_invariant s (size s) (fst (pso_init L obj_fun sol s)).
Proof.
  intros Hn. unfold pso_init.
  pose proof (pso_setup_invariant L obj_fun sol s) as H0.
  pose proof (pso_setup_pbest sol s) as H1.
  destruct (pso_setup L sol s) as [st f]. cbn [fst] in *.
  assert (Es : settings st = s) by apply H0. rewrite Es.
  apply (for_loop_ind
           (fun k st1 => init_invariant obj_fun s (gbest sol) k st1
                         /\ init_pbest_invariant s k st1));
    [exact Hn|now split|].
  intros k st1 Hk [Ha Hb]. split.
  - now apply init_particle_invariant.
  - now apply (init_particle_pbest s (gbest sol)).
Qed.

Lemma pso_init_run_invariant (sol : pso_result_t) (s : pso_settings_t) :
  0 <= size s ->
  run_invariant obj_fun s (gbest sol) (fst (pso_init L obj_fun sol s)).
Proof.
  intros Hn.
  destruct (pso_init_invariant L obj_fun sol s Hn)
    as (Hset & Hlp & Hlf & Hrows & Hfit & Hbest).
  destruct (pso_init_pbest sol s Hn) as (Hlb & Hlfb & Hrowsb & Heq).
  set (st := fst (pso_init L obj_fun sol s)) in *. cbv zeta in Hfit, Hbest.
  unfold run_invariant. rewrite Hset.
  split; [now split|]. split; [now repeat split|]. split; [|split].
  - intros j Hj. split; [now apply Hrows|now apply Hrowsb].
  - intros j Hj. destruct (Heq j Hj) as [-> ->]. now apply Hfit.
  - destruct Hbest as [[Hs Hall] | (b & Hb & Hs & _ & Hall & _)];
      rewrite Hs; cbn.
    + split; [|intros Hg; split; [exact Hg|now left]].
      intros j Hj. destruct (Heq j Hj) as [_ ->]. now apply Hall.
    + split.
      * intros j Hj. destruct (Heq j Hj) as [_ ->]. now apply Hall.
      * intros Hg. rewrite memmove_full by (try apply Hrows; assumption).
        split; [now apply Hrows|right; now apply Hfit].
Qed.

Lemma pso_init_keeps_particles (sol : pso_result_t) (s : pso_settings_t) :
  keeps_particles (snd (pso_init L obj_fun sol s)).
Proof.
  unfold pso_init, pso_setup.
  pose proof (select_inform_cases L (pso_alloc sol s)) as H.
  destruct (select_inform L (pso_alloc sol s)) as [st f].
  destruct H as (_ & _ & _ & _ & Hf). cbn.
  destruct Hf as [-> | [-> | ->]]; intros st'.
  - repeat split; auto using inform_global_settings, inform_global_solution,
      inform_global_pos, inform_global_fit_b.
    unfold inform_global. now apply for_loop_proj.
  - repeat split.
  - repeat split; auto using inform_random_settings, inform_random_solution,
      inform_random_pos, inform_random_fit_b.
    unfold inform_random. destruct (negb (truthy (improved st'))); cbn;
      auto using init_comm_random_pos_b.
Qed.

Lemma pso_run_run_invariant (sol : pso_result_t) (s : pso_settings_t) :
  0 <= size s ->
  run_invariant obj_fun s (gbest sol) (pso_run L obj_fun sol s).
Proof.
  intros Hn.
  pose proof (pso_init_run_invariant sol s Hn) as H0.
  pose proof (pso_init_keeps_particles sol s) as Hf.
  unfold pso_run.
  destruct (pso_init L obj_fun sol s) as [st0 f]. cbn [fst snd] in *.
  now apply main_loop_run_invariant.
Qed.

End InitPbest.

(** ** The bests at the end of a run *)

(** X2: when the caller's buffer holds [dim] cells, the result is consistent:
    either nothing was ever strictly below [DBL_MAX] and the buffer is as the
    caller left it, or the returned error is the value of the objective at the
    returned position. *)
Theorem pso_solve_error_at_gbest (L : libc) (obj_fun : pso_obj_fun_t)
    (sol : pso_result_t) (s : pso_settings_t) :
  let r := fst (pso_solve L obj_fun sol s) in
  0 <= size s -> length (gbest sol) = Z.to_nat (dim s) ->
  length (gbest r) = Z.to_nat (dim s)
  /\ (r = mk_result DBL_MAX (gbest sol)
      \/ error r = obj_fun (gbest r) (dim s)).
Proof.
  cbv zeta. intros Hn Hg. unfold pso_solve. cbn [fst].
  destruct (pso_run_run_invariant L obj_fun sol s Hn) as (_ & _ & _ & _ & _ & H).
  exact (H Hg).
Qed.

Lemma pso_solve_error_at_gbest_witness :
  let r := fst (pso_solve libc_lcg sphere result_demo settings_demo) in
  length (gbest r) = Z.to_nat (dim settings_demo)
  /\ (r = mk_result DBL_MAX (gbest result_demo)
      \/ error r = sphere (gbest r) (dim settings_demo)).
Proof.
  apply (pso_solve_error_at_gbest libc_lcg sphere result_demo settings_demo).
  - cbn. lia.
  - reflexivity.
Defined.

(** X3: at the end of a run the personal best fitness of every particle is the
    value of the objective at its personal best position. *)
Theorem pso_run_pbest_is_objective (L : libc) (obj_fun : pso_obj_fun_t)
    (sol : pso_result_t) (s : pso_settings_t) (j : Z) :
  let st := pso_run L obj_fun sol s in
  0 <= j < size s ->
  get 0%float (fit_b st) j = obj_fun (get [] (pos_b st) j) (dim s).
Proof.
  cbv zeta. intros Hj.
  destruct (pso_run_run_invariant L obj_fun sol s ltac:(lia))
    as (_ & _ & _ & H & _).
  now apply H.
Qed.

Lemma pso_run_pbest_is_objective_witness :
  let st := pso_run libc_lcg sphere result_demo settings_demo in
  get 0%float (fit_b st) 1 = sphere (get [] (pos_b st) 1) (dim settings_demo).
Proof.
  apply (pso_run_pbest_is_objective libc_lcg sphere result_demo settings_demo 1).
  cbn. lia.
Defined.

(** X4: at the end of a run no personal best fitness is strictly below the
    returned error. *)
Theorem pso_run_pbest_not_below_error (L : libc) (obj_fun : pso_obj_fun_t)
    (sol : pso_result_t) (s : pso_settings_t) (j : Z) :
  let st := pso_run L obj_fun sol s in
  0 <= j < size s ->
  (get 0%float (fit_b st) j <? error (fst (pso_solve L obj_fun sol s)))%float
  = false.
Proof.
  cbv zeta. intros Hj. unfold pso_solve. cbn [fst].
  destruct (pso_run_run_invariant L obj_fun sol s ltac:(lia))
    as (_ & _ & _ & _ & H & _).
  now apply H.
Qed.

Lemma pso_run_pbest_not_below_error_witness :
  let st := pso_run libc_lcg sphere result_demo settings_demo in
  (get 0%float (fit_b st) 1
   <? error (fst (pso_solve libc_lcg sphere result_demo settings_demo)))%float
  = false.
Proof.
  apply (pso_run_pbest_not_below_error libc_lcg sphere result_demo
           settings_demo 1).
  cbn. lia.
Defined.

(** ** The result and the values of the objective *)

(** X5: the returned error is the least value the objective returned during
    the run, in the sense of the comparison the solver makes: no evaluation is
    strictly below it, and it is [DBL_MAX] or the value of an evaluation. *)
Theorem pso_solve_error_is_least (L : libc) (obj_fun : pso_obj_fun_t)
    (sol : pso_result_t) (s : pso_settings_t) :
  let tr := trace (pso_run L obj_fun sol s) in
  let e := error (fst (pso_solve L obj_fun sol s)) in
  (forall i f, In (Evaluated i f) tr -> (f <? e)%float = false)
  /\ (e = DBL_MAX \/ exists i, In (Evaluated i e) tr).
Proof.
  cbv zeta. unfold pso_solve. cbn [fst].
  apply (pso_run_invariant
           (fun r tr =>
              (forall i f, In (Evaluated i f) tr -> (f <? error r)%float = false)
              /\ (error r = DBL_MAX \/ exists i, In (Evaluated i (error r)) tr))).
  - intros r tr k [H1 H2]. split.
    + intros i f [H | H]; [discriminate H|now apply (H1 i)].
    + destruct H2 as [H2 | [i H2]]; [now left|right; exists i; now right].
  - intros r tr i f [H1 H2] Hf. split.
    + intros j g [H | H]; [|now apply (H1 j)].
      injection H as <- <-. exact Hf.
    + destruct H2 as [H2 | [j H2]]; [now left|right; exists j; now right].
  - intros r tr i f g [H1 H2] Hf. cbn [error]. split.
    + intros j x [H | [H | H]]; [discriminate H| |].
      * injection H as <- <-. apply FloatOrder.ltb_irrefl.
      * destruct (x <? f)%float eqn:E; [|reflexivity].
        rewrite <- (H1 j x H). symmetry.
        eapply FloatOrder.ltb_trans; eassumption.
    + right. exists i. right. now left.
  - cbn. split; [intros i f []|now left].
Qed.

(** ** How often the objective is called *)

Section Evaluations.
Variable L : libc.
Variable obj_fun : pso_obj_fun_t.

Lemma update_particle_evaluations i st :
  evaluations (trace (update_particle L obj_fun i st))
  = 1 + evaluations (trace st).
Proof.
  unfold update_particle, evaluate_particle. cbn.
  assert (E : trace (for_loop (dim (settings st)) (move_dim L i) st) = trace st)
    by (apply for_loop_proj; intros; apply move_dim_trace).
  repeat match goal with |- context [if ?b then _ else _] => destruct b end;
    cbn [trace log set_solution set_improved set_pos_b set_fit_b set_fit
           evaluations]; now rewrite E.
Qed.

Lemma init_particle_evaluations i st :
  evaluations (trace (init_particle L obj_fun i st))
  = 1 + evaluations (trace st).
Proof.
  unfold init_particle. cbn.
  assert (E : trace (for_loop (dim (settings st)) (init_dim L i) st) = trace st)
    by (apply for_loop_proj; intros; apply init_dim_trace).
  repeat match goal with |- context [if ?b then _ else _] => destruct b end;
    cbn [trace log set_solution set_improved set_pos_b set_fit_b set_fit
           evaluations]; now rewrite E.
Qed.

(** A loop whose passes each call the objective once calls it [n] times. *)
Lemma sweep_evaluations (body : Z -> swarm -> swarm) (n : Z) (st : swarm) :
  (forall i st, evaluations (trace (body i st)) = 1 + evaluations (trace st)) ->
  evaluations (trace (for_loop n body st))
  = evaluations (trace st) + Z.max 0 n.
Proof.
  intros Hb. destruct (Z.le_gt_cases 0 n) as [Hn | Hn].
  - rewrite Z.max_r by exact Hn.
    apply (for_loop_ind
             (fun k s1 => evaluations (trace s1) = evaluations (trace st) + k));
      [exact Hn|lia|].
    intros i s1 _ H. rewrite Hb. lia.
  - unfold for_loop. replace (Z.to_nat n) with 0%nat by lia. cbn. lia.
Qed.

Lemma inform_random_evaluations : keeps_evaluations (inform_random L).
Proof.
  intros st. unfold inform_random.
  destruct (negb (truthy (improved st))); cbn; [|reflexivity].
  now rewrite init_comm_random_trace.
Qed.

Lemma pso_init_evaluations sol s :
  evaluations (trace (fst (pso_init L obj_fun sol s))) = Z.max 0 (size s)
  /\ keeps_evaluations (snd (pso_init L obj_fun sol s)).
Proof.
  unfold pso_init, pso_setup.
  pose proof (select_inform_cases L (pso_alloc sol s)) as H.
  destruct (select_inform L (pso_alloc sol s)) as [st f].
  destruct H as (Hs & _ & Ht & _ & Hf). cbn. split.
  - rewrite sweep_evaluations by apply init_particle_evaluations.
    cbn. rewrite Ht, Hs. reflexivity.
  - destruct Hf as [-> | [-> | ->]]; intros st'.
    + now rewrite inform_global_trace.
    + reflexivity.
    + apply inform_random_evaluations.
Qed.

(** One pass of the main loop: it stops on the goal without a call, or
    calls the objective once for each particle. *)
Lemma loop_body_evaluations f c k st :
  keeps_settings f -> keeps_evaluations f ->
  let (st', go) := loop_body L obj_fun f c k st in
  if go then
    evaluations (trace st')
    = evaluations (trace st) + Z.max 0 (size (settings st))
  else
    evaluations (trace st') = evaluations (trace st)
    /\ (error (solution st') <=? goal (settings st'))%float = true.
Proof.
  intros Hs He. unfold loop_body.
  destruct c as [g|]; cbn;
    match goal with |- context [if ?b then _ else _] => destruct b eqn:E end;
    try (split; [reflexivity|exact E]);
    rewrite sweep_evaluations by apply update_particle_evaluations;
    cbn; now rewrite He, Hs.
Qed.

Lemma main_loop_evaluations f c m k st :
  keeps_settings f -> keeps_evaluations f ->
  let st' := main_loop L obj_fun f c m k st in
  exists p : nat,
    (p <= m)%nat
    /\ evaluations (trace st')
       = evaluations (trace st) + Z.max 0 (size (settings st)) * Z.of_nat p
    /\ (p = m \/ (error (solution st') <=? goal (settings st'))%float = true).
Proof.
  intros Hs He. revert k st. induction m as [|m IH]; intros k st; cbn zeta.
  - exists 0%nat. cbn. split; [lia|]. split; [lia|now left].
  - cbn [main_loop].
    pose proof (loop_body_evaluations f c k st Hs He) as Hb.
    pose proof (loop_body_settings L obj_fun f c k st Hs) as Hset.
    destruct (loop_body L obj_fun f c k st) as [st1 go]. cbn [fst] in Hset.
    destruct go.
    + destruct (IH (k + 1) st1) as (p & Hp & Hev & Hend).
      exists (S p). split; [lia|]. split.
      * rewrite Hev, Hb, Hset. cbn [size set_step]. lia.
      * destruct Hend as [-> | Hend]; [now left|now right].
    + destruct Hb as [Hev Hg]. exists 0%nat. split; [lia|].
      split; [lia|now right].
Qed.

End Evaluations.

(** X6: the objective is called once for each particle in the initialisation
    and once for each particle in every pass of the main loop that is not cut
    short by the goal; the run makes all [steps] passes or ends with an error
    that is at most the goal. *)
Theorem pso_run_evaluations (L : libc) (obj_fun : pso_obj_fun_t)
    (sol : pso_result_t) (s : pso_settings_t) :
  let st := pso_run L obj_fun sol s in
  exists p : nat,
    (p <= Z.to_nat (steps s))%nat
    /\ evaluations (trace st) = Z.max 0 (size s) * (1 + Z.of_nat p)
    /\ (p = Z.to_nat (steps s)
        \/ (error (solution st) <=? goal s)%float = true).
Proof.
  cbv zeta. unfold pso_run.
  pose proof (pso_init_evaluations L obj_fun sol s) as [H0 He].
  pose proof (pso_init_settings L obj_fun sol s) as [Hs Hk].
  destruct (pso_init L obj_fun sol s) as [st0 f]. cbn [fst snd] in *.
  rewrite Hs.
  destruct (main_loop_evaluations L obj_fun f (select_inertia s)
              (Z.to_nat (steps s)) 0 st0 Hk He) as (p & Hp & Hev & Hend).
  destruct (main_loop_settings L obj_fun f (select_inertia s)
              (Z.to_nat (steps s)) 0 st0 Hk) as (k' & Hset & _).
  exists p. split; [exact Hp|]. split.
  - rewrite Hev, H0, Hs. lia.
  - destruct Hend as [-> | Hend]; [now left|right].
    rewrite Hset, Hs in Hend. exact Hend.
Qed.

(** X7: whatever the objective returns (NaN and the infinities included), the
    returned error is a number, and at most [DBL_MAX]. *)
Theorem pso_solve_error_is_number (L : libc) (obj_fun : pso_obj_fun_t)
    (sol : pso_result_t) (s : pso_settings_t) :
  let e := error (fst (pso_solve L obj_fun sol s)) in
  is_nan e = false /\ (e <=? DBL_MAX)%float = true.
Proof.
  cbv zeta. unfold pso_solve. cbn [fst].
  assert (H : error (solution (pso_run L obj_fun sol s)) = DBL_MAX
              \/ (error (solution (pso_run L obj_fun sol s)) <? DBL_MAX)%float
                 = true).
  { apply (pso_run_invariant
             (fun r _ => error r = DBL_MAX \/ (error r <? DBL_MAX)%float = true)).
    - auto.
    - auto.
    - intros r tr i f g Hr Hf. cbn [error]. right.
      destruct Hr as [Hr | Hr]; [now rewrite <- Hr|].
      eapply FloatOrder.ltb_trans; eassumption.
    - now left. }
  destruct H as [-> | H]; [split; reflexivity|].
  split; [apply (FloatOrder.ltb_not_nan _ _ H)|now apply FloatOrder.ltb_leb].
Qed.

(** ** A personal best that is not a number *)

Section NanPersonalBest.
Variable L : libc.
Variable obj_fun : pso_obj_fun_t.
Variable j : Z.
Variable p0 : list float.

Local Abbreviation nan_pbest st :=
  (is_nan (get 0%float (fit_b st) j) = true /\ get [] (pos_b st) j = p0).

Lemma update_particle_nan_pbest i st :
  nan_pbest st -> nan_pbest (update_particle L obj_fun i st).
Proof.
  intros [Hn Hp]. unfold update_particle.
  set (moved := for_loop (dim (settings st)) (move_dim L i) st).
  assert (Ef : fit_b moved = fit_b st)
    by (apply for_loop_proj; intros; apply move_dim_fit_b).
  assert (Eb : pos_b moved = pos_b st)
    by (apply for_loop_proj; intros; apply move_dim_pos_b).
  unfold evaluate_particle.
  set (f := obj_fun (get [] (pos moved) i) (dim (settings moved))).
  cbn. rewrite Ef, Eb.
  destruct (Z.eq_dec i j) as [-> | Hne].
  - rewrite (FloatOrder.is_nan_ltb_r f _ Hn). cbn.
    destruct (f <? error (solution moved))%float; cbn; rewrite Ef, Eb;
      now split.
  - destruct (f <? get 0%float (fit_b st) i)%float; cbn;
      destruct (f <? error (solution moved))%float; cbn;
      rewrite ?Ef, ?Eb, ?get_upd_other by exact Hne; now split.
Qed.

Lemma main_loop_nan_pbest f c m k st :
  keeps_particles f -> nan_pbest st ->
  nan_pbest (main_loop L obj_fun f c m k st).
Proof.
  intros Hf H.
  assert (G : size (settings (main_loop L obj_fun f c m k st))
              = size (settings st)
              /\ nan_pbest (main_loop L obj_fun f c m k st)); [|apply G].
  apply (main_loop_Q L obj_fun
           (fun s1 => size (settings s1) = size (settings st) /\ nan_pbest s1)
           (size (settings st))).
  - now intros s1 [E _].
  - now intros x s1 [E Hq].
  - now intros x s1 [E Hq].
  - now intros s1 [E Hq].
  - intros i s1 _ [E Hq]. split.
    + now rewrite update_particle_settings.
    + now apply update_particle_nan_pbest.
  - intros s1 [E Hq]. destruct (Hf s1) as (E1 & _ & _ & E4 & E5).
    now rewrite E1, E4, E5.
  - now split.
Qed.

End NanPersonalBest.

(** X8: a particle whose initial position has a fitness that is not a number
    keeps that personal best to the end of the run: its personal best fitness
    stays NaN and its personal best position stays the initial one, however
    good the positions it visits. *)
Theorem nan_personal_best_is_kept (L : libc) (obj_fun : pso_obj_fun_t)
    (sol : pso_result_t) (s : pso_settings_t) (j : Z) :
  let st0 := fst (pso_init L obj_fun sol s) in
  let st := pso_run L obj_fun sol s in
  0 <= j < size s ->
  is_nan (obj_fun (get [] (pos st0) j) (dim s)) = true ->
  is_nan (get 0%float (fit_b st) j) = true
  /\ get [] (pos_b st) j = get [] (pos st0) j.
Proof.
  cbv zeta. intros Hj Hnan.
  destruct (pso_init_invariant L obj_fun sol s ltac:(lia))
    as (_ & _ & _ & _ & Hfit & _).
  destruct (pso_init_pbest L obj_fun sol s ltac:(lia)) as (_ & _ & _ & Heq).
  pose proof (pso_init_keeps_particles L obj_fun sol s) as Hf.
  cbv zeta in Hfit. specialize (Hfit j Hj). destruct (Heq j Hj) as [Ep Ef].
  unfold pso_run.
  destruct (pso_init L obj_fun sol s) as [st0 f]. cbn [fst snd] in *.
  apply main_loop_nan_pbest; [exact Hf|]. split; [|exact Ep].
  now rewrite Ef, Hfit.
Qed.

Lemma nan_personal_best_is_kept_witness :
  let st0 := fst (pso_init libc_lcg nan_beyond_7 result_demo settings_demo) in
  let st := pso_run libc_lcg nan_beyond_7 result_demo settings_demo in
  is_nan (get 0%float (fit_b st) 1) = true
  /\ get [] (pos_b st) 1 = get [] (pos st0) 1.
Proof.
  apply (nan_personal_best_is_kept libc_lcg nan_beyond_7 result_demo
           settings_demo 1).
  - cbn. lia.
  - vm_compute. reflexivity.
Defined.

(** ** The ring *)

Section FlatIndex.

Lemma get_upd {A : Type} (d : A) (a : list A) (p q : Z) (v : A) :
  0 <= p < Z.of_nat (length a) ->
  get d (upd a p v) q = if p =? q then v else get d a q.
Proof.
  intros Hp. destruct (Z.eqb_spec p q) as [<- | Hne].
  - now apply get_upd_same.
  - now apply get_upd_other.
Qed.

Lemma flat_range (n i j : Z) :
  0 <= i < n -> 0 <= j < n -> 0 <= i * n + j < n * n.
Proof. intros Hi Hj. nia. Qed.

Lemma flat_eqb (n i j i' j' : Z) :
  0 <= j < n -> 0 <= j' < n ->
  (i * n + j =? i' * n + j') = (i =? i') && (j =? j').
Proof.
  intros Hj Hj'.
  destruct (Z.eqb_spec i i') as [-> | Hi]; cbn.
  - destruct (Z.eqb_spec j j') as [-> | Hne].
    + apply Z.eqb_refl.
    + apply Z.eqb_neq. lia.
  - apply Z.eqb_neq. intros E.
    assert (C : i < i' \/ i' < i) by lia. destruct C as [C | C]; nia.
Qed.

Lemma ring_succ (n i : Z) :
  0 <= i < n -> (i + 1) mod n = if i =? n - 1 then 0 else i + 1.
Proof.
  intros Hi. destruct (Z.eqb_spec i (n - 1)) as [-> | Hne].
  - replace (n - 1 + 1) with n by lia. apply Z_mod_same_full.
  - apply Z.mod_small. lia.
Qed.

Lemma ring_pred (n i : Z) :
  0 <= i < n -> (i - 1) mod n = if i =? 0 then n - 1 else i - 1.
Proof.
  intros Hi. destruct (Z.eqb_spec i 0) as [-> | Hne].
  - symmetry. apply (Z.mod_unique _ _ (-1)); lia.
  - apply Z.mod_small. lia.
Qed.

Lemma ring_neighbour_cases (n i j : Z) :
  0 <= i < n ->
  ring_neighbour n i j
  = (j =? i) || (j =? (if i =? n - 1 then 0 else i + 1))
    || (j =? (if i =? 0 then n - 1 else i - 1)).
Proof.
  intros Hi. unfold ring_neighbour. now rewrite ring_succ, ring_pred.
Qed.

Lemma ring_neighbour_sym (n i j : Z) :
  0 <= i < n -> 0 <= j < n -> ring_neighbour n i j = ring_neighbour n j i.
Proof.
  intros Hi Hj. rewrite !ring_neighbour_cases by assumption.
  repeat match goal with
         | |- context [?a =? ?b] =>
             lazymatch a with
             | context [if _ then _ else _] => fail
             | _ => lazymatch b with
                    | context [if _ then _ else _] => fail
                    | _ => destruct (Z.eqb_spec a b)
                    end
             end
         end; cbn; try reflexivity; lia.
Qed.

End FlatIndex.

Lemma init_comm_ring_cells (s : pso_settings_t) :
  2 <= size s ->
  length (init_comm_ring s) = Z.to_nat (size s * size s)
  /\ forall i j, 0 <= i < size s -> 0 <= j < size s ->
       get 0 (init_comm_ring s) (i * size s + j)
       = if ring_neighbour (size s) i j then 1 else 0.
Proof.
  intros Hn. unfold init_comm_ring. cbv zeta.
  set (n := size s) in *.
  assert (G : length (for_loop n
                (fun i comm =>
                   if i =? 0 then
                     upd (upd (upd comm (i * n + i) 1) (i * n + i + 1) 1)
                       ((i + 1) * n - 1) 1
                   else if i =? n - 1 then
                     upd (upd (upd comm (i * n + i) 1) (i * n) 1)
                       (i * n + i - 1) 1
                   else
                     upd (upd (upd comm (i * n + i) 1) (i * n + i + 1) 1)
                       (i * n + i - 1) 1)
                (clear_comm s)) = Z.to_nat (n * n)
              /\ forall i j, 0 <= i < n -> 0 <= j < n ->
                   get 0 (for_loop n
                     (fun i comm =>
                        if i =? 0 then
                          upd (upd (upd comm (i * n + i) 1) (i * n + i + 1) 1)
                            ((i + 1) * n - 1) 1
                        else if i =? n - 1 then
                          upd (upd (upd comm (i * n + i) 1) (i * n) 1)
                            (i * n + i - 1) 1
                        else
                          upd (upd (upd comm (i * n + i) 1) (i * n + i + 1) 1)
                            (i * n + i - 1) 1)
                     (clear_comm s)) (i * n + j)
                   = if (i <? n) && ring_neighbour n i j then 1 else 0).
  { apply (for_loop_ind
             (fun k comm =>
                length comm = Z.to_nat (n * n)
                /\ forall i j, 0 <= i < n -> 0 <= j < n ->
                     get 0 comm (i * n + j)
                     = if (i <? k) && ring_neighbour n i j then 1 else 0));
      [lia| |].
    - unfold clear_comm. fold n. rewrite repeat_length. split; [reflexivity|].
      intros i j Hi Hj. pose proof (flat_range n i j Hi Hj).
      rewrite get_repeat by lia.
      now replace (i <? 0) with false by (symmetry; apply Z.ltb_ge; lia).
    - intros k comm Hk [Hl Hc].
      assert (Hw : forall a b, 0 <= a < n -> 0 <= b < n ->
                length (upd (upd (upd comm (k * n + k) 1) (k * n + a) 1)
                          (k * n + b) 1) = Z.to_nat (n * n)
                /\ forall i j, 0 <= i < n -> 0 <= j < n ->
                     get 0 (upd (upd (upd comm (k * n + k) 1) (k * n + a) 1)
                              (k * n + b) 1) (i * n + j)
                     = if (k =? i) && ((j =? k) || (j =? a) || (j =? b))
                       then 1
                       else if (i <? k) && ring_neighbour n i j then 1 else 0).
      { intros a b Ha Hb. split; [now rewrite !length_upd|].
        intros i j Hi Hj.
        pose proof (flat_range n k k Hk Hk).
        pose proof (flat_range n k a Hk Ha).
        pose proof (flat_range n k b Hk Hb).
        rewrite !get_upd by (rewrite ?length_upd; lia).
        rewrite !flat_eqb by lia. rewrite (Hc i j Hi Hj).
        destruct (Z.eqb_spec k i) as [<- | Hki]; cbn [andb]; [|reflexivity].
        rewrite (Z.eqb_sym k j), (Z.eqb_sym a j), (Z.eqb_sym b j).
        destruct (j =? b), (j =? a), (j =? k); cbn; try reflexivity;
          now replace (k <? k) with false by (symmetry; apply Z.ltb_ge; lia). }
      assert (Hstep : forall a b, 0 <= a < n -> 0 <= b < n ->
                (forall j, 0 <= j < n ->
                   ((j =? k) || (j =? a) || (j =? b)) = ring_neighbour n k j) ->
                forall i j, 0 <= i < n -> 0 <= j < n ->
                  (if (k =? i) && ((j =? k) || (j =? a) || (j =? b))
                   then 1
                   else if (i <? k) && ring_neighbour n i j then 1 else 0)
                  = if (i <? k + 1) && ring_neighbour n i j then 1 else 0).
      { intros a b Ha Hb Hab i j Hi Hj.
        destruct (Z.eqb_spec k i) as [<- | Hki]; cbn [andb].
        - rewrite (Hab j Hj).
          replace (k <? k + 1) with true by (symmetry; apply Z.ltb_lt; lia).
          replace (k <? k) with false by (symmetry; apply Z.ltb_ge; lia).
          now destruct (ring_neighbour n k j).
        - destruct (Z.ltb_spec i k), (Z.ltb_spec i (k + 1)); try lia;
            reflexivity. }
      destruct (Z.eqb_spec k 0) as [Ek0 | Ek0];
        [|destruct (Z.eqb_spec k (n - 1)) as [Ekn | Ekn]].
      + replace (k * n + k + 1) with (k * n + (k + 1)) by lia.
        replace ((k + 1) * n - 1) with (k * n + (n - 1)) by lia.
        destruct (Hw (k + 1) (n - 1)) as [Wl Wc]; [lia|lia|].
        split; [exact Wl|]. intros i j Hi Hj. rewrite (Wc i j Hi Hj).
        apply Hstep; try assumption; try lia.
        intros j' Hj'. rewrite (ring_neighbour_cases n k j' Hk).
        replace (k =? n - 1) with false by (symmetry; apply Z.eqb_neq; lia).
        now replace (k =? 0) with true by (symmetry; apply Z.eqb_eq; lia).
      + replace (upd (upd comm (k * n + k) 1) (k * n) 1)
          with (upd (upd comm (k * n + k) 1) (k * n + 0) 1)
          by (f_equal; lia).
        replace (k * n + k - 1) with (k * n + (k - 1)) by lia.
        destruct (Hw 0 (k - 1)) as [Wl Wc]; [lia|lia|].
        split; [exact Wl|]. intros i j Hi Hj. rewrite (Wc i j Hi Hj).
        apply Hstep; try assumption; try lia.
        intros j' Hj'. rewrite (ring_neighbour_cases n k j' Hk).
        replace (k =? n - 1) with true by (symmetry; apply Z.eqb_eq; lia).
        now replace (k =? 0) with false by (symmetry; apply Z.eqb_neq; lia).
      + replace (k * n + k + 1) with (k * n + (k + 1)) by lia.
        replace (k * n + k - 1) with (k * n + (k - 1)) by lia.
        destruct (Hw (k + 1) (k - 1)) as [Wl Wc]; [lia|lia|].
        split; [exact Wl|]. intros i j Hi Hj. rewrite (Wc i j Hi Hj).
        apply Hstep; try assumption; try lia.
        intros j' Hj'. rewrite (ring_neighbour_cases n k j' Hk).
        replace (k =? n - 1) with false by (symmetry; apply Z.eqb_neq; lia).
        now replace (k =? 0) with false by (symmetry; apply Z.eqb_neq; lia). }
  destruct G as [Gl Gc]. split; [exact Gl|].
  intros i j Hi Hj. rewrite (Gc i j Hi Hj).
  now replace (i <? n) with true by (symmetry; apply Z.ltb_lt; lia).
Qed.

Lemma store_inside {A : Type} (a : list A) (i : Z) (v : A) :
  0 <= i < Z.of_nat (length a) -> Checked.store a i v = Some (upd a i v).
Proof.
  intros H. unfold Checked.store.
  replace (0 <=? i) with true by (symmetry; apply Z.leb_le; lia).
  now replace (i <? Z.of_nat (length a)) with true
    by (symmetry; apply Z.ltb_lt; lia).
Qed.

(** On a ring of two particles or more every write of [init_comm_ring] is
    inside the array. *)
Lemma init_comm_ring_inside (s : pso_settings_t) :
  2 <= size s -> Checked.init_comm_ring s = Some (init_comm_ring s).
Proof.
  intros Hn. unfold Checked.init_comm_ring, init_comm_ring. cbv zeta.
  set (n := size s) in *.
  set (body := fun (i : Z) (comm : list Z) =>
                 let comm := upd comm (i * n + i) 1 in
                 if i =? 0 then
                   let comm := upd comm (i * n + i + 1) 1 in
                   upd comm ((i + 1) * n - 1) 1
                 else if i =? n - 1 then
                   let comm := upd comm (i * n) 1 in
                   upd comm (i * n + i - 1) 1
                 else
                   let comm := upd comm (i * n + i + 1) 1 in
                   upd comm (i * n + i - 1) 1).
  set (cbody := fun (i : Z) (comm : option (list Z)) =>
                  Checked.bind comm (fun comm =>
                  Checked.bind (Checked.store comm (i * n + i) 1) (fun comm =>
                  if i =? 0 then
                    Checked.bind (Checked.store comm (i * n + i + 1) 1)
                      (fun comm => Checked.store comm ((i + 1) * n - 1) 1)
                  else if i =? n - 1 then
                    Checked.bind (Checked.store comm (i * n) 1)
                      (fun comm => Checked.store comm (i * n + i - 1) 1)
                  else
                    Checked.bind (Checked.store comm (i * n + i + 1) 1)
                      (fun comm => Checked.store comm (i * n + i - 1) 1)))).
  change (for_loop n cbody (Some (clear_comm s))
          = Some (for_loop n body (clear_comm s))).
  assert (G : forall k : nat, (k <= Z.to_nat n)%nat ->
            let c := fold_left (fun c i => body (Z.of_nat i) c) (seq 0 k)
                       (clear_comm s) in
            length c = Z.to_nat (n * n)
            /\ fold_left (fun c i => cbody (Z.of_nat i) c) (seq 0 k)
                 (Some (clear_comm s)) = Some c).
  { induction k as [|k IH]; intros Hk; cbv zeta.
    - cbn. unfold clear_comm. fold n. now rewrite repeat_length.
    - rewrite seq_S, !fold_left_app. cbn [fold_left Nat.add].
      destruct (IH ltac:(lia)) as [Hl ->].
      set (c := fold_left (fun c i => body (Z.of_nat i) c) (seq 0 k)
                  (clear_comm s)) in *.
      assert (Hi : 0 <= Z.of_nat k < n) by lia.
      set (i := Z.of_nat k) in *.
      unfold body, cbody. cbv zeta. cbn [Checked.bind].
      assert (Hr : Z.of_nat (Z.to_nat (n * n)) = n * n) by nia.
      rewrite store_inside by (rewrite Hl; nia). cbn [Checked.bind].
      destruct (Z.eqb_spec i 0) as [E0 | E0];
        [|destruct (Z.eqb_spec i (n - 1)) as [En | En]];
        rewrite store_inside by (rewrite !length_upd, Hl; nia);
        cbn [Checked.bind];
        rewrite store_inside by (rewrite !length_upd, Hl; nia);
        now rewrite !length_upd. }
  destruct (G (Z.to_nat n) (Nat.le_refl _)) as [_ E]. exact E.
Qed.

(** X9: on a ring of at least two particles every write of [init_comm_ring]
    is inside the [size * size] cells of [comm]; it sets [comm[i*size + j]]
    to 1 when [j] is [i], its successor or its predecessor on the ring, and
    leaves 0 in every other cell. *)
Theorem init_comm_ring_neighbours (s : pso_settings_t) (i j : Z) :
  2 <= size s -> 0 <= i < size s -> 0 <= j < size s ->
  Checked.init_comm_ring s = Some (init_comm_ring s)
  /\ get 0 (init_comm_ring s) (i * size s + j)
     = if ring_neighbour (size s) i j then 1 else 0.
Proof.
  intros Hn Hi Hj. split; [now apply init_comm_ring_inside|].
  now apply (proj2 (init_comm_ring_cells s Hn)).
Qed.

Lemma init_comm_ring_neighbours_witness :
  Checked.init_comm_ring settings_demo = Some (init_comm_ring settings_demo)
  /\ get 0 (init_comm_ring settings_demo) (0 * size settings_demo + 2)
     = if ring_neighbour (size settings_demo) 0 2 then 1 else 0.
Proof.
  apply (init_comm_ring_neighbours settings_demo 0 2); cbn; lia.
Defined.

(** X27: [init_comm_ring] writes outside [comm] exactly when there is a
    single particle: for [i = 0] it then sets [comm[1]], the right-hand
    neighbour, in an array of one cell. *)
Theorem init_comm_ring_outside (s : pso_settings_t) :
  Checked.init_comm_ring s = None <-> size s = 1.
Proof.
  destruct (Z.eq_dec (size s) 1) as [E | E].
  - split; [auto|]. intros _. unfold Checked.init_comm_ring, clear_comm.
    rewrite E. reflexivity.
  - split; [|contradiction]. intros H. exfalso.
    destruct (Z.le_gt_cases (size s) 0) as [Hn | Hn].
    + unfold Checked.init_comm_ring, for_loop in H.
      replace (Z.to_nat (size s)) with 0%nat in H by lia. discriminate H.
    + rewrite init_comm_ring_inside in H by lia. discriminate H.
Qed.

Lemma informs_ring (s : pso_settings_t) (i j : Z) :
  2 <= size s -> 0 <= i < size s -> 0 <= j < size s ->
  informs (init_comm_ring s) (size s) i j = ring_neighbour (size s) i j.
Proof.
  intros Hn Hi Hj. unfold informs.
  rewrite (proj2 (init_comm_ring_cells s Hn)) by assumption.
  now destruct (ring_neighbour (size s) i j).
Qed.

(** X10: the ring is symmetric: [i] informs [j] exactly when [j] informs [i].
    *)
Theorem init_comm_ring_symmetric (s : pso_settings_t) (i j : Z) :
  2 <= size s -> 0 <= i < size s -> 0 <= j < size s ->
  informs (init_comm_ring s) (size s) i j
  = informs (init_comm_ring s) (size s) j i.
Proof.
  intros Hn Hi Hj. rewrite !informs_ring by assumption.
  now apply ring_neighbour_sym.
Qed.

Lemma init_comm_ring_symmetric_witness :
  informs (init_comm_ring settings_demo) (size settings_demo) 0 2
  = informs (init_comm_ring settings_demo) (size settings_demo) 2 0.
Proof.
  apply (init_comm_ring_symmetric settings_demo 0 2); cbn; lia.
Defined.

(** X11: on the ring, the particle whose personal best [inform] copies into
    [pos_nb[j]] is [j] itself or one of its two neighbours. *)
Theorem ring_best_informer_is_neighbour (s : pso_settings_t)
    (fit_b : list float) (j : Z) :
  2 <= size s -> 0 <= j < size s ->
  ring_neighbour (size s) j
    (best_informer (init_comm_ring s) fit_b (size s) j) = true.
Proof.
  intros Hn Hj.
  destruct (best_informer_scan (init_comm_ring s) fit_b (size s) j
              ltac:(lia)) as [[-> | (Hb & Hinf & _)] _].
  - unfold ring_neighbour. now rewrite Z.eqb_refl.
  - rewrite informs_ring in Hinf by assumption.
    now rewrite ring_neighbour_sym.
Qed.

Lemma ring_best_informer_is_neighbour_witness :
  ring_neighbour (size settings_demo) 2
    (best_informer (init_comm_ring settings_demo) fit_b_tie
       (size settings_demo) 2) = true.
Proof.
  apply (ring_best_informer_is_neighbour settings_demo fit_b_tie 2);
    cbn; lia.
Defined.

(** ** The global topology *)

Lemma inform_global_rows_upto (st : swarm) :
  0 <= size (settings st) ->
  let st' := inform_global st in
  length (pos_nb st') = length (pos_nb st)
  /\ forall i,
       get [] (pos_nb st') i
       = if (0 <=? i) && (i <? size (settings st))
            && (i <? Z.of_nat (length (pos_nb st)))
         then memmove (get [] (pos_nb st) i) (gbest (solution st))
                (dim (settings st))
         else get [] (pos_nb st) i.
Proof.
  intros Hn. cbv zeta. unfold inform_global.
  set (n := size (settings st)) in *.
  set (body := fun (i : Z) (st0 : swarm) =>
                 set_pos_nb
                   (upd (pos_nb st0) i
                      (memmove (get [] (pos_nb st0) i) (gbest (solution st0))
                         (dim (settings st)))) st0).
  apply (for_loop_ind
           (fun k s1 =>
              solution s1 = solution st
              /\ length (pos_nb s1) = length (pos_nb st)
              /\ forall i,
                   get [] (pos_nb s1) i
                   = if (0 <=? i) && (i <? k)
                        && (i <? Z.of_nat (length (pos_nb st)))
                     then memmove (get [] (pos_nb st) i) (gbest (solution st))
                            (dim (settings st))
                     else get [] (pos_nb st) i) n body st Hn).
  - split; [reflexivity|]. split; [reflexivity|]. intros i.
    destruct (0 <=? i) eqn:E0, (i <? 0) eqn:E1; cbn; try reflexivity.
    apply Z.leb_le in E0. apply Z.ltb_lt in E1. lia.
  - intros k s1 Hk (Hs & Hl & Hr). unfold body. cbn.
    split; [exact Hs|]. split; [now rewrite length_upd|].
    intros i. rewrite Hs.
    destruct (Z.eq_dec i k) as [-> | Hne].
    + destruct (Z.ltb_spec k (Z.of_nat (length (pos_nb st)))) as [Hin | Hout].
      * rewrite get_upd_same by lia. rewrite Hr.
        replace (0 <=? k) with true by (symmetry; apply Z.leb_le; lia).
        replace (k <? k) with false by (symmetry; apply Z.ltb_ge; lia).
        now replace (k <? k + 1) with true by (symmetry; apply Z.ltb_lt; lia).
      * rewrite andb_false_r.
        transitivity (get [] (pos_nb s1) k).
        -- unfold get, upd.
           replace (k <? 0) with false by (symmetry; apply Z.ltb_ge; lia).
           rewrite !nth_overflow; [reflexivity|lia|].
           rewrite length_upd_nat. lia.
        -- rewrite Hr.
           replace (k <? Z.of_nat (length (pos_nb st))) with false
             by (symmetry; apply Z.ltb_ge; lia).
           now rewrite andb_false_r.
    + rewrite get_upd_other by congruence. rewrite Hr.
      destruct (Z.ltb_spec i k), (Z.ltb_spec i (k + 1)); try lia; reflexivity.
Qed.

(** X12: [inform_global] gives every particle the global best: row [i] of
    [pos_nb], for [i] below [size], receives the first [dim] cells of [gbest];
    nothing else in the state changes. *)
Theorem inform_global_rows (st : swarm) (i : Z) :
  0 <= i < size (settings st) ->
  size (settings st) <= Z.of_nat (length (pos_nb st)) ->
  get [] (pos_nb (inform_global st)) i
  = memmove (get [] (pos_nb st) i) (gbest (solution st)) (dim (settings st))
  /\ set_pos_nb (pos_nb st) (inform_global st) = st.
Proof.
  intros Hi Hl. split.
  - destruct (inform_global_rows_upto st ltac:(lia)) as [_ H]. rewrite H.
    replace (0 <=? i) with true by (symmetry; apply Z.leb_le; lia).
    replace (i <? size (settings st)) with true
      by (symmetry; apply Z.ltb_lt; lia).
    now replace (i <? Z.of_nat (length (pos_nb st))) with true
      by (symmetry; apply Z.ltb_lt; lia).
  - unfold inform_global.
    apply (for_loop_inv (fun s1 => set_pos_nb (pos_nb st) s1 = st)).
    + now destruct st.
    + intros k s1 _ H. exact H.
Qed.

Lemma inform_global_rows_witness :
  get [] (pos_nb (inform_global swarm_cliff)) 0
  = memmove (get [] (pos_nb swarm_cliff) 0) (gbest (solution swarm_cliff))
      (dim (settings swarm_cliff))
  /\ set_pos_nb (pos_nb swarm_cliff) (inform_global swarm_cliff) = swarm_cliff.
Proof.
  assert (E : size (settings swarm_cliff) = 1) by (vm_compute; reflexivity).
  apply (inform_global_rows swarm_cliff 0).
  - rewrite E. lia.
  - rewrite E. vm_compute. discriminate.
Defined.

(** ** The random topology *)

Section RandomGraph.
Variable L : libc.

Lemma upd_nat_out {A : Type} (a : list A) (n : nat) (v : A) :
  (length a <= n)%nat -> upd_nat a n v = a.
Proof.
  revert n. induction a as [|h t IH]; intros [|n] H; cbn in *;
    try reflexivity; try lia.
  f_equal. apply IH. lia.
Qed.

Lemma get_upd_cases {A : Type} (d : A) (a : list A) (p q : Z) (v : A) :
  get d (upd a p v) q = v \/ get d (upd a p v) q = get d a q.
Proof.
  destruct (Z.eq_dec p q) as [<- | Hne]; [|right; now apply get_upd_other].
  destruct (Z_lt_ge_dec p 0) as [Hneg | Hpos].
  - right. unfold upd.
    now replace (p <? 0) with true by (symmetry; apply Z.ltb_lt; lia).
  - destruct (Z_lt_ge_dec p (Z.of_nat (length a))) as [Hin | Hout].
    + left. apply get_upd_same. lia.
    + right. unfold upd.
      replace (p <? 0) with false by (symmetry; apply Z.ltb_ge; lia).
      rewrite upd_nat_out by lia. reflexivity.
Qed.

Lemma upd_one_bits (c : list Z) (p : Z) :
  (forall q, get 0 c q = 0 \/ get 0 c q = 1) ->
  forall q, get 0 (upd c p 1) q = 0 \/ get 0 (upd c p 1) q = 1.
Proof.
  intros H q. destruct (get_upd_cases 0 c p q 1) as [-> | ->]; auto.
Qed.

Lemma upd_one_ones (c : list Z) (p q : Z) :
  get 0 c q = 1 -> get 0 (upd c p 1) q = 1.
Proof.
  intros H. destruct (get_upd_cases 0 c p q 1) as [-> | ->]; auto.
Qed.

Lemma init_comm_random_cells (st : swarm) :
  let n := size (settings st) in
  let c := comm (init_comm_random L st) in
  0 <= n ->
  length c = Z.to_nat (n * n)
  /\ (forall q, get 0 c q = 0 \/ get 0 c q = 1)
  /\ forall i, 0 <= i < n -> get 0 c (i * n + i) = 1.
Proof.
  cbv zeta. intros Hn. unfold init_comm_random.
  set (n := size (settings st)) in *.
  apply (for_loop_ind
           (fun k s1 =>
              length (comm s1) = Z.to_nat (n * n)
              /\ (forall q, get 0 (comm s1) q = 0 \/ get 0 (comm s1) q = 1)
              /\ forall i, 0 <= i < k -> get 0 (comm s1) (i * n + i) = 1));
    [exact Hn| |].
  - cbn. unfold clear_comm. fold n. rewrite repeat_length.
    split; [reflexivity|]. split; [|intros i Hi; lia].
    intros q. left. unfold get. destruct (q <? 0); [reflexivity|].
    apply nth_repeat.
  - intros k s1 Hk (Hl & Hb & Ho).
    apply (for_loop_inv
             (fun s2 =>
                length (comm s2) = Z.to_nat (n * n)
                /\ (forall q, get 0 (comm s2) q = 0 \/ get 0 (comm s2) q = 1)
                /\ forall i, 0 <= i < k + 1 -> get 0 (comm s2) (i * n + i) = 1)).
    + cbn. rewrite length_upd. split; [exact Hl|].
      split; [now apply upd_one_bits|].
      intros i Hi. destruct (Z.eq_dec i k) as [-> | Hne].
      * apply get_upd_same. pose proof (flat_range n k k Hk Hk). lia.
      * apply upd_one_ones. apply Ho. lia.
    + intros d s2 _ (Hl2 & Hb2 & Ho2).
      unfold RNG_UNIFORM_INT, rand. cbn. rewrite length_upd.
      split; [exact Hl2|]. split; [now apply upd_one_bits|].
      intros i Hi. apply upd_one_ones. now apply Ho2.
Qed.

End RandomGraph.

(** X13: after [init_comm_random] every cell of [comm] holds 0 or 1 and every
    particle informs itself, whatever [rand()] returns. *)
Theorem init_comm_random_self_loops (L : libc) (st : swarm) (i : Z) :
  let n := size (settings st) in
  let c := comm (init_comm_random L st) in
  0 <= i < n ->
  informs c n i i = true
  /\ length c = Z.to_nat (n * n)
  /\ forall q, get 0 c q = 0 \/ get 0 c q = 1.
Proof.
  cbv zeta. intros Hi.
  destruct (init_comm_random_cells L st ltac:(lia)) as (Hl & Hb & Ho).
  split; [|split; [exact Hl|exact Hb]].
  unfold informs. now rewrite Ho.
Qed.

Lemma init_comm_random_self_loops_witness :
  let st := pso_alloc result_demo settings_random in
  let c := comm (init_comm_random libc_lcg st) in
  informs c (size (settings st)) 1 1 = true
  /\ length c = Z.to_nat (size (settings st) * size (settings st))
  /\ forall q, get 0 c q = 0 \/ get 0 c q = 1.
Proof.
  apply (init_comm_random_self_loops libc_lcg
           (pso_alloc result_demo settings_random) 1).
  cbn. lia.
Defined.

(** ** The random topology: the graph after a rewiring *)

Section RandomGraphCells.
Variable L : libc.
Hypothesis rand_range : forall q, 0 <= rand_seq L q.

Lemma for_loop_none {St : Type} (n : Z) (body : Z -> St -> St) (s : St) :
  n <= 0 -> for_loop n body s = s.
Proof.
  intros Hn. unfold for_loop. now replace (Z.to_nat n) with 0%nat by lia.
Qed.

Lemma rem_range (r n : Z) : 0 <= r -> 0 < n -> 0 <= Z.rem r n < n.
Proof. intros Hr Hn. rewrite Z.rem_mod_nonneg by lia. apply Z.mod_pos_bound. lia. Qed.

(** [init_comm_random] builds the graph of the draws it makes, whatever
    [comm] held before. *)
Lemma init_comm_random_graph (st : swarm) :
  random_graph L (settings st) (rng st) (comm (init_comm_random L st)).
Proof.
  unfold random_graph, init_comm_random.
  set (s := settings st). set (n := size s). set (r0 := rng st).
  set (H := Z.to_nat (nhood_size s)).
  destruct (Z.le_gt_cases n 0) as [Hn | Hn].
  { rewrite for_loop_none by exact Hn. cbn. unfold clear_comm. fold n.
    rewrite repeat_length. split; [reflexivity|]. intros i j Hi. lia. }
  set (draw := fun (i : Z) (u : nat) =>
                 Z.rem (rand_seq L (r0 + Z.to_nat i * H + u)%nat) n).
  set (g := fun i j => (j =? i) || existsb (fun u => draw i u =? j) (seq 0 H)).
  change (length
            (comm (for_loop n
               (fun i st1 =>
                  for_loop (nhood_size s)
                    (fun _ st2 =>
                       let (j, st3) := RNG_UNIFORM_INT L n st2 in
                       set_comm (upd (comm st3) (i * n + j) 1) st3)
                    (set_comm (upd (comm st1) (i * n + i) 1) st1))
               (set_comm (clear_comm s) st))) = Z.to_nat (n * n)
          /\ forall i j, 0 <= i < n -> 0 <= j < n ->
               get 0 (comm (for_loop n
                  (fun i st1 =>
                     for_loop (nhood_size s)
                       (fun _ st2 =>
                          let (j, st3) := RNG_UNIFORM_INT L n st2 in
                          set_comm (upd (comm st3) (i * n + j) 1) st3)
                       (set_comm (upd (comm st1) (i * n + i) 1) st1))
                  (set_comm (clear_comm s) st))) (i * n + j)
               = if g i j then 1 else 0).
  assert (G : let s1 := for_loop n
               (fun i st1 =>
                  for_loop (nhood_size s)
                    (fun _ st2 =>
                       let (j, st3) := RNG_UNIFORM_INT L n st2 in
                       set_comm (upd (comm st3) (i * n + j) 1) st3)
                    (set_comm (upd (comm st1) (i * n + i) 1) st1))
               (set_comm (clear_comm s) st) in
             rng s1 = (r0 + Z.to_nat n * H)%nat
             /\ length (comm s1) = Z.to_nat (n * n)
             /\ forall i j, 0 <= i < n -> 0 <= j < n ->
                  get 0 (comm s1) (i * n + j)
                  = if (i <? n) && g i j then 1 else 0).
  { cbv zeta.
    apply (for_loop_ind
             (fun k s1 =>
                rng s1 = (r0 + Z.to_nat k * H)%nat
                /\ length (comm s1) = Z.to_nat (n * n)
                /\ forall i j, 0 <= i < n -> 0 <= j < n ->
                     get 0 (comm s1) (i * n + j)
                     = if (i <? k) && g i j then 1 else 0)); [lia| |].
    - cbn [rng comm set_comm]. unfold clear_comm. fold n.
      rewrite repeat_length. split; [subst r0; cbn; lia|].
      split; [reflexivity|]. intros i j Hi Hj.
      pose proof (flat_range n i j Hi Hj). rewrite get_repeat by lia.
      now replace (i <? 0) with false by (symmetry; apply Z.ltb_ge; lia).
    - intros k s1 Hk (Hr & Hl & Hc).
      (* the row of particle [k] after [t] draws *)
      set (Q := fun (t : Z) (s2 : swarm) =>
                  rng s2 = (r0 + Z.to_nat k * H + Z.to_nat t)%nat
                  /\ length (comm s2) = Z.to_nat (n * n)
                  /\ forall i j, 0 <= i < n -> 0 <= j < n ->
                       get 0 (comm s2) (i * n + j)
                       = if ((i <? k) && g i j)
                            || ((i =? k)
                                && ((j =? k)
                                    || existsb (fun u => draw k u =? j)
                                         (seq 0 (Z.to_nat t))))
                         then 1 else 0).
      set (s1' := set_comm (upd (comm s1) (k * n + k) 1) s1).
      assert (Q0 : Q 0 s1').
      { subst Q s1'. cbn [rng comm set_comm seq existsb Z.to_nat].
        rewrite length_upd. split; [lia|]. split; [exact Hl|].
        intros i j Hi Hj. pose proof (flat_range n k k Hk Hk).
        rewrite get_upd by lia. rewrite flat_eqb by lia.
        rewrite (Hc i j Hi Hj), orb_false_r, (Z.eqb_sym k i), (Z.eqb_sym k j).
        destruct (Z.eqb_spec i k) as [-> | Hne]; cbn [andb orb].
        - replace (k <? k) with false by (symmetry; apply Z.ltb_ge; lia).
          cbn [andb orb]. now destruct (j =? k).
        - now rewrite orb_false_r. }
      assert (QH : Q (Z.of_nat H)
                     (for_loop (nhood_size s)
                        (fun _ st2 =>
                           let (j, st3) := RNG_UNIFORM_INT L n st2 in
                           set_comm (upd (comm st3) (k * n + j) 1) st3) s1')).
      { destruct (Z.le_gt_cases (nhood_size s) 0) as [Hh | Hh].
        - rewrite for_loop_none by exact Hh.
          replace (Z.of_nat H) with 0 by (subst H; lia). exact Q0.
        - replace (Z.of_nat H) with (nhood_size s) by (subst H; lia).
          apply (for_loop_ind Q); [lia|exact Q0|].
          intros t s2 Ht (Hr2 & Hl2 & Hc2). subst Q. cbv beta.
          unfold RNG_UNIFORM_INT, rand. cbn [rng comm set_comm set_rng].
          rewrite length_upd.
          split; [lia|]. split; [exact Hl2|]. intros i j Hi Hj.
          assert (Ed : Z.rem (rand_seq L (rng s2)) n = draw k (Z.to_nat t))
            by (subst draw; cbv beta; now rewrite Hr2).
          rewrite Ed.
          assert (Hd : 0 <= draw k (Z.to_nat t) < n)
            by (subst draw; cbv beta; apply rem_range; [apply rand_range|lia]).
          pose proof (flat_range n k _ Hk Hd).
          rewrite get_upd by lia. rewrite flat_eqb by lia.
          rewrite (Hc2 i j Hi Hj).
          replace (Z.to_nat (t + 1)) with (S (Z.to_nat t)) by lia.
          rewrite seq_S, existsb_app. cbn [existsb Nat.add].
          rewrite (Z.eqb_sym k i).
          destruct (Z.eqb_spec i k) as [-> | Hne]; cbn [andb orb].
          + replace (k <? k) with false by (symmetry; apply Z.ltb_ge; lia).
            cbn [andb orb].
            destruct (draw k (Z.to_nat t) =? j); cbn [orb];
              now rewrite ?orb_false_r, ?orb_true_r.
          + reflexivity. }
      subst Q. cbv beta in QH. destruct QH as (Hr3 & Hl3 & Hc3).
      rewrite Nat2Z.id in Hr3, Hc3.
      split; [rewrite Hr3; lia|]. split; [exact Hl3|].
      intros i j Hi Hj. rewrite (Hc3 i j Hi Hj).
      destruct (Z.eqb_spec i k) as [-> | Hne]; cbn [andb orb].
      + replace (k <? k) with false by (symmetry; apply Z.ltb_ge; lia).
        replace (k <? k + 1) with true by (symmetry; apply Z.ltb_lt; lia).
        reflexivity.
      + rewrite orb_false_r.
        destruct (Z.ltb_spec i k), (Z.ltb_spec i (k + 1)); try lia;
          reflexivity. }
  cbv zeta in G. destruct G as (_ & Gl & Gc). split; [exact Gl|].
  intros i j Hi Hj. rewrite (Gc i j Hi Hj).
  now replace (i <? n) with true by (symmetry; apply Z.ltb_lt; lia).
Qed.

End RandomGraphCells.

Section RewiredGraph.
Variable L : libc.
Variable obj_fun : pso_obj_fun_t.

(** The graph does not depend on the field [step]. *)
Lemma random_graph_set_step (j : Z) (s : pso_settings_t) (r : nat)
    (comm : list Z) :
  random_graph L (set_step j s) r comm <-> random_graph L s r comm.
Proof. reflexivity. Qed.

(** A pass of the main loop that starts with [improved = 0] leaves in
    [comm] the graph of the draws made at its start. *)
Lemma loop_body_random_graph c k st st' :
  (forall q, 0 <= rand_seq L q) ->
  loop_body L obj_fun (inform_random L) c k st = (st', true) ->
  truthy (improved st) = false ->
  random_graph L (settings st) (rng st) (comm st').
Proof.
  intros Hrand. unfold loop_body.
  set (st1 := set_settings (set_step k (settings st)) st).
  set (st2 := match c with Some g => set_w (g k (settings st1)) st1
                         | None => st1 end).
  assert (E2 : improved st2 = improved st /\ rng st2 = rng st
               /\ settings st2 = set_step k (settings st))
    by (subst st2 st1; destruct c; cbn; auto).
  destruct E2 as (Ei & Er & Es).
  destruct (_ <=? _)%float; [discriminate|].
  set (st3 := set_improved 0 (inform_random L st2)).
  intros Heq Himp. apply (f_equal fst) in Heq.
  cbv beta iota delta [fst] in Heq. subst st'.
  destruct (sweep_improved L obj_fun (size (settings st3)) st3 eq_refl)
    as (_ & Hc & _).
  rewrite Hc. subst st3. unfold inform_random. rewrite Ei, Himp.
  cbn [negb comm set_improved set_pos_nb log].
  apply (proj1 (random_graph_set_step k (settings st) _ _)).
  rewrite <- Es, <- Er. now apply init_comm_random_graph.
Qed.

(** At a loop head the settings are the initial ones up to [step]. *)
Lemma loop_head_settings_upto_step f c st0 k st :
  keeps_settings f ->
  loop_head L obj_fun f c st0 k = Some st ->
  exists j, settings st = set_step j (settings st0).
Proof.
  intros Hf. revert st. induction k as [|k IH]; intros st H.
  - cbn in H. injection H as <-. exists (step (settings st0)).
    now rewrite set_step_same.
  - destruct (loop_head_step L obj_fun f c st0 k st H) as (sp & Hp & Eb).
    destruct (IH sp Hp) as [j Ej].
    pose proof (loop_body_settings L obj_fun f c (Z.of_nat k) sp Hf) as Hs.
    rewrite Eb in Hs. cbn [fst] in Hs. exists (Z.of_nat k).
    now rewrite Hs, Ej.
Qed.

End RewiredGraph.

(** C6: under the random topology the graph is rebuilt at step 0, and at a
    later step exactly when the step before it did not lower the best
    error; after a step that lowered it, the graph of the next step is the
    one it had.  With a [rand()] that returns no negative number, a rebuilt
    graph is the one of the draws made at the head of its step: the self
    loops and the neighbours drawn, and nothing of the graph before. *)
Theorem random_topology_rewiring (L : libc) (obj_fun : pso_obj_fun_t)
    (sol : pso_result_t) (s : pso_settings_t) :
  nhood_strategy s = PSO_NHOOD_RANDOM ->
  (forall s1, pso_loop_head L obj_fun sol s 1 = Some s1 ->
              In 0 (rewires (trace s1)))
  /\ (forall k sp s0 s1,
        pso_loop_head L obj_fun sol s k = Some sp ->
        pso_loop_head L obj_fun sol s (S k) = Some s0 ->
        pso_loop_head L obj_fun sol s (S (S k)) = Some s1 ->
        (In (Z.of_nat (S k)) (rewires (trace s1))
         <-> (error (solution s0) <? error (solution sp))%float = false)
        /\ ((error (solution s0) <? error (solution sp))%float = true ->
            comm s1 = comm s0))
  /\ ((forall q, 0 <= rand_seq L q) ->
      (forall s0 s1,
         pso_loop_head L obj_fun sol s 0 = Some s0 ->
         pso_loop_head L obj_fun sol s 1 = Some s1 ->
         random_graph L s (rng s0) (comm s1))
      /\ (forall k sp s0 s1,
            pso_loop_head L obj_fun sol s k = Some sp ->
            pso_loop_head L obj_fun sol s (S k) = Some s0 ->
            pso_loop_head L obj_fun sol s (S (S k)) = Some s1 ->
            (error (solution s0) <? error (solution sp))%float = false ->
            random_graph L s (rng s0) (comm s1))).
Proof.
  intros Hr. unfold pso_loop_head.
  destruct (pso_init_random L obj_fun sol s Hr) as (Hf & Hi & Ht).
  destruct (pso_init_settings L obj_fun sol s) as [Hs Hk].
  destruct (pso_init L obj_fun sol s) as [st0 f]. cbn [fst snd] in *.
  subst f. split; [|split].
  - intros s1 H1.
    destruct (loop_head_step _ _ _ _ _ _ _ H1) as (st & E0 & Eb).
    cbn in E0. injection E0 as <-.
    destruct (loop_body_random _ _ _ _ _ _ Eb) as (Hrw & _ & _).
    rewrite Hrw. unfold truthy. rewrite Hi. cbn. now left.
  - intros k sp s0 s1 Hp H0 H1.
    destruct (loop_head_step _ _ _ _ _ _ _ H0) as (sp' & Ep & Eb0).
    rewrite Hp in Ep. injection Ep as <-.
    destruct (loop_head_step _ _ _ _ _ _ _ H1) as (s0' & E0 & Eb1).
    rewrite H0 in E0. injection E0 as <-.
    destruct (loop_body_random _ _ _ _ _ _ Eb0) as (_ & _ & Himp).
    destruct (loop_body_random _ _ _ _ _ _ Eb1) as (Hrw & Hcomm & _).
    pose proof (loop_head_rewires L obj_fun _ _ _ _ Ht H0) as Hold.
    rewrite Hrw, Himp. unfold truthy in *. rewrite Himp in Hcomm.
    destruct (error (solution s0) <? error (solution sp))%float; cbn in *.
    + split; [|auto]. split; [|discriminate].
      intros Hin. rewrite Forall_forall in Hold.
      specialize (Hold _ Hin). lia.
    + split; [|discriminate]. split; [reflexivity|now left].
  - intros Hrand. split.
    + intros s0 s1 E0 H1. cbn in E0. injection E0 as <-.
      destruct (loop_head_step _ _ _ _ _ _ _ H1) as (st & E0 & Eb).
      cbn in E0. injection E0 as <-. rewrite <- Hs.
      apply (loop_body_random_graph L obj_fun _ _ _ _ Hrand Eb).
      unfold truthy. now rewrite Hi.
    + intros k sp s0 s1 Hp H0 H1 Hlt.
      destruct (loop_head_step _ _ _ _ _ _ _ H0) as (sp' & Ep & Eb0).
      rewrite Hp in Ep. injection Ep as <-.
      destruct (loop_head_step _ _ _ _ _ _ _ H1) as (s0' & E0 & Eb1).
      rewrite H0 in E0. injection E0 as <-.
      destruct (loop_body_random _ _ _ _ _ _ Eb0) as (_ & _ & Himp).
      destruct (loop_head_settings_upto_step L obj_fun _ _ _ _ _ Hk H0)
        as [j Ej].
      rewrite Hs in Ej.
      apply (proj1 (random_graph_set_step L j s _ _)). rewrite <- Ej.
      apply (loop_body_random_graph L obj_fun _ _ _ _ Hrand Eb1).
      unfold truthy. now rewrite Himp, Hlt.
Qed.

Lemma random_topology_rewiring_witness :
  let head := pso_loop_head libc_lcg sphere result_demo settings_random in
  exists s0 s1 s2 s3,
    (head 0%nat = Some s0 /\ head 1%nat = Some s1
     /\ head 2%nat = Some s2 /\ head 3%nat = Some s3)
    /\ (In 0 (rewires (trace s1))
        /\ random_graph libc_lcg settings_random (rng s0) (comm s1))
    /\ ((error (solution s1) <? error (solution s0))%float = false
        /\ In 1 (rewires (trace s2))
        /\ random_graph libc_lcg settings_random (rng s1) (comm s2))
    /\ ((error (solution s2) <? error (solution s1))%float = true
        /\ ~ In 2 (rewires (trace s3))
        /\ comm s3 = comm s2).
Proof.
  cbv zeta.
  assert (C : match pso_loop_head libc_lcg sphere result_demo settings_random 0,
                    pso_loop_head libc_lcg sphere result_demo settings_random 1,
                    pso_loop_head libc_lcg sphere result_demo settings_random 2,
                    pso_loop_head libc_lcg sphere result_demo settings_random 3
              with
              | Some s0, Some s1, Some s2, Some s3 =>
                  (error (solution s1) <? error (solution s0))%float = false
                  /\ (error (solution s2) <? error (solution s1))%float = true
              | _, _, _, _ => False
              end) by (vm_compute; split; reflexivity).
  assert (Hrand : forall q, 0 <= rand_seq libc_lcg q)
    by (intros q; cbn; apply Z.mod_pos_bound; lia).
  destruct (random_topology_rewiring libc_lcg sphere result_demo
              settings_random eq_refl) as (T0 & T1 & T2).
  destruct (T2 Hrand) as (G0 & G1).
  destruct (pso_loop_head libc_lcg sphere result_demo settings_random 0)
    as [s0|] eqn:E0; [|contradiction].
  destruct (pso_loop_head libc_lcg sphere result_demo settings_random 1)
    as [s1|] eqn:E1; [|contradiction].
  destruct (pso_loop_head libc_lcg sphere result_demo settings_random 2)
    as [s2|] eqn:E2; [|contradiction].
  destruct (pso_loop_head libc_lcg sphere result_demo settings_random 3)
    as [s3|] eqn:E3; [|contradiction].
  destruct C as [C1 C2].
  exists s0, s1, s2, s3. split; [auto|]. split; [|split].
  - split; [now apply T0|now apply G0].
  - split; [exact C1|]. split.
    + now apply (proj1 (T1 0%nat s0 s1 s2 E0 E1 E2)).
    + now apply (G1 0%nat s0 s1 s2).
  - split; [exact C2|]. split.
    + intros Hin. apply (proj1 (T1 1%nat s1 s2 s3 E1 E2 E3)) in Hin.
      congruence.
    + now apply (proj2 (T1 1%nat s1 s2 s3 E1 E2 E3)).
Defined.

(** ** The draws from [rand()] *)

Section Draws.
Variable L : libc.
Variable obj_fun : pso_obj_fun_t.

(** A loop whose passes each add [c] to a measure adds [c] times the
    number of passes. *)
Lemma for_loop_count {St : Type} (m : St -> Z) (c : Z)
    (body : Z -> St -> St) (n : Z) (st : St) :
  (forall i s, m (body i s) = m s + c) ->
  m (for_loop n body st) = m st + c * Z.max 0 n.
Proof.
  intros Hb. destruct (Z.le_gt_cases 0 n) as [Hn | Hn].
  - rewrite Z.max_r by exact Hn.
    apply (for_loop_ind (fun k s1 => m s1 = m st + c * k)); [exact Hn|lia|].
    intros i s1 _ H. rewrite Hb. lia.
  - unfold for_loop. replace (Z.to_nat n) with 0%nat by lia. cbn. lia.
Qed.

Local Abbreviation draws st := (Z.of_nat (rng st)).

Lemma init_dim_draws i d st : draws (init_dim L i d st) = draws st + 2.
Proof. unfold init_dim, RNG_UNIFORM, rand. cbn. lia. Qed.

Lemma move_dim_draws i d st : draws (move_dim L i d st) = draws st + 2.
Proof.
  unfold move_dim, bound_dim, advance_dim, RNG_UNIFORM, rand. cbn.
  repeat match goal with
         | |- context [if ?b then _ else _] => destruct b
         end; cbn; lia.
Qed.

Lemma init_particle_draws i st :
  draws (init_particle L obj_fun i st)
  = draws st + 2 * Z.max 0 (dim (settings st)).
Proof.
  assert (E : draws (for_loop (dim (settings st)) (init_dim L i) st)
              = draws st + 2 * Z.max 0 (dim (settings st)))
    by (apply (for_loop_count (fun s1 => draws s1)); intros;
        apply init_dim_draws).
  unfold init_particle. cbn - [Z.mul].
  match goal with |- context [if ?b then _ else _] => destruct b end;
    cbn - [Z.mul]; exact E.
Qed.

Lemma update_particle_draws i st :
  draws (update_particle L obj_fun i st)
  = draws st + 2 * Z.max 0 (dim (settings st)).
Proof.
  assert (E : draws (for_loop (dim (settings st)) (move_dim L i) st)
              = draws st + 2 * Z.max 0 (dim (settings st)))
    by (apply (for_loop_count (fun s1 => draws s1)); intros;
        apply move_dim_draws).
  unfold update_particle, evaluate_particle. cbn - [Z.mul].
  repeat match goal with |- context [if ?b then _ else _] => destruct b end;
    cbn - [Z.mul]; exact E.
Qed.

Lemma init_comm_random_draws st :
  draws (init_comm_random L st)
  = draws st
    + Z.max 0 (nhood_size (settings st)) * Z.max 0 (size (settings st)).
Proof.
  unfold init_comm_random.
  rewrite (for_loop_count (fun s1 => draws s1)
             (Z.max 0 (nhood_size (settings st)))); [cbn [rng set_comm]; lia|].
  intros i s1.
  rewrite (for_loop_count (fun s2 => draws s2) 1); [cbn [rng set_comm]; lia|].
  intros d s2. unfold RNG_UNIFORM_INT, rand. cbn. lia.
Qed.

Lemma init_particle_rewires i st :
  rewires (trace (init_particle L obj_fun i st)) = rewires (trace st).
Proof.
  unfold init_particle. cbn.
  assert (E : trace (for_loop (dim (settings st)) (init_dim L i) st) = trace st)
    by (apply for_loop_proj; intros; apply init_dim_trace).
  match goal with |- context [if ?b then _ else _] => destruct b end;
    cbn [trace log set_solution set_fit_b set_fit rewires]; now rewrite E.
Qed.

Variable s : pso_settings_t.

Local Abbreviation accounted st :=
  ((size (settings st) = size s /\ dim (settings st) = dim s
    /\ nhood_size (settings st) = nhood_size s)
   /\ draws_accounted s st).

Lemma update_particle_accounted i st :
  accounted st -> accounted (update_particle L obj_fun i st).
Proof.
  intros [(E1 & E2 & E3) H]. rewrite update_particle_settings.
  split; [now repeat split|]. unfold draws_accounted in *.
  rewrite update_particle_draws, update_particle_evaluations,
    update_particle_rewires, E2, H. lia.
Qed.

Lemma init_particle_accounted i st :
  accounted st -> accounted (init_particle L obj_fun i st).
Proof.
  intros [(E1 & E2 & E3) H]. rewrite init_particle_settings.
  split; [now repeat split|]. unfold draws_accounted in *.
  rewrite init_particle_draws, init_particle_evaluations,
    init_particle_rewires, E2, H. lia.
Qed.

Lemma inform_global_accounted st :
  accounted st -> accounted (inform_global st).
Proof.
  intros [E H]. rewrite inform_global_settings. split; [exact E|].
  unfold draws_accounted in *. rewrite inform_global_trace.
  replace (rng (inform_global st)) with (rng st); [exact H|].
  symmetry. unfold inform_global. now apply for_loop_proj.
Qed.

Lemma inform_random_accounted st :
  accounted st -> accounted (inform_random L st).
Proof.
  intros [(E1 & E2 & E3) H]. rewrite inform_random_settings.
  split; [now repeat split|]. unfold draws_accounted in *.
  unfold inform_random. destruct (negb (truthy (improved st)));
    cbn [rng trace log set_pos_nb evaluations rewires length].
  - rewrite init_comm_random_draws, init_comm_random_trace, E1, E3, H. lia.
  - exact H.
Qed.

Lemma pso_init_accounted sol :
  accounted (fst (pso_init L obj_fun sol s))
  /\ forall st, accounted st -> accounted (snd (pso_init L obj_fun sol s) st).
Proof.
  unfold pso_init, pso_setup.
  assert (H0 : accounted (fst (select_inform L (pso_alloc sol s)))
               /\ forall st, accounted st ->
                    accounted (snd (select_inform L (pso_alloc sol s)) st)).
  { unfold select_inform. cbn [settings pso_alloc].
    unfold PSO_NHOOD_GLOBAL, PSO_NHOOD_RING, PSO_NHOOD_RANDOM.
    destruct (Z.eqb_spec (nhood_strategy s) 0) as [E0 | E0];
      [|destruct (Z.eqb_spec (nhood_strategy s) 1) as [E1 | E1];
        [|destruct (Z.eqb_spec (nhood_strategy s) 2) as [E2 | E2]]];
      cbn [fst snd]; (split; [|auto using inform_global_accounted,
                                 inform_random_accounted]).
    - split; [now repeat split|]. unfold draws_accounted. cbn.
      rewrite E0. cbn. lia.
    - split; [now repeat split|]. unfold draws_accounted. cbn.
      rewrite E1. cbn. lia.
    - rewrite init_comm_random_settings. split; [now repeat split|].
      unfold draws_accounted.
      rewrite init_comm_random_draws, init_comm_random_trace. cbn.
      rewrite E2. cbn. lia.
    - split; [now repeat split|]. unfold draws_accounted. cbn.
      replace (nhood_strategy s =? PSO_NHOOD_RANDOM) with false
        by (symmetry; apply Z.eqb_neq; exact E2).
      lia. }
  destruct (select_inform L (pso_alloc sol s)) as [st f].
  cbn [fst snd] in *. destruct H0 as [H0 Hf]. split; [|exact Hf].
  apply for_loop_inv.
  - exact H0.
  - intros i s1 _. apply init_particle_accounted.
Qed.

End Draws.

(** X14: the calls of [rand()] in a run are accounted for: two for every
    dimension of every evaluation of the objective, and [nhood_size] for every
    particle each time the random graph is built (once at the start under the
    random topology, and once for every rewiring). *)
Theorem pso_run_draws (L : libc) (obj_fun : pso_obj_fun_t)
    (sol : pso_result_t) (s : pso_settings_t) :
  let st := pso_run L obj_fun sol s in
  Z.of_nat (rng st)
  = 2 * Z.max 0 (dim s) * evaluations (trace st)
    + Z.max 0 (nhood_size s) * Z.max 0 (size s)
      * ((if nhood_strategy s =? PSO_NHOOD_RANDOM then 1 else 0)
         + Z.of_nat (length (rewires (trace st)))).
Proof.
  cbv zeta. unfold pso_run.
  destruct (pso_init_accounted L obj_fun s sol) as [H0 Hf].
  destruct (pso_init L obj_fun sol s) as [st0 f]. cbn [fst snd] in *.
  change (draws_accounted s
            (main_loop L obj_fun f (select_inertia s)
               (Z.to_nat (steps (settings st0))) 0 st0)).
  apply (main_loop_Q L obj_fun
           (fun st => (size (settings st) = size s /\ dim (settings st) = dim s
                       /\ nhood_size (settings st) = nhood_size s)
                      /\ draws_accounted s st) (size s)).
  - now intros st [(E & _) _].
  - now intros k st H.
  - now intros x st H.
  - now intros st H.
  - intros i st _. apply update_particle_accounted.
  - exact Hf.
  - exact H0.
Qed.

(** ** The inertia at the end of the decay *)

(** [(double) n] of a positive [int] is a positive finite double. *)
Lemma double_of_int_finite (n : Z) :
  0 < n < 2 ^ 31 ->
  exists mx ex, Prim2SF (double_of_int n) = S754_finite false mx ex.
Proof.
  intros Hn. unfold double_of_int.
  replace (n <? 0) with false by (symmetry; apply Z.ltb_ge; lia).
  rewrite FloatAxioms.of_uint63_spec, Uint63.of_Z_spec.
  rewrite Z.mod_small by (change wB with (2 ^ 63); lia).
  destruct n as [|p|p]; [lia| |lia].
  assert (Hlog : 0 <= Z.log2 (Z.pos p) < 31).
  { split; [apply Z.log2_nonneg|apply Z.log2_lt_pow2; lia]. }
  assert (HD : Z.pos (digits2_pos p) = Z.log2 (Z.pos p) + 1).
  { apply Binary64.digits2_eq; [lia|].
    replace (Z.log2 (Z.pos p) + 1) with (Z.succ (Z.log2 (Z.pos p))) by lia.
    apply Z.log2_spec. lia. }
  cbn [binary_normalize]. unfold binary_round, shl_align.
  rewrite Binary64.fexp_normal by lia. rewrite HD.
  destruct (Z.log2 (Z.pos p) + 1 + 0 - 53 - 0) as [|d|d] eqn:Ed; [lia|lia|].
  rewrite Binary64.binary_round_aux_exact.
  - eauto.
  - rewrite Binary64.digits2_shift, Pos2Z.inj_add, HD. lia.
  - lia.
Qed.

Lemma is_finite_Prim2SF (x : float) :
  is_finite x = true ->
  (exists sx, Prim2SF x = S754_zero sx)
  \/ exists sx mx ex, Prim2SF x = S754_finite sx mx ex.
Proof.
  unfold is_finite, is_nan, is_infinity.
  rewrite !FloatAxioms.eqb_spec, FloatAxioms.abs_spec.
  change (Prim2SF infinity) with (S754_infinity false).
  destruct (Prim2SF x) as [sx|sx| |sx mx ex]; cbn; try discriminate; eauto.
  rewrite orb_true_r. discriminate.
Qed.

(** Adding a zero to a double that is a number gives a double equal to
    it. *)
Lemma add_zero_eqb (x z : float) (sz : bool) :
  is_nan x = false -> Prim2SF z = S754_zero sz -> (x + z =? x)%float = true.
Proof.
  intros Hx Hz.
  assert (Hrefl : SFeqb (Prim2SF x) (Prim2SF x) = true).
  { unfold is_nan in Hx. rewrite <- FloatAxioms.eqb_spec.
    now destruct (x =? x)%float. }
  rewrite FloatAxioms.eqb_spec, FloatAxioms.add_spec, Hz.
  destruct (Prim2SF x) as [sx|sx| |sx mx ex]; cbn in *.
  - now destruct sx, sz.
  - exact Hrefl.
  - discriminate.
  - exact Hrefl.
Qed.

(** X15: for a budget of at least two steps the inertia of the last step of
    the decay stage, [step = 3*steps/4], equals [w_min], provided [w_min] is a
    number and [w_max - w_min] is finite. *)
Theorem calc_inertia_lin_dec_end_of_decay (s : pso_settings_t) :
  2 <= steps s -> 3 * steps s <= INT_MAX ->
  is_nan (w_min s) = false -> is_finite (w_max s - w_min s) = true ->
  (calc_inertia_lin_dec (Z.quot (3 * steps s) 4) s =? w_min s)%float = true.
Proof.
  intros Hs Hmax Hmin Hfin. unfold INT_MAX in Hmax.
  rewrite calc_inertia_lin_dec_before by lia. rewrite Z.sub_diag.
  change (double_of_int 0) with 0%float.
  set (q := Z.quot (3 * steps s) 4).
  assert (Hq : 0 < q < 2 ^ 31).
  { subst q. pose proof (Z.quot_pos (3 * steps s) 4).
    assert (1 <= Z.quot (3 * steps s) 4)
      by (apply Z.quot_le_lower_bound; lia).
    assert (Z.quot (3 * steps s) 4 <= 3 * steps s)
      by (apply Z.quot_le_upper_bound; lia).
    lia. }
  destruct (double_of_int_finite q Hq) as (mq & eq & Eq).
  assert (Hz : exists sz,
             Prim2SF ((w_max s - w_min s) * 0 / double_of_int q)%float
             = S754_zero sz).
  { rewrite FloatAxioms.div_spec, FloatAxioms.mul_spec, Eq.
    change (Prim2SF 0) with (S754_zero false).
    destruct (is_finite_Prim2SF _ Hfin) as [[sx ->] | (sx & mx & ex & ->)];
      cbn; eauto. }
  destruct Hz as [sz Hz]. now apply (add_zero_eqb _ _ sz).
Qed.

Lemma calc_inertia_lin_dec_end_of_decay_witness :
  (calc_inertia_lin_dec (Z.quot (3 * steps settings_demo) 4) settings_demo
   =? w_min settings_demo)%float = true.
Proof.
  apply (calc_inertia_lin_dec_end_of_decay settings_demo).
  - cbn. lia.
  - vm_compute. discriminate.
  - reflexivity.
  - reflexivity.
Defined.

(** ** The range of the default swarm size *)

(** X16: for the dimensions an [int] can hold, the default swarm size lies
    between 12 and 100, does not decrease when the dimension grows, and is 100
    exactly from dimension 2025 on. *)
Theorem pso_calc_swarm_size_range (dim dim' : Z) :
  0 < dim <= dim' -> dim' <= INT_MAX ->
  12 <= pso_calc_swarm_size dim
  /\ pso_calc_swarm_size dim <= pso_calc_swarm_size dim'
  /\ pso_calc_swarm_size dim' <= 100
  /\ (pso_calc_swarm_size dim = 100 <-> 2025 <= dim).
Proof.
  intros Hd Hmax.
  rewrite !pso_calc_swarm_size_floor by lia. unfold floor_swarm_size.
  assert (H2 : 2 <= Z.sqrt (4 * dim)).
  { change 2 with (Z.sqrt 4). apply Z.sqrt_le_mono. lia. }
  assert (Hm : Z.sqrt (4 * dim) <= Z.sqrt (4 * dim'))
    by (apply Z.sqrt_le_mono; lia).
  assert (H90 : 90 <= Z.sqrt (4 * dim) <-> 2025 <= dim).
  { rewrite <- Z.sqrt_le_square by lia. lia. }
  lia.
Qed.

Lemma pso_calc_swarm_size_range_witness :
  12 <= pso_calc_swarm_size 30
  /\ pso_calc_swarm_size 30 <= pso_calc_swarm_size 3000
  /\ pso_calc_swarm_size 3000 <= 100
  /\ (pso_calc_swarm_size 30 = 100 <-> 2025 <= 30).
Proof.
  apply (pso_calc_swarm_size_range 30 3000); unfold INT_MAX; lia.
Defined.

(** ** Stopping on the goal *)

Lemma pso_loop_head_settings (L : libc) (obj_fun : pso_obj_fun_t)
    (sol : pso_result_t) (s : pso_settings_t) (k : nat) (st : swarm) :
  pso_loop_head L obj_fun sol s k = Some st ->
  exists j, settings st = set_step j s.
Proof.
  unfold pso_loop_head.
  destruct (pso_init_settings L obj_fun sol s) as [Hs Hf].
  destruct (pso_init L obj_fun sol s) as [st0 f]. cbn [fst snd] in *.
  apply (loop_head_Q L obj_fun (fun st => exists j, settings st = set_step j s)).
  - intros i st1 [j Hj]. exists i.
    rewrite (loop_body_settings L obj_fun f _ i st1 Hf), Hj. reflexivity.
  - exists (step s). now rewrite set_step_same.
Qed.

(** X17: the goal is tested at the head of every pass: when the best error is
    at most the goal at the head of pass [k], the run ends there. It returns
    the result of that head, with [k] in [settings->step], and the objective
    is not called again. *)
Theorem pso_run_stops_at_goal (L : libc) (obj_fun : pso_obj_fun_t)
    (sol : pso_result_t) (s : pso_settings_t) (k : nat) (st : swarm) :
  pso_loop_head L obj_fun sol s k = Some st ->
  Z.of_nat k < steps s ->
  (error (solution st) <=? goal s)%float = true ->
  pso_solve L obj_fun sol s = (solution st, set_step (Z.of_nat k) s)
  /\ pos (pso_run L obj_fun sol s) = pos st
  /\ trace (pso_run L obj_fun sol s) = trace st.
Proof.
  intros Hh Hk Hg. unfold pso_solve.
  rewrite (pso_run_through_loop_head L obj_fun sol s k st Hh).
  destruct (pso_loop_head_settings L obj_fun sol s k st Hh) as [j Hj].
  replace (Z.to_nat (steps s) - k)%nat
    with (S (Z.to_nat (steps s) - S k)) by lia.
  cbn [main_loop]. unfold loop_body.
  destruct (select_inertia s) as [c|]; cbn; rewrite Hj; cbn;
    rewrite Hg; cbn; rewrite ?Hj; auto.
Qed.

Lemma pso_run_stops_at_goal_witness :
  let st := fst (pso_init libc_half sphere result_demo settings_one_step) in
  pso_solve libc_half sphere result_demo settings_one_step
  = (solution st, set_step 0 settings_one_step)
  /\ pos (pso_run libc_half sphere result_demo settings_one_step) = pos st
  /\ trace (pso_run libc_half sphere result_demo settings_one_step) = trace st.
Proof.
  cbv zeta.
  apply (pso_run_stops_at_goal libc_half sphere result_demo settings_one_step
           0 (fst (pso_init libc_half sphere result_demo settings_one_step))).
  - vm_compute. reflexivity.
  - cbn. lia.
  - vm_compute. reflexivity.
Defined.



(** ** The personal bests *)

(** X18: after the initialisation the personal best of every particle is its
    initial position, with the value of the objective there. *)
Theorem pso_init_personal_best (L : libc) (obj_fun : pso_obj_fun_t)
    (sol : pso_result_t) (s : pso_settings_t) (i : Z) :
  let st := fst (pso_init L obj_fun sol s) in
  0 <= i < size s ->
  get [] (pos_b st) i = get [] (pos st) i
  /\ get 0%float (fit_b st) i = get 0%float (fit st) i
  /\ get 0%float (fit_b st) i = obj_fun (get [] (pos st) i) (dim s).
Proof.
  cbv zeta. intros Hi.
  destruct (pso_init_invariant L obj_fun sol s ltac:(lia))
    as (_ & _ & _ & _ & Hfit & _).
  destruct (pso_init_pbest L obj_fun sol s ltac:(lia)) as (_ & _ & _ & Heq).
  cbv zeta in Hfit. destruct (Heq i Hi) as [Ep Ef].
  split; [exact Ep|]. split; [exact Ef|]. rewrite Ef. now apply Hfit.
Qed.

Lemma pso_init_personal_best_witness :
  let st := fst (pso_init libc_lcg sphere result_demo settings_demo) in
  get [] (pos_b st) 2 = get [] (pos st) 2
  /\ get 0%float (fit_b st) 2 = get 0%float (fit st) 2
  /\ get 0%float (fit_b st) 2
     = sphere (get [] (pos st) 2) (dim settings_demo).
Proof.
  apply (pso_init_personal_best libc_lcg sphere result_demo settings_demo 2).
  cbn. lia.
Defined.

Section PersonalBestDecreases.
Variable L : libc.
Variable obj_fun : pso_obj_fun_t.
Variable j : Z.
Variable f0 : float.

Local Abbreviation at_or_below st :=
  (get 0%float (fit_b st) j = f0
   \/ PrimFloat.ltb (get 0%float (fit_b st) j) f0 = true).

Lemma update_particle_at_or_below i st :
  0 <= i < Z.of_nat (length (fit_b st)) ->
  at_or_below st -> at_or_below (update_particle L obj_fun i st).
Proof.
  intros Hi H. unfold update_particle.
  set (moved := for_loop (dim (settings st)) (move_dim L i) st).
  assert (Ef : fit_b moved = fit_b st)
    by (apply for_loop_proj; intros; apply move_dim_fit_b).
  unfold evaluate_particle.
  set (f := obj_fun (get [] (pos moved) i) (dim (settings moved))).
  cbn. rewrite Ef.
  destruct (f <? get 0%float (fit_b st) i)%float eqn:Eb; cbn;
    destruct (f <? error (solution moved))%float; cbn;
    rewrite ?Ef; try exact H;
    (destruct (Z.eq_dec i j) as [-> | Hne];
     [rewrite get_upd_same by exact Hi; right;
      destruct H as [<- | H]; [exact Eb|];
      eapply FloatOrder.ltb_trans; eassumption
     |now rewrite get_upd_other by exact Hne]).
Qed.

Lemma update_particle_length_fit_b i st :
  length (fit_b (update_particle L obj_fun i st)) = length (fit_b st).
Proof.
  unfold update_particle, evaluate_particle. cbn.
  assert (Ef : fit_b (for_loop (dim (settings st)) (move_dim L i) st)
               = fit_b st)
    by (apply for_loop_proj; intros; apply move_dim_fit_b).
  repeat match goal with |- context [if ?b then _ else _] => destruct b end;
    cbn; rewrite ?length_upd, Ef; reflexivity.
Qed.

Lemma main_loop_at_or_below f c m k st :
  keeps_particles f ->
  size (settings st) <= Z.of_nat (length (fit_b st)) ->
  at_or_below st -> at_or_below (main_loop L obj_fun f c m k st).
Proof.
  intros Hf Hl H.
  assert (G : (size (settings (main_loop L obj_fun f c m k st))
               = size (settings st)
               /\ length (fit_b (main_loop L obj_fun f c m k st))
                  = length (fit_b st))
              /\ at_or_below (main_loop L obj_fun f c m k st)); [|apply G].
  apply (main_loop_Q L obj_fun
           (fun s1 => (size (settings s1) = size (settings st)
                       /\ length (fit_b s1) = length (fit_b st))
                      /\ at_or_below s1)
           (size (settings st))).
  - now intros s1 [[E _] _].
  - now intros x s1 H1.
  - now intros x s1 H1.
  - now intros s1 H1.
  - intros i s1 Hi [[E El] Hq]. split; [split|].
    + now rewrite update_particle_settings.
    + now rewrite update_particle_length_fit_b.
    + apply update_particle_at_or_below; [lia|exact Hq].
  - intros s1 [[E El] Hq]. destruct (Hf s1) as (E1 & _ & _ & _ & E5).
    now rewrite E1, E5.
  - now split.
Qed.

End PersonalBestDecreases.

(** X19: a personal best fitness only decreases: at the end of the run it is
    the fitness of the initial position, or strictly below it. *)
Theorem personal_best_only_decreases (L : libc) (obj_fun : pso_obj_fun_t)
    (sol : pso_result_t) (s : pso_settings_t) (j : Z) :
  let f0 := get 0%float (fit_b (fst (pso_init L obj_fun sol s))) j in
  let f1 := get 0%float (fit_b (pso_run L obj_fun sol s)) j in
  0 <= j < size s -> f1 = f0 \/ (f1 <? f0)%float = true.
Proof.
  cbv zeta. intros Hj.
  destruct (pso_init_pbest L obj_fun sol s ltac:(lia)) as (_ & Hl & _).
  pose proof (pso_init_keeps_particles L obj_fun sol s) as Hf.
  pose proof (pso_init_settings L obj_fun sol s) as [Hs _].
  unfold pso_run.
  destruct (pso_init L obj_fun sol s) as [st0 f]. cbn [fst snd] in *.
  apply main_loop_at_or_below; [exact Hf|rewrite Hs; lia|now left].
Qed.

Lemma personal_best_only_decreases_witness :
  let f0 := get 0%float
              (fit_b (fst (pso_init libc_lcg sphere result_demo
                             settings_demo))) 2 in
  let f1 := get 0%float
              (fit_b (pso_run libc_lcg sphere result_demo settings_demo)) 2 in
  f1 = f0 \/ (f1 <? f0)%float = true.
Proof.
  apply (personal_best_only_decreases libc_lcg sphere result_demo
           settings_demo 2).
  cbn. lia.
Defined.

Section CurrentFitness.
Variable L : libc.
Variable obj_fun : pso_obj_fun_t.

Lemma move_dim_fit i d st : fit (move_dim L i d st) = fit st.
Proof. open_body. Qed.

Lemma pso_init_keeps_fit sol s st :
  fit (snd (pso_init L obj_fun sol s) st) = fit st.
Proof.
  unfold pso_init, pso_setup.
  pose proof (select_inform_cases L (pso_alloc sol s)) as H.
  destruct (select_inform L (pso_alloc sol s)) as [st0 f].
  destruct H as (_ & _ & _ & _ & Hf). cbn.
  destruct Hf as [-> | [-> | ->]].
  - unfold inform_global. now apply for_loop_proj.
  - reflexivity.
  - unfold inform_random. destruct (negb (truthy (improved st))); cbn;
      auto using init_comm_random_fit.
Qed.

Variable n : Z.

Local Abbreviation pbest_not_above st :=
  (length (fit st) = Z.to_nat n /\ length (fit_b st) = Z.to_nat n
   /\ forall j, 0 <= j < n ->
        PrimFloat.ltb (get 0%float (fit st) j) (get 0%float (fit_b st) j)
        = false).

Lemma update_particle_pbest_not_above i st :
  0 <= i < n ->
  pbest_not_above st -> pbest_not_above (update_particle L obj_fun i st).
Proof.
  intros Hi (Hl & Hlb & H). unfold update_particle.
  set (moved := for_loop (dim (settings st)) (move_dim L i) st).
  assert (Ef : fit_b moved = fit_b st)
    by (apply for_loop_proj; intros; apply move_dim_fit_b).
  assert (Ec : fit moved = fit st)
    by (apply for_loop_proj; intros; apply move_dim_fit).
  unfold evaluate_particle.
  set (f := obj_fun (get [] (pos moved) i) (dim (settings moved))).
  cbn. rewrite Ef, Ec.
  destruct (f <? get 0%float (fit_b st) i)%float eqn:Eb; cbn;
    destruct (f <? error (solution moved))%float; cbn;
    rewrite ?length_upd, ?Ef, ?Ec; (split; [exact Hl|split; [exact Hlb|]]);
    intros j Hj; (destruct (Z.eq_dec i j) as [<- | Hne];
                  [rewrite !get_upd_same by lia
                  |rewrite !get_upd_other by exact Hne; now apply H]);
    first [apply FloatOrder.ltb_irrefl | exact Eb].
Qed.

End CurrentFitness.

(** X20: at the end of a run no particle has a current fitness strictly below
    its personal best fitness. *)
Theorem pso_run_fitness_not_below_pbest (L : libc) (obj_fun : pso_obj_fun_t)
    (sol : pso_result_t) (s : pso_settings_t) (j : Z) :
  let st := pso_run L obj_fun sol s in
  0 <= j < size s ->
  (get 0%float (fit st) j <? get 0%float (fit_b st) j)%float = false.
Proof.
  cbv zeta. intros Hj.
  destruct (pso_init_invariant L obj_fun sol s ltac:(lia))
    as (_ & _ & Hlf & _).
  destruct (pso_init_pbest L obj_fun sol s ltac:(lia)) as (_ & Hlb & _ & Heq).
  pose proof (pso_init_keeps_particles L obj_fun sol s) as Hf.
  pose proof (pso_init_keeps_fit L obj_fun sol s) as Hc.
  pose proof (pso_init_settings L obj_fun sol s) as [Hs _].
  unfold pso_run.
  destruct (pso_init L obj_fun sol s) as [st0 f]. cbn [fst snd] in *.
  set (Q := fun st : swarm =>
              size (settings st) = size s
              /\ length (fit st) = Z.to_nat (size s)
              /\ length (fit_b st) = Z.to_nat (size s)
              /\ forall i, 0 <= i < size s ->
                   (get 0%float (fit st) i <? get 0%float (fit_b st) i)%float
                   = false).
  assert (G : Q (main_loop L obj_fun f (select_inertia s)
                   (Z.to_nat (steps (settings st0))) 0 st0)).
  { apply (main_loop_Q L obj_fun Q (size s)); subst Q; cbn beta.
    - now intros st [E _].
    - now intros x st H.
    - now intros x st H.
    - now intros st H.
    - intros i st Hi [E H]. split; [now rewrite update_particle_settings|].
      now apply update_particle_pbest_not_above.
    - intros st [E H]. destruct (Hf st) as (E1 & _ & _ & _ & E5).
      now rewrite E1, E5, Hc.
    - split; [now rewrite Hs|]. split; [exact Hlf|]. split; [exact Hlb|].
      intros i Hi. destruct (Heq i Hi) as [_ ->].
      apply FloatOrder.ltb_irrefl. }
  now apply G.
Qed.

Lemma pso_run_fitness_not_below_pbest_witness :
  let st := pso_run libc_lcg sphere result_demo settings_demo in
  (get 0%float (fit st) 1 <? get 0%float (fit_b st) 1)%float = false.
Proof.
  apply (pso_run_fitness_not_below_pbest libc_lcg sphere result_demo
           settings_demo 1).
  cbn. lia.
Defined.

(** ** A swarm without particles *)

(** X21: with no particle the objective is never called: the returned error is
    [DBL_MAX] and the caller's buffer is as it was. *)
Theorem pso_solve_empty_swarm (L : libc) (obj_fun : pso_obj_fun_t)
    (sol : pso_result_t) (s : pso_settings_t) :
  size s <= 0 ->
  fst (pso_solve L obj_fun sol s) = mk_result DBL_MAX (gbest sol)
  /\ evaluations (trace (pso_run L obj_fun sol s)) = 0.
Proof.
  intros Hn.
  enough (G : (solution (pso_run L obj_fun sol s)
               = mk_result DBL_MAX (gbest sol)
               /\ evaluations (trace (pso_run L obj_fun sol s)) = 0)
              /\ size (settings (pso_run L obj_fun sol s)) = size s)
    by apply G.
  pose proof (pso_init_keeps_particles L obj_fun sol s) as Hf.
  destruct (pso_init_evaluations L obj_fun sol s) as [He Hk].
  assert (H0 : solution (fst (pso_init L obj_fun sol s))
               = mk_result DBL_MAX (gbest sol)
               /\ size (settings (fst (pso_init L obj_fun sol s))) = size s).
  { destruct (pso_init_settings L obj_fun sol s) as [Hs _]. rewrite Hs.
    split; [|reflexivity].
    unfold pso_init, pso_setup.
    pose proof (select_inform_cases L (pso_alloc sol s)) as H.
    destruct (select_inform L (pso_alloc sol s)) as [st f].
    destruct H as (Es & Esol & _). cbn [fst].
    cbn [settings solution pso_alloc] in Es, Esol.
    unfold for_loop. cbn [settings set_solution]. rewrite Es.
    replace (Z.to_nat (size s)) with 0%nat by lia. cbn. now rewrite Esol. }
  unfold pso_run.
  destruct (pso_init L obj_fun sol s) as [st0 f]. cbn [fst snd] in *.
  apply (main_loop_Q L obj_fun
           (fun st => (solution st = mk_result DBL_MAX (gbest sol)
                       /\ evaluations (trace st) = 0)
                      /\ size (settings st) = size s) (size s)).
  - now intros st [_ E].
  - now intros x st H.
  - now intros x st H.
  - now intros st H.
  - intros i st Hi. lia.
  - intros st [[E1 E2] E3]. destruct (Hf st) as (-> & -> & _).
    now rewrite Hk.
  - split; [split; [apply H0|]|apply H0]. rewrite He. lia.
Qed.

Lemma pso_solve_empty_swarm_witness :
  fst (pso_solve libc_lcg sphere result_demo settings_empty)
  = mk_result DBL_MAX (gbest result_demo)
  /\ evaluations (trace (pso_run libc_lcg sphere result_demo settings_empty))
     = 0.
Proof.
  apply pso_solve_empty_swarm. cbn. lia.
Defined.

(** ** Memory: what is allocated is released *)

Lemma within_true (a c b : nat) :
  Mem.within a c b = true <-> (a <= b < c)%nat.
Proof.
  unfold Mem.within. rewrite andb_true_iff, Nat.leb_le, Nat.ltb_lt. reflexivity.
Qed.

Lemma within_false (a c b : nat) :
  Mem.within a c b = false <-> (b < a \/ c <= b)%nat.
Proof.
  unfold Mem.within. rewrite andb_false_iff, Nat.leb_gt, Nat.ltb_ge. reflexivity.
Qed.

Ltac split_within :=
  repeat match goal with
         | |- context [Mem.within ?a ?c ?b] =>
             let E := fresh "E" in
             destruct (Mem.within a c b) eqn:E;
             [apply within_true in E | apply within_false in E]
         | |- context [(?x =? ?y)%nat] => destruct (Nat.eqb_spec x y)
         end; cbn; try reflexivity; try lia.

Lemma bind_returns {A B : Type} (m : Mem.run A) (f : A -> Mem.run B)
    (h : Mem.heap) (a : A) (h' : Mem.heap) :
  m h = Mem.Returns a h' -> Mem.bind m f h = f a h'.
Proof. intros E. unfold Mem.bind. now rewrite E. Qed.

Lemma bind_undefined {A B : Type} (m : Mem.run A) (f : A -> Mem.run B)
    (h : Mem.heap) (e : Mem.fault) (h' : Mem.heap) :
  m h = Mem.Undefined e h' -> Mem.bind m f h = Mem.Undefined e h'.
Proof. intros E. unfold Mem.bind. now rewrite E. Qed.

(** A loop of code that runs on a heap: [k + 1] passes are [k] passes and
    then the last one, if the first [k] returned. *)
Lemma fold_left_run_last {A : Type} (body : nat -> A -> Mem.run A)
    (a : A) (k : nat) (h : Mem.heap) :
  fold_left (fun (acc : Mem.run A) i => Mem.bind acc (body i)) (seq 0 (S k))
    (Mem.ret a) h
  = match fold_left (fun (acc : Mem.run A) i => Mem.bind acc (body i))
            (seq 0 k) (Mem.ret a) h with
    | Mem.Returns x h' => body k x h'
    | Mem.Undefined e h' => Mem.Undefined e h'
    end.
Proof. rewrite seq_S, fold_left_app. reflexivity. Qed.

Section MemFacts.
Variable oom : nat -> bool.

Lemma grown_refl (h : Mem.heap) : Mem.grown h h.
Proof.
  unfold Mem.grown. split; [lia|]. intros b.
  replace (Mem.within (Mem.next h) (Mem.next h) b) with false; [reflexivity|].
  symmetry. apply within_false. lia.
Qed.

Hypothesis no_oom : forall k, oom k = false.

Lemma malloc_grown (h0 h : Mem.heap) :
  Mem.grown h0 h ->
  exists h',
    Mem.malloc oom h = Mem.Returns (Some (Mem.next h)) h'
    /\ Mem.next h' = S (Mem.next h)
    /\ Mem.grown h0 h'.
Proof.
  intros (Hn & Hl). unfold Mem.malloc, Mem.grown. rewrite no_oom.
  eexists. split; [reflexivity|]. cbn.
  split; [reflexivity|]. split; [lia|].
  intros b. rewrite Hl, orb_assoc. f_equal. split_within.
Qed.

Lemma nth_map_seq (a n k : nat) :
  (k < n)%nat -> nth k (map Some (seq a n)) None = Some (a + k)%nat.
Proof.
  intros Hk.
  rewrite (nth_indep _ None (Some 0%nat)) by (rewrite length_map, length_seq; lia).
  rewrite map_nth, seq_nth by lia. reflexivity.
Qed.

(** [pso_matrix_new] takes [1 + size] fresh blocks: the row pointers, then
    the rows in order. *)
Lemma pso_matrix_new_grown (size : Z) (h0 h : Mem.heap) :
  Mem.grown h0 h ->
  exists h',
    Mem.pso_matrix_new oom size h
    = Mem.Returns (Some (Mem.next h),
                   map Some (seq (S (Mem.next h)) (Z.to_nat size))) h'
    /\ Mem.next h' = (S (Mem.next h) + Z.to_nat size)%nat
    /\ Mem.grown h0 h'.
Proof.
  intros Hg. unfold Mem.pso_matrix_new.
  destruct (malloc_grown h0 h Hg) as (h1 & Em & En & Hg1).
  rewrite (bind_returns _ _ _ _ _ Em).
  set (n0 := Mem.next h) in *.
  set (body := fun (_ : nat) (rows : list (option nat)) =>
                 Mem.bind (Mem.malloc oom)
                   (fun r => Mem.bind (Mem.access (Some n0))
                               (fun _ => Mem.ret (rows ++ [r])))).
  assert (G : forall k : nat,
             exists hk,
               fold_left (fun (acc : Mem.run (list (option nat))) i =>
                            Mem.bind acc (body i)) (seq 0 k) (Mem.ret []) h1
               = Mem.Returns (map Some (seq (S n0) k)) hk
               /\ Mem.next hk = (S n0 + k)%nat
               /\ Mem.grown h0 hk).
  { induction k as [|k IH].
    - exists h1. cbn. split; [reflexivity|]. split; [lia|exact Hg1].
    - destruct IH as (hk & Ek & Enk & Hgk).
      rewrite fold_left_run_last, Ek. unfold body.
      destruct (malloc_grown h0 hk Hgk) as (h2 & Em2 & En2 & Hg2).
      rewrite (bind_returns _ _ _ _ _ Em2).
      assert (Hlive : Mem.live h2 n0 = true).
      { destruct Hg2 as (_ & Hl2). rewrite Hl2.
        apply orb_true_iff. left. apply within_true.
        destruct Hg as (Hn0 & _). fold n0 in Hn0. lia. }
      unfold Mem.bind, Mem.access, Mem.ret. rewrite Hlive.
      exists h2. split; [|split; [lia|exact Hg2]].
      rewrite seq_S, map_app, Enk. reflexivity. }
  destruct (G (Z.to_nat size)) as (hN & EN & EnN & HgN).
  exists hN. split; [|split; [exact EnN|exact HgN]].
  erewrite bind_returns by exact EN. reflexivity.
Qed.

(** [free] of an allocated block. *)
Lemma free_block (b0 : nat) (h : Mem.heap) :
  Mem.live h b0 = true ->
  exists h',
    Mem.free (Some b0) h = Mem.Returns tt h'
    /\ Mem.next h' = Mem.next h
    /\ forall b, Mem.live h' b = negb (Mem.within b0 (S b0) b) && Mem.live h b.
Proof.
  intros Hl. unfold Mem.free. rewrite Hl. eexists.
  split; [reflexivity|]. cbn. split; [reflexivity|]. intros b. f_equal.
  split_within.
Qed.

(** [pso_matrix_free] releases the [1 + size] blocks of a matrix that is
    allocated, and no other block. *)
Lemma pso_matrix_free_range (size : Z) (lo : nat) (h : Mem.heap) :
  (forall b, (lo <= b < S lo + Z.to_nat size)%nat -> Mem.live h b = true) ->
  exists h',
    Mem.pso_matrix_free (Some lo, map Some (seq (S lo) (Z.to_nat size))) size h
    = Mem.Returns tt h'
    /\ Mem.next h' = Mem.next h
    /\ forall b, Mem.live h' b
                 = negb (Mem.within lo (S lo + Z.to_nat size) b)
                   && Mem.live h b.
Proof.
  intros Hlive. unfold Mem.pso_matrix_free.
  set (N := Z.to_nat size) in *.
  set (rows := map Some (seq (S lo) N)).
  set (body := fun (i : nat) (_ : unit) =>
                 Mem.bind
                   (Mem.load (Some lo)
                      (nth (Z.to_nat (Z.of_nat i)) rows None))
                   (fun r => Mem.free r)).
  assert (G : forall k : nat, (k <= N)%nat ->
             exists hk,
               fold_left (fun (acc : Mem.run unit) i => Mem.bind acc (body i))
                 (seq 0 k) (Mem.ret tt) h
               = Mem.Returns tt hk
               /\ Mem.next hk = Mem.next h
               /\ forall b, Mem.live hk b
                            = negb (Mem.within (S lo) (S lo + k) b)
                              && Mem.live h b).
  { induction k as [|k IH]; intros Hk.
    - exists h. cbn [seq fold_left]. split; [reflexivity|].
      split; [reflexivity|]. intros b.
      replace (Mem.within (S lo) (S lo + 0) b) with false; [reflexivity|].
      symmetry. apply within_false. lia.
    - destruct (IH ltac:(lia)) as (hk & Ek & En & El).
      rewrite fold_left_run_last, Ek. unfold body.
      rewrite Nat2Z.id. subst rows. rewrite nth_map_seq by lia.
      assert (Hlo : Mem.live hk lo = true).
      { rewrite El, Hlive by lia.
        replace (Mem.within (S lo) (S lo + k) lo) with false; [reflexivity|].
        symmetry. apply within_false. lia. }
      assert (Hrow : Mem.live hk (S lo + k) = true).
      { rewrite El, Hlive by lia.
        replace (Mem.within (S lo) (S lo + k) (S lo + k)) with false;
          [reflexivity|].
        symmetry. apply within_false. lia. }
      unfold Mem.load, Mem.bind, Mem.access, Mem.ret, Mem.free.
      rewrite Hlo, Hrow. eexists. split; [reflexivity|].
      cbn [Mem.next Mem.live]. split; [exact En|]. intros b. rewrite El.
      rewrite andb_assoc. f_equal. split_within. }
  destruct (G N (Nat.le_refl _)) as (hN & EN & En & El).
  assert (Hlo : Mem.live hN lo = true).
  { rewrite El, Hlive by lia.
    replace (Mem.within (S lo) (S lo + N) lo) with false; [reflexivity|].
    symmetry. apply within_false. lia. }
  destruct (free_block lo hN Hlo) as (h' & Ef & Enf & Elf).
  exists h'. split; [|split; [congruence|]].
  - erewrite bind_returns by exact EN. exact Ef.
  - intros b. rewrite Elf, El, andb_assoc. f_equal. split_within.
Qed.

End MemFacts.

(** X22: a matrix is released as it was allocated: when no allocation fails,
    [pso_matrix_new] returns a matrix of [size] rows, none of them NULL, and
    [pso_matrix_free] of it returns and leaves the heap as it was before the
    matrix was made; nothing undefined is met on the way. *)
Theorem pso_matrix_new_free_round_trip (oom : nat -> bool) (size : Z)
    (h : Mem.heap) :
  (forall k, oom k = false) -> Mem.wf h ->
  exists m rows h1 h2,
    Mem.pso_matrix_new oom size h = Mem.Returns (m, rows) h1
    /\ length rows = Z.to_nat size
    /\ ~ In None (m :: rows)
    /\ Mem.pso_matrix_free (m, rows) size h1 = Mem.Returns tt h2
    /\ Mem.same h h2.
Proof.
  intros Hoom Hwf.
  destruct (pso_matrix_new_grown oom Hoom size h h (grown_refl h))
    as (h1 & Er & En & Hn & Hl).
  destruct (pso_matrix_free_range size (Mem.next h) h1) as (h2 & Ef & _ & El).
  { intros b Hb. rewrite Hl. apply orb_true_iff. left.
    apply within_true. lia. }
  exists (Some (Mem.next h)),
    (map Some (seq (S (Mem.next h)) (Z.to_nat size))), h1, h2.
  split; [exact Er|]. split; [now rewrite length_map, length_seq|].
  split; [|split; [exact Ef|]].
  - intros [C | C]; [discriminate C|].
    apply in_map_iff in C. destruct C as (x & C & _). discriminate C.
  - intros b. rewrite El, Hl, En.
    destruct (Nat.lt_ge_cases b (Mem.next h)) as [Hb | Hb].
    + split_within.
    + rewrite (Hwf b Hb). split_within.
Qed.

Lemma pso_matrix_new_free_round_trip_witness :
  exists m rows h1 h2,
    Mem.pso_matrix_new (fun _ => false) 3 Mem.empty = Mem.Returns (m, rows) h1
    /\ length rows = Z.to_nat 3
    /\ ~ In None (m :: rows)
    /\ Mem.pso_matrix_free (m, rows) 3 h1 = Mem.Returns tt h2
    /\ Mem.same Mem.empty h2.
Proof.
  apply (pso_matrix_new_free_round_trip (fun _ => false) 3 Mem.empty).
  - reflexivity.
  - intros b _. reflexivity.
Defined.

(** X23: [pso_solve] releases what it allocates: when no allocation fails,
    its allocations and releases return, the heap after them has the blocks
    it had before, and nothing undefined is met in allocating and
    releasing. *)
Theorem pso_solve_releases_its_blocks (oom : nat -> bool)
    (s : pso_settings_t) (h : Mem.heap) :
  (forall k, oom k = false) -> Mem.wf h ->
  exists h', Mem.pso_solve oom s h = Mem.Returns tt h' /\ Mem.same h h'.
Proof.
  intros Hoom Hwf. unfold Mem.pso_solve.
  (* the allocations *)
  destruct (pso_matrix_new_grown oom Hoom (size s) h h (grown_refl h))
    as (h1 & E1 & N1 & G1).
  rewrite (bind_returns _ _ _ _ _ E1).
  destruct (pso_matrix_new_grown oom Hoom (size s) h h1 G1)
    as (h2 & E2 & N2 & G2).
  rewrite (bind_returns _ _ _ _ _ E2).
  destruct (pso_matrix_new_grown oom Hoom (size s) h h2 G2)
    as (h3 & E3 & N3 & G3).
  rewrite (bind_returns _ _ _ _ _ E3).
  destruct (malloc_grown oom Hoom h h3 G3) as (h4 & E4 & N4 & G4).
  rewrite (bind_returns _ _ _ _ _ E4).
  destruct (malloc_grown oom Hoom h h4 G4) as (h5 & E5 & N5 & G5).
  rewrite (bind_returns _ _ _ _ _ E5).
  destruct (pso_matrix_new_grown oom Hoom (size s) h h5 G5)
    as (h6 & E6 & N6 & G6).
  rewrite (bind_returns _ _ _ _ _ E6).
  destruct (malloc_grown oom Hoom h h6 G6) as (h7 & E7 & N7 & G7).
  rewrite (bind_returns _ _ _ _ _ E7).
  destruct G7 as (_ & L7).
  clear E1 E2 E3 E4 E5 E6 E7 G1 G2 G3 G4 G5 G6.
  (* the releases *)
  destruct (pso_matrix_free_range (size s) (Mem.next h) h7)
    as (h8 & E8 & _ & L8).
  { intros b Hb. rewrite L7. apply orb_true_iff. left.
    apply within_true. lia. }
  rewrite (bind_returns _ _ _ _ _ E8).
  destruct (pso_matrix_free_range (size s) (Mem.next h1) h8)
    as (h9 & E9 & _ & L9).
  { intros b Hb. rewrite L8, L7.
    apply andb_true_iff. split.
    - apply negb_true_iff. apply within_false. lia.
    - apply orb_true_iff. left. apply within_true. lia. }
  rewrite (bind_returns _ _ _ _ _ E9).
  destruct (pso_matrix_free_range (size s) (Mem.next h2) h9)
    as (h10 & E10 & _ & L10).
  { intros b Hb. rewrite L9, L8, L7.
    repeat (apply andb_true_iff; split);
      try (apply negb_true_iff; apply within_false; lia).
    apply orb_true_iff. left. apply within_true. lia. }
  rewrite (bind_returns _ _ _ _ _ E10).
  destruct (pso_matrix_free_range (size s) (Mem.next h5) h10)
    as (h11 & E11 & _ & L11).
  { intros b Hb. rewrite L10, L9, L8, L7.
    repeat (apply andb_true_iff; split);
      try (apply negb_true_iff; apply within_false; lia).
    apply orb_true_iff. left. apply within_true. lia. }
  rewrite (bind_returns _ _ _ _ _ E11).
  destruct (free_block (Mem.next h6) h11) as (h12 & E12 & _ & L12).
  { rewrite L11, L10, L9, L8, L7.
    repeat (apply andb_true_iff; split);
      try (apply negb_true_iff; apply within_false; lia).
    apply orb_true_iff. left. apply within_true. lia. }
  rewrite (bind_returns _ _ _ _ _ E12).
  destruct (free_block (Mem.next h3) h12) as (h13 & E13 & _ & L13).
  { rewrite L12, L11, L10, L9, L8, L7.
    repeat (apply andb_true_iff; split);
      try (apply negb_true_iff; apply within_false; lia).
    apply orb_true_iff. left. apply within_true. lia. }
  rewrite (bind_returns _ _ _ _ _ E13).
  destruct (free_block (Mem.next h4) h13) as (h14 & E14 & _ & L14).
  { rewrite L13, L12, L11, L10, L9, L8, L7.
    repeat (apply andb_true_iff; split);
      try (apply negb_true_iff; apply within_false; lia).
    apply orb_true_iff. left. apply within_true. lia. }
  exists h14. split; [exact E14|].
  intros b. rewrite L14, L13, L12, L11, L10, L9, L8, L7.
  destruct (Nat.lt_ge_cases b (Mem.next h)) as [Hb | Hb].
  - repeat match goal with
           | |- context [Mem.within ?a ?c b] =>
               replace (Mem.within a c b) with false
                 by (symmetry; apply within_false; lia)
           end.
    reflexivity.
  - rewrite (Hwf b Hb), orb_false_r.
    assert (C : (Mem.next h <= b < S (Mem.next h) + Z.to_nat (size s)
                 \/ Mem.next h1 <= b < S (Mem.next h1) + Z.to_nat (size s)
                 \/ Mem.next h2 <= b < S (Mem.next h2) + Z.to_nat (size s)
                 \/ Mem.next h3 <= b < S (Mem.next h3)
                 \/ Mem.next h4 <= b < S (Mem.next h4)
                 \/ Mem.next h5 <= b < S (Mem.next h5) + Z.to_nat (size s)
                 \/ Mem.next h6 <= b < S (Mem.next h6)
                 \/ Mem.next h7 <= b)%nat) by lia.
    destruct C as [C | [C | [C | [C | [C | [C | [C | C]]]]]]];
      [apply within_true in C; rewrite C; cbn;
       rewrite ?andb_false_r; reflexivity ..|].
    replace (Mem.within (Mem.next h) (Mem.next h7) b) with false
      by (symmetry; apply within_false; lia).
    now rewrite !andb_false_r.
Qed.

Lemma pso_solve_releases_its_blocks_witness :
  exists h',
    Mem.pso_solve (fun _ => false) settings_demo Mem.empty = Mem.Returns tt h'
    /\ Mem.same Mem.empty h'.
Proof.
  apply (pso_solve_releases_its_blocks (fun _ => false) settings_demo
           Mem.empty).
  - reflexivity.
  - intros b _. reflexivity.
Defined.

Ltac eqb_nat :=
  repeat (first
            [ rewrite Nat.eqb_refl
            | match goal with
              | |- context [(?a =? ?b)%nat] =>
                  replace (a =? b)%nat with false
                    by (symmetry; apply Nat.eqb_neq; lia)
              end ];
          cbn - [Nat.eqb]).

(** X24: the failure paths of [pso_settings_new].  When the first or the
    second allocation fails it returns NULL and the heap has the blocks it
    had.  When these two succeed and the third fails, it frees the settings
    and then reads [settings->range_lo] in the freed block: the behaviour is
    undefined from there, with the block of [range_lo] still allocated.
    When none fails it returns the settings. *)
Theorem pso_settings_new_failure_paths (oom : nat -> bool) (h : Mem.heap) :
  Mem.wf h ->
  let c := Mem.calls h in
  let r := Mem.pso_settings_new oom h in
  (oom c || oom (S c) = true ->
   exists h', r = Mem.Returns None h' /\ Mem.same h h')
  /\ (oom c || oom (S c) = false -> oom (S (S c)) = true ->
      exists h',
        r = Mem.Undefined (Mem.UseAfterFree (Mem.next h)) h'
        /\ forall b, Mem.live h' b
                     = (b =? S (Mem.next h))%nat || Mem.live h b)
  /\ (oom c || oom (S c) || oom (S (S c)) = false ->
      exists settings h', r = Mem.Returns (Some settings) h').
Proof.
  intros Hwf. cbv zeta.
  unfold Mem.pso_settings_new, Mem.load, Mem.bind, Mem.ret, Mem.malloc,
    Mem.free, Mem.access.
  destruct (oom (Mem.calls h)) eqn:E1; cbn - [Nat.eqb].
  { split; [|split; discriminate]. intros _. eexists.
    split; [reflexivity|]. intros b. reflexivity. }
  destruct (oom (S (Mem.calls h))) eqn:E2; cbn - [Nat.eqb].
  { eqb_nat. split; [|split; discriminate]. intros _. eexists.
    split; [reflexivity|]. intros b. cbn - [Nat.eqb].
    destruct (Nat.eqb_spec b (Mem.next h)) as [-> | Hne];
      cbn - [Nat.eqb]; [|reflexivity].
    symmetry. apply Hwf. lia. }
  destruct (oom (S (S (Mem.calls h)))) eqn:E3; cbn - [Nat.eqb].
  - eqb_nat. split; [discriminate|]. split; [|discriminate].
    intros _ _. eexists. split; [reflexivity|]. intros b. cbn - [Nat.eqb].
    destruct (Nat.eqb_spec b (Mem.next h)) as [-> | Hne]; cbn - [Nat.eqb].
    + eqb_nat. symmetry. apply Hwf. lia.
    + reflexivity.
  - split; [discriminate|]. split; [discriminate|].
    intros _. eexists. eexists. reflexivity.
Qed.

Lemma pso_settings_new_failure_paths_witness :
  exists h',
    Mem.pso_settings_new (fun k => (k =? 2)%nat) Mem.empty
    = Mem.Undefined (Mem.UseAfterFree 0) h'
    /\ Mem.live h' 0 = false /\ Mem.live h' 1 = true.
Proof.
  destruct (pso_settings_new_failure_paths (fun k => (k =? 2)%nat) Mem.empty)
    as (_ & H & _).
  - intros b _. reflexivity.
  - destruct H as (h' & E & Hl); [reflexivity..|].
    exists h'. split; [exact E|]. split; rewrite Hl; reflexivity.
Defined.

(** X25: when no allocation fails, [pso_settings_new] returns the settings
    and [pso_settings_free] of them returns and leaves the heap as it was
    before; nothing undefined is met on the way. *)
Theorem pso_settings_new_free_round_trip (oom : nat -> bool) (h : Mem.heap) :
  (forall k, oom k = false) -> Mem.wf h ->
  exists settings h1 h2,
    Mem.pso_settings_new oom h = Mem.Returns (Some settings) h1
    /\ Mem.pso_settings_free settings h1 = Mem.Returns tt h2
    /\ Mem.same h h2.
Proof.
  intros Hoom Hwf.
  unfold Mem.pso_settings_new, Mem.bind, Mem.ret, Mem.malloc.
  repeat (rewrite Hoom; cbn - [Nat.eqb]).
  eexists. eexists. eexists. split; [reflexivity|].
  unfold Mem.pso_settings_free, Mem.load, Mem.bind, Mem.ret, Mem.access,
    Mem.free.
  cbn - [Nat.eqb]. eqb_nat.
  split; [reflexivity|]. intros b. cbn - [Nat.eqb].
  destruct (Nat.eqb_spec b (Mem.next h)) as [-> | H0]; cbn - [Nat.eqb];
    [symmetry; apply Hwf; lia|].
  destruct (Nat.eqb_spec b (S (S (Mem.next h)))) as [-> | H2];
    cbn - [Nat.eqb]; [symmetry; apply Hwf; lia|].
  destruct (Nat.eqb_spec b (S (Mem.next h))) as [-> | H1]; cbn - [Nat.eqb];
    [symmetry; apply Hwf; lia|].
  reflexivity.
Qed.

Lemma pso_settings_new_free_round_trip_witness :
  exists settings h1 h2,
    Mem.pso_settings_new (fun _ => false) Mem.empty
    = Mem.Returns (Some settings) h1
    /\ Mem.pso_settings_free settings h1 = Mem.Returns tt h2
    /\ Mem.same Mem.empty h2.
Proof.
  apply (pso_settings_new_free_round_trip (fun _ => false) Mem.empty).
  - reflexivity.
  - intros b _. reflexivity.
Defined.

(** X26: [pso_matrix_new] does not check what [malloc] returns: when the
    allocation of the row pointers fails and there is a row to make, the
    store of the first row goes through NULL.  The behaviour is undefined
    from there: the function gets no further than its second call of
    [malloc]. *)
Theorem pso_matrix_new_unchecked_malloc (oom : nat -> bool) (size : Z)
    (h : Mem.heap) :
  oom (Mem.calls h) = true -> 0 < size ->
  exists h',
    Mem.pso_matrix_new oom size h = Mem.Undefined Mem.NullAccess h'
    /\ Mem.calls h' = S (S (Mem.calls h)).
Proof.
  intros Hoom Hn.
  set (h1 := Mem.mk_heap (Mem.live h) (Mem.next h) (S (Mem.calls h))).
  assert (E : Mem.malloc oom h = Mem.Returns None h1)
    by (unfold Mem.malloc; now rewrite Hoom).
  unfold Mem.pso_matrix_new. rewrite (bind_returns _ _ _ _ _ E).
  set (body := fun (_ : nat) (rows : list (option nat)) =>
                 Mem.bind (Mem.malloc oom)
                   (fun r => Mem.bind (Mem.access None)
                               (fun _ => Mem.ret (rows ++ [r])))).
  assert (G : forall k : nat,
             exists h',
               fold_left (fun (acc : Mem.run (list (option nat))) i =>
                            Mem.bind acc (body i)) (seq 0 (S k)) (Mem.ret [])
                 h1
               = Mem.Undefined Mem.NullAccess h'
               /\ Mem.calls h' = S (S (Mem.calls h))).
  { induction k as [|k IH].
    - cbn [seq fold_left]. unfold body, Mem.bind, Mem.ret, Mem.access,
        Mem.malloc.
      destruct (oom (Mem.calls h1)); eexists; split; reflexivity.
    - destruct IH as (h' & Ek & Ec).
      rewrite fold_left_run_last, Ek. now exists h'. }
  destruct (Z.to_nat size) as [|k] eqn:Ek; [lia|].
  destruct (G k) as (h' & EG & Ec). exists h'. split; [|exact Ec].
  apply bind_undefined. unfold for_loop. rewrite Ek. exact EG.
Qed.

Lemma pso_matrix_new_unchecked_malloc_witness :
  exists h',
    Mem.pso_matrix_new (fun k => (k =? 0)%nat) 3 Mem.empty
    = Mem.Undefined Mem.NullAccess h'
    /\ Mem.calls h' = 2%nat.
Proof.
  apply (pso_matrix_new_unchecked_malloc (fun k => (k =? 0)%nat) 3 Mem.empty).
  - reflexivity.
  - lia.
Defined.
